(** * Exact Gaussian elimination and back substitution

    A shallow embedding of the two hand-written routines of the
    repository, [ref] (file [REF.py]) and [back_substitution] (file
    [Back subtracktion.py]), over exact rationals, together with the
    properties their specification states about them.

    The scalars are MathComp's [rat] (numerator and denominator in lowest
    terms with a positive denominator, which is the invariant of sympy's
    [Rational]); a sympy [Matrix] is a record of its two dimensions and its
    rows; the loops of the source are folds over [iota], and a [for] loop
    that leaves through [break] is a recursive first-match search.

    The routines around them, which read the numbers and the rows from
    the terminal ([parse_number], [parse_row], [read_int], [read_matrix],
    [read_augmented_matrix]) and the loop of the two [main], are embedded
    as functions on a console: the lines the user has still to type and
    what has been written so far.  Python's text is a list of characters,
    and what sympy's [Rational] reads from a token is a variable of the
    sections concerned. *)

Set Warnings "-notation-overridden,-ambiguous-paths,-rewrite-rw".
From HB Require Import structures.
From mathcomp Require Import boot order algebra.
From mathcomp Require Import ring_tactic field_tactic.
From Stdlib Require Import Lia.
From Stdlib Require String DecimalString.
Import String.StringSyntax.
Delimit Scope string_scope with string.

Set Implicit Arguments.
Unset Strict Implicit.
Unset Printing Implicit Defensive.

Import GRing.Theory Num.Theory.

(** ** Linear arithmetic on [nat] through [lia]

    MathComp's comparisons on [nat] are boolean; these tactics move the
    hypotheses and the goal to the propositional ones [lia] decides. *)

Ltac nat_hyps :=
  repeat match goal with
  | H : is_true (_ && _) |- _ =>
      let H1 := fresh H in let H2 := fresh H in move/andP: H => [H1 H2]
  | H : is_true (~~ (leq _ _)) |- _ => rewrite -ltnNge in H
  | H : leq _ _ = false |- _ => move/negbT in H
  | H : leq _ _ = true |- _ => move/leP in H
  | H : @eq_op nat _ _ = false |- _ => move/eqP in H
  | H : is_true (leq _ _) |- _ => move/leP in H
  | H : is_true (@eq_op nat _ _) |- _ => move/eqP in H
  | H : is_true (~~ (@eq_op nat _ _)) |- _ => move/eqP in H
  end.

Ltac nat_goal :=
  match goal with
  | |- is_true (_ && _) => apply/andP; split; nat_goal
  | |- is_true (leq _ _) => apply/leP
  | |- is_true (@eq_op nat _ _) => apply/eqP
  | |- is_true (~~ (@eq_op nat _ _)) => apply/eqP
  | |- is_true (~~ (leq _ _)) => rewrite -ltnNge; apply/leP
  | |- leq _ _ = false => apply/negbTE; rewrite -ltnNge; apply/leP
  | |- leq _ _ = true => apply/leP
  | |- @eq_op nat _ _ = false => apply/eqP
  | |- @eq_op nat _ _ = true => apply/eqP
  | |- _ => idtac
  end.

Ltac nlia :=
  intros; nat_hyps; nat_goal;
  change addn with Nat.add in *; change subn with Nat.sub in *;
  change muln with Nat.mul in *; lia.

(** ** The part of sympy the two routines use *)

(** [sp.simplify] applied to a [Rational] returns that rational. *)
Definition simplifyQ (q : rat) : rat := q.

(** A [Matrix]: the attributes [rows] and [cols] and the entries, row by
    row.  Entries are read with [M[i, j]] and written with
    [M[i, j] = v]. *)
Record Matrix := MkMatrix { rows : nat; cols : nat; ent : seq (seq rat) }.

Definition getitem (M : Matrix) (i j : nat) : rat :=
  nth 0%R (nth [::] (ent M) i) j.

Definition setitem (M : Matrix) (i j : nat) (v : rat) : Matrix :=
  MkMatrix (rows M) (cols M)
    (set_nth [::] (ent M) i (set_nth 0%R (nth [::] (ent M) i) j v)).

(** [sp.Matrix(rows)] as the callers in [read_matrix] build it. *)
Definition Matrix_of_rows (rs : seq (seq rat)) : Matrix :=
  MkMatrix (size rs) (size (head [::] rs)) rs.

(** Every row is there and has [cols] entries. *)
Definition well_formed (M : Matrix) : bool :=
  (size (ent M) == rows M) && all (fun r => size r == cols M) (ent M).

(** [A.copy()]: a new matrix with the entries of [A]. *)
Definition copy (A : Matrix) : Matrix := A.

(** [M.row_swap(i, j)]:
    [for k in range(0, self.cols): self[i, k], self[j, k] = self[j, k], self[i, k]]. *)
Definition row_swap (M : Matrix) (i j : nat) : Matrix :=
  foldl (fun M' k =>
           let a := getitem M' j k in
           let b := getitem M' i k in
           setitem (setitem M' i k a) j k b)
        M (iota 0 (cols M)).

(** [M.row_op(i, f)]: [for j in range(self.cols): self[i, j] = f(self[i, j], j)].
    The functor of the source reads the matrix it is changing, so [f]
    receives the matrix as it stands when it is called. *)
Definition row_op (M : Matrix) (i : nat) (f : Matrix -> rat -> nat -> rat) : Matrix :=
  foldl (fun M' j => setitem M' i j (f M' (getitem M' i j) j)) M (iota 0 (cols M)).

(** [for k in range(start, start + len): if p(k): found = k; break] *)
Fixpoint first_index (p : nat -> bool) (start len : nat) : option nat :=
  if len is len'.+1 then
    if p start then Some start else first_index p start.+1 len'
  else None.

(** ** [REF.py]: [ref] *)

(** The search for a nonzero pivot at or below [pivot_row]. *)
Definition find_pivot (M : Matrix) (col pivot_row m : nat) : option nat :=
  first_index (fun r => getitem M r col != 0%R) pivot_row (m - pivot_row).

(** One turn of the loop that eliminates below the pivot. *)
Definition eliminate_row (col pivot_row : nat) (pivot_val : rat)
    (M : Matrix) (r : nat) : Matrix :=
  if getitem M r col == 0%R then M
  else
    let factor := simplifyQ (getitem M r col / pivot_val)%R in
    row_op M r (fun M' val j => simplifyQ (val - factor * getitem M' pivot_row j)%R).

(** One turn of the loop over the columns; the state is the matrix, the
    cursor [pivot_row] and the pivot columns found so far.  After the
    [break] the state no longer changes. *)
Definition ref_step (m : nat) (st : Matrix * nat * seq nat) (col : nat)
    : Matrix * nat * seq nat :=
  let: (M, pivot_row, pivot_cols) := st in
  if m <= pivot_row then st
  else if find_pivot M col pivot_row m is Some pivot then
    let M1 := if pivot != pivot_row then row_swap M pivot pivot_row else M in
    let pivot_val := getitem M1 pivot_row col in
    let M2 := foldl (eliminate_row col pivot_row pivot_val) M1
                    (iota pivot_row.+1 (m - pivot_row.+1)) in
    (M2, pivot_row.+1, rcons pivot_cols col)
  else st.

Definition ref_loop (M : Matrix) : Matrix * nat * seq nat :=
  foldl (ref_step (rows M)) (M, 0, [::]) (iota 0 (cols M)).

Definition ref (A : Matrix) : Matrix * seq nat :=
  let M := copy A in
  let: (M', _, pivot_cols) := ref_loop M in
  (M', pivot_cols).

(** ** Expressions of [Back subtracktion.py]

    The entries of the solution are sympy expressions in the parameter
    symbols [t0, t1, ...].  The routine only ever subtracts expressions,
    multiplies one by a rational and divides one by a rational, so every
    expression it builds is an affine form [c + a0*t0 + a1*t1 + ...]; the
    record holds [c] and the coefficients [a0, a1, ...]. *)
Record expr := Affine { const : rat; coefs : seq rat }.

(** A [Rational] used as an expression; [sp.Integer(0)]. *)
Definition of_rat (q : rat) : expr := Affine q [::].
Definition ezero : expr := of_rat 0%R.

(** The symbol [tk]. *)
Definition symbol (k : nat) : expr := Affine 0%R (rcons (nseq k 0%R) 1%R).

(** [sp.symbols("t0:n")]: the tuple [(t0, ..., t(n-1))]. *)
Definition symbols (n : nat) : seq expr := mkseq symbol n.

Fixpoint sub_coefs (a b : seq rat) : seq rat :=
  match a, b with
  | [::], _ => [seq (- y)%R | y <- b]
  | _, [::] => a
  | x :: a', y :: b' => (x - y)%R :: sub_coefs a' b'
  end.

(** [e1 - e2], [q * e] and [e / q]. *)
Definition esub (e1 e2 : expr) : expr :=
  Affine (const e1 - const e2)%R (sub_coefs (coefs e1) (coefs e2)).

Definition escale (q : rat) (e : expr) : expr :=
  Affine (q * const e)%R [seq (q * a)%R | a <- coefs e].

(** sympy does not raise on a division by the rational zero: it answers
    [zoo] or [nan].  The model answers [None] there. *)
Definition ediv (e : expr) (q : rat) : option expr :=
  if q == 0%R then None else Some (escale q^-1%R e).

(** [sp.simplify] on an affine form: the symbols whose coefficient is zero
    disappear from the expression. *)
Fixpoint trim (s : seq rat) : seq rat :=
  if s is a :: s' then
    let r := trim s' in
    if (a == 0%R) && nilp r then [::] else a :: r
  else [::].

Definition simplify (e : expr) : expr := Affine (const e) (trim (coefs e)).

(** The value of an expression when the symbol [tk] takes the value
    [rho k]. *)
Fixpoint eval_coefs (rho : nat -> rat) (k : nat) (s : seq rat) : rat :=
  if s is a :: s' then (a * rho k + eval_coefs rho k.+1 s')%R else 0%R.

Definition eval (rho : nat -> rat) (e : expr) : rat :=
  (const e + eval_coefs rho 0 (coefs e))%R.

(** ** [Back subtracktion.py]: [back_substitution] *)

(** [raise InputError(msg)]. *)
Inductive exn := InputError (msg : String.string).

(** What a call of [back_substitution] ends in: [return x, free_cols], an
    exception, or a solution that a division by zero spoilt. *)
Inductive outcome :=
| Returned (x : seq expr) (free_cols : seq nat)
| Raised (e : exn)
| DividedByZero.

(** The slices [Ab[i, :]] and [row[:, :n]], each a new matrix. *)
Definition row_slice (M : Matrix) (i : nat) : Matrix :=
  MkMatrix 1 (cols M) [:: nth [::] (ent M) i].

Definition cols_slice (M : Matrix) (n : nat) : Matrix :=
  MkMatrix (rows M) (minn n (cols M)) [seq take n r | r <- ent M].

Definition is_inconsistent_row (row : Matrix) (n_vars : nat) : bool :=
  let left_part := cols_slice row n_vars in
  let b := getitem row 0 n_vars in
  all (fun j => getitem left_part 0 j == 0%R) (iota 0 n_vars) && (b != 0%R).

(** The scan for the first nonzero entry of row [i]:
    [for j in range(n_vars): if Ab[i, j] != 0: ...; break]. *)
Definition pivot_scan (Ab : Matrix) (n_vars i : nat) : option nat :=
  first_index (fun j => getitem Ab i j != 0%R) 0 n_vars.

(** One turn of the loop that fills [pivot_col_for_row] (where [None]
    stands for the source's [-1]) and the set [pivot_cols]. *)
Definition pivot_step (Ab : Matrix) (n_vars : nat)
    (st : seq (option nat) * seq nat) (i : nat) : seq (option nat) * seq nat :=
  let: (pivot_col_for_row, pivot_cols) := st in
  if pivot_scan Ab n_vars i is Some j then
    (set_nth None pivot_col_for_row i (Some j),
     if j \in pivot_cols then pivot_cols else j :: pivot_cols)
  else st.

Definition determine_pivots (Ab : Matrix) (n_vars m : nat)
    : seq (option nat) * seq nat :=
  foldl (pivot_step Ab n_vars) (nseq m None, [::]) (iota 0 m).

(** [for k, j in enumerate(free_cols): x[j] = t[k]] *)
Definition bind_free (t : seq expr) (free_cols : seq nat) (x : seq expr) : seq expr :=
  foldl (fun x' kj => set_nth ezero x' kj.2 (nth ezero t kj.1)) x
        (zip (iota 0 (size free_cols)) free_cols).

(** [rhs = sp.simplify(rhs - Ab[i, j] * x[j])] *)
Definition subtract_known (Ab : Matrix) (i : nat) (x : seq expr)
    (rhs : expr) (j : nat) : expr :=
  simplify (esub rhs (escale (getitem Ab i j) (nth ezero x j))).

(** One turn of the loop from the bottom row to the top one. *)
Definition back_step (Ab : Matrix) (n_vars : nat)
    (pivot_col_for_row : seq (option nat))
    (ox : option (seq expr)) (i : nat) : option (seq expr) :=
  if ox is Some x then
    if nth None pivot_col_for_row i is Some pc then
      let rhs := of_rat (getitem Ab i n_vars) in
      let rhs := foldl (subtract_known Ab i x) rhs (iota pc.+1 (n_vars - pc.+1)) in
      if ediv rhs (getitem Ab i pc) is Some v
      then Some (set_nth ezero x pc (simplify v))
      else None
    else Some x
  else None.

Definition wrong_columns : String.string :=
  "Augmented matrix has wrong number of columns."%string.
Definition inconsistent : String.string :=
  "System is inconsistent (row of form 0=nonzero). No solution."%string.

(** The part of [back_substitution] after the two checks. *)
Definition solve (Ab : Matrix) (n_vars : nat) : outcome :=
  let m := rows Ab in
  let: (pivot_col_for_row, pivot_cols) := determine_pivots Ab n_vars m in
  let free_cols := [seq j <- iota 0 n_vars | j \notin pivot_cols] in
  let t := symbols (size free_cols) in
  let x := bind_free t free_cols (nseq n_vars ezero) in
  if foldl (back_step Ab n_vars pivot_col_for_row) (Some x) (rev (iota 0 m))
    is Some x'
  then Returned x' free_cols
  else DividedByZero.

Definition back_substitution (Ab : Matrix) (n_vars : nat) : outcome :=
  let m := rows Ab in
  let total_cols := cols Ab in
  if total_cols != n_vars + 1 then Raised (InputError wrong_columns)
  else if has (fun i => is_inconsistent_row (row_slice Ab i) n_vars) (iota 0 m)
  then Raised (InputError inconsistent)
  else solve Ab n_vars.

(** ** The two routines on a store of matrices

    A sympy matrix is a mutable object and [ref] works in place on the
    copy it takes.  To speak about what a caller still sees after a call,
    the matrices live in a store, a call receives the location of its
    argument, [copy] and the slices allocate, and the in-place operations
    write to the store. *)

Definition store := seq Matrix.
Definition loc := nat.

Definition empty_matrix : Matrix := MkMatrix 0 0 [::].

Definition sel (h : store) (l : loc) : Matrix := nth empty_matrix h l.
Definition alloc (h : store) (M : Matrix) : store * loc := (rcons h M, size h).
Definition upd (h : store) (l : loc) (M : Matrix) : store := set_nth empty_matrix h l M.

Definition getitem_st (h : store) (l : loc) (i j : nat) : rat :=
  getitem (sel h l) i j.

Definition setitem_st (h : store) (l : loc) (i j : nat) (v : rat) : store :=
  upd h l (setitem (sel h l) i j v).

Definition copy_st (h : store) (l : loc) : store * loc := alloc h (copy (sel h l)).

Definition row_swap_st (h : store) (l : loc) (i j : nat) : store :=
  foldl (fun h' k =>
           let a := getitem_st h' l j k in
           let b := getitem_st h' l i k in
           setitem_st (setitem_st h' l i k a) l j k b)
        h (iota 0 (cols (sel h l))).

Definition row_op_st (h : store) (l : loc) (i : nat)
    (f : store -> rat -> nat -> rat) : store :=
  foldl (fun h' j => setitem_st h' l i j (f h' (getitem_st h' l i j) j))
        h (iota 0 (cols (sel h l))).

Definition find_pivot_st (h : store) (M : loc) (col pivot_row m : nat) : option nat :=
  first_index (fun r => getitem_st h M r col != 0%R) pivot_row (m - pivot_row).

Definition eliminate_row_st (M : loc) (col pivot_row : nat) (pivot_val : rat)
    (h : store) (r : nat) : store :=
  if getitem_st h M r col == 0%R then h
  else
    let factor := simplifyQ (getitem_st h M r col / pivot_val)%R in
    row_op_st h M r
      (fun h' val j => simplifyQ (val - factor * getitem_st h' M pivot_row j)%R).

Definition ref_step_st (M : loc) (m : nat) (st : store * nat * seq nat) (col : nat)
    : store * nat * seq nat :=
  let: (h, pivot_row, pivot_cols) := st in
  if m <= pivot_row then st
  else if find_pivot_st h M col pivot_row m is Some pivot then
    let h1 := if pivot != pivot_row then row_swap_st h M pivot pivot_row else h in
    let pivot_val := getitem_st h1 M pivot_row col in
    let h2 := foldl (eliminate_row_st M col pivot_row pivot_val) h1
                    (iota pivot_row.+1 (m - pivot_row.+1)) in
    (h2, pivot_row.+1, rcons pivot_cols col)
  else st.

(** [ref(A)] where [A] is the location of the caller's matrix: the final
    store, the location of the returned matrix and the pivot columns. *)
Definition ref_st (h : store) (A : loc) : store * (loc * seq nat) :=
  let: (h1, M) := copy_st h A in
  let m := rows (sel h1 M) in
  let n := cols (sel h1 M) in
  let: (h2, _, pivot_cols) := foldl (ref_step_st M m) (h1, 0, [::]) (iota 0 n) in
  (h2, (M, pivot_cols)).

Definition is_inconsistent_row_st (h : store) (row : loc) (n_vars : nat)
    : store * bool :=
  let: (h1, left_part) := alloc h (cols_slice (sel h row) n_vars) in
  let b := getitem_st h1 row 0 n_vars in
  (h1, all (fun j => getitem_st h1 left_part 0 j == 0%R) (iota 0 n_vars)
       && (b != 0%R)).

(** The inconsistency check: the loop leaves at the first row that is
    inconsistent. *)
Fixpoint check_rows_st (h : store) (Ab : loc) (n_vars : nat) (todo : seq nat)
    : store * bool :=
  if todo is i :: todo' then
    let: (h1, row) := alloc h (row_slice (sel h Ab) i) in
    let: (h2, b) := is_inconsistent_row_st h1 row n_vars in
    if b then (h2, true) else check_rows_st h2 Ab n_vars todo'
  else (h, false).

(** [back_substitution(Ab, n_vars)] where [Ab] is the location of the
    caller's matrix; after the checks the routine only reads [Ab]. *)
Definition back_substitution_st (h : store) (Ab : loc) (n_vars : nat)
    : store * outcome :=
  let m := rows (sel h Ab) in
  let total_cols := cols (sel h Ab) in
  if total_cols != n_vars + 1 then (h, Raised (InputError wrong_columns))
  else
    let: (h1, bad) := check_rows_st h Ab n_vars (iota 0 m) in
    if bad then (h1, Raised (InputError inconsistent))
    else (h1, solve (sel h1 Ab) n_vars).

(** ** The vocabulary of the specification *)

(** The column of the leading (first nonzero) entry of row [i]. *)
Definition lead (M : Matrix) (i : nat) : option nat :=
  first_index (fun j => getitem M i j != 0%R) 0 (cols M).

Definition leads (M : Matrix) : seq (option nat) :=
  [seq lead M i | i <- iota 0 (rows M)].

(** Row echelon form: the leading entry of each nonzero row is strictly
    to the right of the leading entry of the row above, which therefore is
    a nonzero row too. *)
Definition right_of (a b : option nat) : bool :=
  if b is Some cb then (if a is Some ca then ca < cb else false) else true.

Definition is_echelon (M : Matrix) : bool := sorted right_of (leads M).

(** The leading-entry columns of the nonzero rows, from the top. *)
Definition leading_cols (M : Matrix) : seq nat := pmap id (leads M).

(** Equation [i] of the system [Ab], with the solution [x] read at the
    values [rho] of the parameters. *)
Definition row_holds (rho : nat -> rat) (Ab : Matrix) (n_vars : nat)
    (x : seq expr) (i : nat) : Prop :=
  (\sum_(0 <= j < n_vars) getitem Ab i j * eval rho (nth ezero x j))%R
  = getitem Ab i n_vars.

(** The [m] by [n] matrix of MathComp with the entries of [M]. *)
Definition to_mx (m n : nat) (M : Matrix) : 'M[rat]_(m, n) :=
  \matrix_(i < m, j < n) getitem M i j.

(** The values [x] solve the system whose augmented matrix is [M]. *)
Definition solves (M : Matrix) (n_vars : nat) (x : seq rat) : Prop :=
  forall i, i < rows M ->
    (\sum_(0 <= j < n_vars) getitem M i j * nth 0 x j)%R = getitem M i n_vars.

(** The augmented matrix [A | b]. *)
Definition augment (A : Matrix) (b : seq rat) : Matrix :=
  MkMatrix (rows A) (cols A).+1 [seq rcons r.1 r.2 | r <- zip (ent A) b].

(** The unknowns of an augmented system followed by [-1]: the system is
    solved when the augmented matrix sends this vector to zero. *)
Definition augmented_vector (n_vars : nat) (x : seq rat) : 'cV[rat]_(n_vars.+1) :=
  \col_(j < n_vars.+1) (if j < n_vars then nth 0%R x j else (-1)%R).

(** Row [i] reads [0 ... 0 | nonzero]. *)
Definition inconsistent_row (Ab : Matrix) (n_vars i : nat) : bool :=
  all (fun j => getitem Ab i j == 0%R) (iota 0 n_vars)
  && (getitem Ab i n_vars != 0%R).

(** Column [j] holds the first nonzero coefficient of some row. *)
Definition pivot_column (Ab : Matrix) (n_vars j : nat) : bool :=
  has (fun i => pivot_scan Ab n_vars i == Some j) (iota 0 (rows Ab)).

(** The outcome is a solution spoilt by a division by zero. *)
Definition divided_by_zero (o : outcome) : bool :=
  if o is DividedByZero then true else false.

(** The call handed a value back to its caller. *)
Definition returns_value (o : outcome) : bool :=
  if o is Returned _ _ then true else false.

(** ** Definitions of the proofs *)

(** Where row [r] is after rows [i] and [j] have changed places. *)
Definition swapped (i j r : nat) : nat :=
  if r == j then i else if r == i then j else r.

(** What the first-match search answers. *)
Variant first_index_spec (p : nat -> bool) (s len : nat) : option nat -> Type :=
| FirstIndexSome k of s <= k < s + len & p k
    & (forall k', s <= k' < k -> ~~ p k') : first_index_spec p s len (Some k)
| FirstIndexNone of (forall k', s <= k' < s + len -> ~~ p k')
    : first_index_spec p s len None.

(** The three ways one turn of the loop of [ref] goes: after the [break];
    no pivot in the column; or a pivot, with [M1] the matrix after the
    swap and [M2] the matrix after the elimination, entry by entry. *)
Variant ref_step_spec (m : nat) (M : Matrix) (p : nat) (piv : seq nat) (col : nat)
  : Matrix * nat * seq nat -> Type :=
| RefStepBreak of m <= p : ref_step_spec m M p piv col (M, p, piv)
| RefStepNoPivot of p < m & (forall r, p <= r < m -> getitem M r col = 0%R)
  : ref_step_spec m M p piv col (M, p, piv)
| RefStepPivot pivot M1 M2 of p <= pivot < m & getitem M pivot col != 0%R
  & (forall r, p <= r < pivot -> getitem M r col = 0%R)
  & rows M1 = rows M /\ cols M1 = cols M
  & (forall r c, c < cols M -> getitem M1 r c = getitem M (swapped pivot p r) c)
  & rows M2 = rows M /\ cols M2 = cols M
  & (forall r c, c < cols M ->
       getitem M2 r c
       = if p < r < m
         then (getitem M1 r c
               - getitem M1 r col / getitem M1 p col * getitem M1 p c)%R
         else getitem M1 r c)
  : ref_step_spec m M p piv col (M2, p.+1, rcons piv col).

(** The invariant of the loop of [ref], before column [col] is visited
    with the cursor at row [p]: the pivot columns found are increasing and
    to the left of [col]; row [k < p] has its leading entry in the [k]-th
    pivot column; the rows from [p] on are zero to the left of [col]. *)
Definition ref_inv (m n col : nat) (st : Matrix * nat * seq nat) : Prop :=
  [/\ rows st.1.1 = m /\ cols st.1.1 = n,
      size st.2 = st.1.2 /\ st.1.2 <= m,
      sorted ltn st.2 /\ all (fun c => c < col) st.2,
      forall k, k < st.1.2 ->
        getitem st.1.1 k (nth 0 st.2 k) != 0%R
        /\ (forall c, c < nth 0 st.2 k -> getitem st.1.1 k c = 0%R)
    & forall r c, st.1.2 <= r < m -> c < col -> getitem st.1.1 r c = 0%R].

(** What the leading entry of a row is. *)
Variant lead_spec (M : Matrix) (i : nat) : option nat -> Type :=
| LeadSome c of c < cols M & getitem M i c != 0%R
    & (forall c', c' < c -> getitem M i c' = 0%R) : lead_spec M i (Some c)
| LeadNone of (forall c', c' < cols M -> getitem M i c' = 0%R)
    : lead_spec M i None.

(** Row [i] has no nonzero entry to the left of column [k]. *)
Definition lead_ge (M : Matrix) (i k : nat) : bool :=
  if lead M i is Some c then k <= c else true.

(** The state of the loop of [ref] before column [k] when the input [A]
    is in echelon form: the matrix is still [A], the rows above the cursor
    are the rows whose leading entries were found, and the row at the
    cursor has no entry to the left of [k]. *)
Definition ech_inv (A : Matrix) (k : nat) (st : Matrix * nat * seq nat) : Prop :=
  [/\ st.1.1 = A,
      size st.2 = st.1.2 /\ st.1.2 <= rows A,
      forall i, i < st.1.2 -> lead A i = Some (nth 0 st.2 i)
    & st.1.2 < rows A -> lead_ge A st.1.2 k].

(** One turn of the loop from the bottom row up, with the division done
    by multiplying with the inverse of the pivot. *)
Definition back_row (Ab : Matrix) (n_vars : nat) (x : seq expr) (i : nat)
    : seq expr :=
  if pivot_scan Ab n_vars i is Some pc then
    let rhs := foldl (subtract_known Ab i x) (of_rat (getitem Ab i n_vars))
                     (iota pc.+1 (n_vars - pc.+1)) in
    set_nth ezero x pc (simplify (escale (getitem Ab i pc)^-1%R rhs))
  else x.

(** The columns that are no pivot column, from the left. *)
Definition free_columns (Ab : Matrix) (n_vars : nat) : seq nat :=
  [seq j <- iota 0 n_vars | ~~ pivot_column Ab n_vars j].

(** The solution before the loop: a zero in every pivot column and its
    parameter symbol in every free column. *)
Definition initial_solution (Ab : Matrix) (n_vars : nat) : seq expr :=
  let free_cols := free_columns Ab n_vars in
  bind_free (symbols (size free_cols)) free_cols (nseq n_vars ezero).

(** The three ways a call of [back_substitution] ends. *)
Variant back_substitution_spec (Ab : Matrix) (n_vars : nat) : outcome -> Type :=
| WrongColumns of cols Ab != n_vars + 1
  : back_substitution_spec Ab n_vars (Raised (InputError wrong_columns))
| Inconsistent of cols Ab = n_vars + 1
    & has (inconsistent_row Ab n_vars) (iota 0 (rows Ab))
  : back_substitution_spec Ab n_vars (Raised (InputError inconsistent))
| Solved of cols Ab = n_vars + 1
    & ~~ has (inconsistent_row Ab n_vars) (iota 0 (rows Ab))
  : back_substitution_spec Ab n_vars
      (Returned (foldl (back_row Ab n_vars) (initial_solution Ab n_vars)
                       (rev (iota 0 (rows Ab))))
                (free_columns Ab n_vars)).

(** ** The general solution *)

(** The values of the parameters that a vector [y] of values of the
    unknowns fixes: [tk] is the entry of [y] at the [k]-th free column. *)
Definition parameters_of (free_cols : seq nat) (y : seq rat) (k : nat) : rat :=
  nth 0%R y (nth 0 free_cols k).

(** The solution [x] at the values [rho] of the parameters. *)
Definition solution_at (rho : nat -> rat) (x : seq expr) : seq rat :=
  [seq eval rho e | e <- x].

(** ** The text the two tools read

    A Python string is a sequence of code points.  The model covers the
    code points below 256 (Latin-1), which are the characters of Stdlib's
    [ascii]; on them the methods of [str] that the tools call are the
    functions below. *)
HB.instance Definition _ := hasDecEq.Build Ascii.ascii Ascii.eqb_spec.

Definition str := seq Ascii.ascii.

Bind Scope string_scope with String.string.

Definition code (c : Ascii.ascii) : nat := Ascii.nat_of_ascii c.

(** A string literal as a [str], and a [str] inside a message. *)
Definition text (s : String.string) : str := String.list_ascii_of_string s.
Definition literal (s : str) : String.string := String.string_of_list_ascii s.

Definition comma : Ascii.ascii := Ascii.ascii_of_nat 44.
Definition space : Ascii.ascii := Ascii.ascii_of_nat 32.
Definition newline : Ascii.ascii := Ascii.ascii_of_nat 10.

(** [c.isspace()]: the controls 9 to 13 and 28 to 31, the space, the next
    line control 133 and the no-break space 160. *)
Definition isspace (c : Ascii.ascii) : bool :=
  let n := code c in
  [|| 9 <= n <= 13, 28 <= n <= 32, n == 133 | n == 160].

(** The decimal digits, which are the digits [int] reads; [c.isdigit()]
    also holds of the superscripts two, three and one (178, 179, 185). *)
Definition isdecimal (c : Ascii.ascii) : bool := 48 <= code c <= 57.

Definition isdigit_char (c : Ascii.ascii) : bool :=
  isdecimal c || (code c \in [:: 178; 179; 185]).

(** [s.isdigit()]: there is a character and every character is a digit. *)
Definition isdigit (s : str) : bool := (s != [::]) && all isdigit_char s.

(** [c.lower()]: the letters [A] to [Z] and the capital letters of Latin-1
    (192 to 222 without the multiplication sign 215) move up by 32. *)
Definition lower_char (c : Ascii.ascii) : Ascii.ascii :=
  let n := code c in
  if (65 <= n <= 90) || ((192 <= n <= 222) && (n != 215))
  then Ascii.ascii_of_nat (n + 32) else c.

Definition lower (s : str) : str := map lower_char s.

(** [s.strip()]: [s] without the whitespace at its two ends. *)
Fixpoint lstrip (s : str) : str :=
  if s is c :: s' then if isspace c then lstrip s' else s else [::].

Definition strip (s : str) : str := rev (lstrip (rev (lstrip s))).

(** [s.replace(old, new)] for two strings of one character. *)
Definition replace (old new : Ascii.ascii) (s : str) : str :=
  [seq if c == old then new else c | c <- s].

(** [s.split()]: the maximal runs of characters that are no whitespace;
    [tok] is the run that is being read. *)
Fixpoint split_from (tok s : str) : seq str :=
  if s is c :: s' then
    if isspace c then
      if nilp tok then split_from [::] s' else tok :: split_from [::] s'
    else split_from (rcons tok c) s'
  else if nilp tok then [::] else [:: tok].

Definition split (s : str) : seq str := split_from [::] s.

(** [str(n)] for a natural number [n], and an f-string as the list of its
    pieces. *)
Definition str_of_nat (n : nat) : String.string :=
  DecimalString.NilEmpty.string_of_uint (Nat.to_uint n).

Definition fstring (pieces : seq String.string) : String.string :=
  foldr String.append String.EmptyString pieces.

(** What a call ends in: a value, or an exception of the type [E]. *)
Inductive result (E T : Type) := Ok (v : T) | Err (e : E).
Arguments Ok {E T} v.
Arguments Err {E T} e.

(** ** [parse_number] and [parse_row] (both files) *)

Definition empty_number : String.string := "Empty number.".

Definition could_not_parse (token : str) : String.string :=
  fstring [:: "Could not parse '"; literal token;
              "'. Use e.g. 3, -2, 1/4, 0.5"]%string.

Definition expected (n k : nat) : String.string :=
  fstring [:: "Expected "; str_of_nat n; " numbers, got "; str_of_nat k; "."]%string.

(** The first two statements of [parse_row]: the commas of the stripped
    row become blanks, and the row is split at its whitespace. *)
Definition parts (row_text : str) : seq str :=
  let s := replace comma space (strip row_text) in
  [seq p <- split s | strip p != [::]].

Section Parsing.

(** [sp.Rational(token)], with [None] where it raises an exception. *)
Variable Rational : str -> option rat.

Definition parse_number (token : str) : result exn rat :=
  let token := strip token in
  if token == [::] then Err (InputError empty_number)
  else if Rational token is Some q then Ok q
  else Err (InputError (could_not_parse token)).

(** [[parse_number(p) for p in parts]]: the first exception ends the
    comprehension. *)
Fixpoint parse_numbers (parts : seq str) : result exn (seq rat) :=
  if parts is p :: parts' then
    match parse_number p with
    | Ok q =>
        match parse_numbers parts' with
        | Ok qs => Ok (q :: qs)
        | Err e => Err e
        end
    | Err e => Err e
    end
  else Ok [::].

Definition parse_row (row_text : str) (n : nat) : result exn (seq rat) :=
  let parts := parts row_text in
  if size parts != n then Err (InputError (expected n (size parts)))
  else parse_numbers parts.

End Parsing.

(** ** The terminal *)

(** The exceptions that leave the routines that read: an [InputError], the
    [KeyboardInterrupt] that [read_int] raises, the [EOFError] of [input]
    and the [ValueError] of [int]. *)
Inductive exception :=
| Input (e : exn)
| KeyboardInterrupt
| EOFError
| ValueError.

(** What has been written to the terminal: the prompt of an [input]; the
    [print] of a text; the [print] of an [InputError] after the mark of a
    refused row, and after the mark of a warning; the [sp.pprint] of a
    matrix; the [print] of an entry [x{i} = {expr}] of a solution; the
    [print] of a text and a list of columns; and the [print] of the [repr]
    of an exception after the text for an unexpected error. *)
Inductive output :=
| Prompted (prompt : String.string)
| Printed (line : String.string)
| PrintedError (e : exn)
| PrintedWarning (e : exn)
| Pretty (M : Matrix)
| PrintedEntry (i : nat) (e : expr)
| PrintedColumns (line : String.string) (columns : seq nat)
| PrintedUnexpected (e : exception).

(** The lines still to be read and what has been written. *)
Record console := Console { stdin : seq str; stdout : seq output }.

(** A routine that reads and writes: from the terminal before the call to
    what the call ends in and the terminal after it. *)
Definition io (T : Type) : Type := console -> result exception T * console.

Definition ret (T : Type) (v : T) : io T := fun c => (Ok v, c).

Definition raise (T : Type) (e : exception) : io T := fun c => (Err e, c).
Arguments raise {T} e.

Definition bind (T U : Type) (a : io T) (f : T -> io U) : io U :=
  fun c => match a c with
           | (Ok v, c') => f v c'
           | (Err e, c') => (Err e, c')
           end.

Notation "'let!' x ':=' a 'in' b" := (bind a (fun x => b))
  (at level 10, x name, a at level 100, b at level 200).

Notation "'do!' a 'in' b" := (bind a (fun _ => b))
  (at level 10, a at level 100, b at level 200).

Definition write (o : output) : io unit :=
  fun c => (Ok tt, Console (stdin c) (rcons (stdout c) o)).

(** [print(line)], the [print] of an error after its mark, and
    [sp.pprint(M)]. *)
Definition print (line : String.string) : io unit := write (Printed line).
Definition print_error (e : exn) : io unit := write (PrintedError e).
Definition pprint (M : Matrix) : io unit := write (Pretty M).

(** [input(prompt)]: the prompt is written, then a line is read; at the
    end of the input, [EOFError] is raised. *)
Definition input (prompt : String.string) : io str :=
  fun c =>
    let out := rcons (stdout c) (Prompted prompt) in
    if stdin c is line :: lines then (Ok line, Console lines out)
    else (Err EOFError, Console [::] out).

(** ** [read_int] (both files) *)

Definition quit_words : seq str := [:: text "q"; text "quit"; text "exit"].

Definition positive_integer : String.string := "Please enter a positive integer.".

Definition number_between (min_value max_value : nat) : String.string :=
  fstring [:: "Please enter a number between "; str_of_nat min_value; " and ";
              str_of_nat max_value; "."]%string.

Section ReadInt.

(** [sys.get_int_max_str_digits()]: the most digits [int] converts, 4300
    unless it has been set; 0 stands for no limit, which is also how the
    versions of Python that have no limit behave. *)
Variable int_max_str_digits : nat.

(** [int(s)] for a string [s] of digits, with [None] where it raises
    [ValueError]: on a superscript and beyond the limit. *)
Definition int_of_str (s : str) : option nat :=
  if [&& s != [::], all isdecimal s
       & ~~ ((0 < int_max_str_digits) && (int_max_str_digits < size s))]
  then Some (foldl (fun v c => 10 * v + (code c - 48)) 0 s)
  else None.

(** The loop [while True] of [read_int] on the lines still to be read;
    each turn reads one line.  The bounds are natural numbers, as they
    are at every call. *)
Fixpoint read_int_loop (prompt : String.string) (min_value max_value : nat)
    (lines : seq str) (out : seq output) : result exception nat * console :=
  let out := rcons out (Prompted prompt) in
  if lines is line :: lines' then
    let s := strip line in
    if lower s \in quit_words then (Err KeyboardInterrupt, Console lines' out)
    else if ~~ isdigit s then
      read_int_loop prompt min_value max_value lines'
        (rcons out (Printed positive_integer))
    else if int_of_str s is Some val then
      if (val < min_value) || (max_value < val) then
        read_int_loop prompt min_value max_value lines'
          (rcons out (Printed (number_between min_value max_value)))
      else (Ok val, Console lines' out)
    else (Err ValueError, Console lines' out)
  else (Err EOFError, Console [::] out).

Definition read_int (prompt : String.string) (min_value max_value : nat) : io nat :=
  fun c => read_int_loop prompt min_value max_value (stdin c) (stdout c).

End ReadInt.

(** ** The loop of [main] (both files) *)

Definition again_words : seq str :=
  [:: text "q"; text "quit"; text "no"; text "n"].

(** The question at the end of a turn: the value tells whether [main]
    returns. *)
Definition run_again : io bool :=
  let! again := input (String.String newline "Run again? (Enter=yes, q=no): ") in
  if lower (strip again) \in again_words then do! print "Bye!" in ret true
  else ret false.

(** The loop [while True: try: ... except ...] of [main].  [turn] is the
    [try] block, whose value tells whether [main] returns.  A
    [KeyboardInterrupt] ends [main]; any other exception is reported with
    [report], and after the line the user is asked for the loop goes on;
    an exception of that [input] leaves [main].  [None] stands for a loop
    that has not ended within [fuel] turns. *)
Fixpoint main_loop (turn : io bool) (report : exception -> output) (fuel : nat)
    (c : console) : option (result exception unit * console) :=
  if fuel is fuel'.+1 then
    match turn c with
    | (Ok true, c') => Some (Ok tt, c')
    | (Ok false, c') => main_loop turn report fuel' c'
    | (Err KeyboardInterrupt, c') => Some (print (String.String newline "Bye!") c')
    | (Err e, c') =>
        match (do! write (report e) in input "Press Enter to continue...") c' with
        | (Ok _, c'') => main_loop turn report fuel' c''
        | (Err e', c'') => Some (Err e', c'')
        end
    end
  else None.

(** ** [read_matrix] ([REF.py]), [read_augmented_matrix]
    ([Back subtracktion.py]) and the two [main] *)

Section Reading.

Variable Rational : str -> option rat.
Variable int_max_str_digits : nat.

(** The loop [while True] that reads one row: a line that [parse_row]
    refuses is answered with the error and an example, and the row is
    asked for again. *)
Fixpoint read_row_loop (prompt example : String.string) (n : nat)
    (lines : seq str) (out : seq output) : result exception (seq rat) * console :=
  let out := rcons out (Prompted prompt) in
  if lines is row_text :: lines' then
    match parse_row Rational row_text n with
    | Ok row => (Ok row, Console lines' out)
    | Err e =>
        read_row_loop prompt example n lines'
          (rcons (rcons out (PrintedError e)) (Printed example))
    end
  else (Err EOFError, Console [::] out).

Definition read_row (prompt example : String.string) (n : nat) : io (seq rat) :=
  fun c => read_row_loop prompt example n (stdin c) (stdout c).

(** [for i in range(m)]: one row after the other is appended to [rows]. *)
Definition read_rows (prompt : nat -> String.string) (example : String.string)
    (n m : nat) : io (seq (seq rat)) :=
  foldl (fun (loop : io (seq (seq rat))) i =>
           let! rows := loop in
           let! row := read_row (prompt i) example n in
           ret (rcons rows row))
        (ret [::]) (iota 0 m).

Definition read_matrix : io Matrix :=
  do! print (String.String newline "Enter matrix size (type 'q' to quit).") in
  let! m := read_int int_max_str_digits "Number of rows m: " 1 30 in
  let! n := read_int int_max_str_digits "Number of columns n: " 1 30 in
  do! print (String.String newline "Enter the matrix row by row.") in
  do! print "You can separate numbers with spaces or commas." in
  do! print "Fractions are allowed (e.g. 1/3)." in
  let! rows :=
    read_rows (fun i => fstring [:: "Row "; str_of_nat (i + 1); " (n=";
                                    str_of_nat n; "): "]%string)
              "Example row: 1, 2, -3, 4/5" n m in
  ret (Matrix_of_rows rows).

Definition read_augmented_matrix (m n_vars : nat) : io Matrix :=
  let total_cols := n_vars + 1 in
  do! print (String.String newline
               "Enter the AUGMENTED matrix row by row (including the last b column).") in
  do! print (fstring [:: "Each row must have "; str_of_nat total_cols;
                         " numbers: a1 a2 ... a"; str_of_nat n_vars; " b"]%string) in
  do! print "You can separate numbers with spaces or commas. Fractions allowed (e.g. 1/3)." in
  let! rows :=
    read_rows (fun i => fstring [:: "Row "; str_of_nat (i + 1); " (";
                                    str_of_nat total_cols; " numbers): "]%string)
              "Example: 1, 2, -3, 7   (for 3 vars -> 4 numbers)" total_cols m in
  ret (Matrix_of_rows rows).

(** The statements of the [try] block of [main] up to the call of
    [back_substitution]; the value is what that call ends in. *)
Definition main_solve : io outcome :=
  let! n_vars := read_int int_max_str_digits "Number of variables (n): " 1 20 in
  let! m := read_int int_max_str_digits "Number of rows (m): " 1 30 in
  let! Ab := read_augmented_matrix m n_vars in
  do! print (String.String newline "You entered [A|b] =") in
  do! pprint Ab in
  ret (back_substitution Ab n_vars).

(** ** [main] (both files) *)

(** The [try] block of [main] in [REF.py]; the value tells whether [main]
    returns. *)
Definition main_try_REF : io bool :=
  let! A := read_matrix in
  do! print (String.String newline "You entered A =") in
  do! pprint A in
  let E := (ref A).1 in
  let pivots := (ref A).2 in
  do! print (String.String newline "REF(A) =") in
  do! pprint E in
  do! write (PrintedColumns (String.String newline "Pivot columns:") pivots) in
  run_again.

(** The statements of [main] in [Back subtracktion.py] that show the
    solution and ask whether to go on. *)
Definition show_solution (sol : seq expr) (free_cols : seq nat) : io bool :=
  do! print (String.String newline "Solution:") in
  do! foldl (fun (loop : io unit) ie => do! loop in write (PrintedEntry ie.1 ie.2))
            (ret tt) (zip (iota 1 (size sol)) sol) in
  do! (if free_cols is [::] then ret tt
       else
         do! write (PrintedColumns
                      (String.String newline "Free variables (0-indexed columns):")
                      free_cols) in
         print "They are shown as parameters t0, t1, ...") in
  let! stop := run_again in
  if stop then ret true else do! print "" in ret false.

(** The [try] block of [main] in [Back subtracktion.py].  A solution that
    a division by zero spoilt, which does not occur, is shown as a
    solution without entries. *)
Definition main_try_Back : io bool :=
  let! o := main_solve in
  match o with
  | Returned sol free_cols => show_solution sol free_cols
  | Raised e => raise (Input e)
  | DividedByZero => show_solution [::] [::]
  end.

Definition main_REF (fuel : nat) (c : console)
    : option (result exception unit * console) :=
  main_loop main_try_REF PrintedUnexpected fuel
    (print "=== REF Tool (Row Echelon Form) ===" c).2.

Definition main_Back (fuel : nat) (c : console)
    : option (result exception unit * console) :=
  let c1 := (print "=== Back Substitution Tool ===" c).2 in
  let c2 :=
    (print "Use this after you have an echelon/upper-triangular augmented matrix [A|b]."
           c1).2 in
  let c3 :=
    (print (String.append "Fractions allowed. Type 'q' to quit."
                          (String.String newline String.EmptyString)) c2).2 in
  main_loop main_try_Back
    (fun e => if e is Input e' then PrintedWarning e' else PrintedUnexpected e)
    fuel c3.

End Reading.

(** ** The vocabulary of the properties of the text *)

(** The characters that separate the numbers of a row. *)
Definition separator (c : Ascii.ascii) : bool := isspace c || (c == comma).

(** The maximal runs of characters that are no separator; [tok] is the
    run that is being read. *)
Fixpoint fields (sep : pred Ascii.ascii) (tok s : str) : seq str :=
  if s is c :: s' then
    if sep c then
      if nilp tok then fields sep [::] s' else tok :: fields sep [::] s'
    else fields sep (rcons tok c) s'
  else if nilp tok then [::] else [:: tok].

(** The row a line gives, when [parse_row] accepts the line. *)
Definition accepted_row (Rational : str -> option rat) (n : nat) (line : str)
    : option (seq rat) :=
  if parse_row Rational line n is Ok row then Some row else None.

(** The routine [a] reads at least one line when it returns, and never
    puts a line back; the routine [a] never puts a line back. *)
Definition advances (T : Type) (a : io T) : Prop :=
  forall c, match a c with
            | (Ok _, c') => size (stdin c') < size (stdin c)
            | (Err _, c') => size (stdin c') <= size (stdin c)
            end.

Definition keeps (T : Type) (a : io T) : Prop :=
  forall c, size (stdin (a c).2) <= size (stdin c).

(** The call ended in an [InputError] with the message [msg]. *)
Definition raises (T : Type) (r : result exn T) (msg : String.string) : bool :=
  if r is Err (InputError m) then String.eqb m msg else false.

(** ** Concrete inputs *)

(** A matrix whose reduction needs a swap and two eliminations. *)
Definition ex1 : Matrix :=
  Matrix_of_rows [:: [:: 0; 2; 4]; [:: 1; 1; 1]; [:: 2; 4; 7]]%Q.

(** The systems [2 x0 = 4, 3 x1 = 9] and [x0 + x1 = 2] (three unknowns)
    of the specification's testable properties 5 and 6. *)
Definition ex2 : Matrix := Matrix_of_rows [:: [:: 2; 0; 4]; [:: 0; 3; 9]]%Q.

Definition ex3 : Matrix := Matrix_of_rows [:: [:: 1; 1; 0; 2]]%Q.

(** A matrix in echelon form. *)
Definition ex_echelon : Matrix :=
  Matrix_of_rows [:: [:: 1; 2; 3]; [:: 0; 0; 4]; [:: 0; 0; 0]]%Q.

(** The one-row matrix [[0, 5, 5]] taken as a system in one unknown. *)
Definition ex_three_columns : Matrix := Matrix_of_rows [:: [:: 0; 5; 5]]%Q.

(** The system [0 = 1] in one unknown. *)
Definition ex_inconsistent : Matrix := Matrix_of_rows [:: [:: 0; 1]]%Q.

(** The system [x0 + x1 = 2, 3 x2 = 6], in echelon form. *)
Definition ex_system : Matrix :=
  Matrix_of_rows [:: [:: 1; 1; 0; 2]; [:: 0; 0; 3; 6]]%Q.

(** The system [x0 + x1 = 2, x0 + x1 + 3 x2 = 8], not in echelon form. *)
Definition ex_pipeline : Matrix :=
  Matrix_of_rows [:: [:: 1; 1; 0; 2]; [:: 1; 1; 3; 8]]%Q.

(** The system [x0 + x1 = 2, x0 + x1 = 3], which has no solution. *)
Definition ex_unsolvable : Matrix :=
  Matrix_of_rows [:: [:: 1; 1; 2]; [:: 1; 1; 3]]%Q.

(** A parser that knows the unsigned integers only, for the examples. *)
Definition unsigned_literal (token : str) : option rat :=
  if int_of_str 0 token is Some n then Some n%:R%R else None.

(** A terminal at which the user types a refused line and three numbers. *)
Definition ex_terminal : console :=
  Console [:: text "two"; text " 2 "; text "40"; text "7"] [::].

(** * Properties *)

(** ** The two routines on concrete inputs *)

Example ref_ex1 :
  ref ex1
  = (Matrix_of_rows [:: [:: 1; 1; 1]; [:: 0; 2; 4]; [:: 0; 0; 1]]%Q, [:: 0; 1; 2]).
Proof. by vm_compute. Qed.

(** More rows than columns and rank 2: the zero row ends at the bottom. *)
Example ref_ex_tall :
  ref (Matrix_of_rows [:: [:: 1; 2]; [:: 2; 4]; [:: 3; 7]]%Q)
  = (Matrix_of_rows [:: [:: 1; 2]; [:: 0; 1]; [:: 0; 0]]%Q, [:: 0; 1]).
Proof. by vm_compute. Qed.

(** A planted inconsistency, the row [0 0 0 | 5]. *)
Example back_substitution_ex_planted :
  back_substitution
    (Matrix_of_rows [:: [:: 1; 0; 0; 1]; [:: 0; 0; 0; 5]]%Q) 3
  = Raised (InputError inconsistent).
Proof. by vm_compute. Qed.

(** [x0 = 2, x1 = 3], no free column. *)
Example back_substitution_ex2 :
  back_substitution ex2 2 = Returned [:: of_rat 2%Q; of_rat 3%Q] [::].
Proof. by vm_compute. Qed.

(** [x0 = 2 - t0, x1 = t0, x2 = t1], free columns 1 and 2. *)
Example back_substitution_ex3 :
  back_substitution ex3 3
  = Returned [:: Affine 2%Q [:: (-1)%Q]; symbol 0; symbol 1] [:: 1; 2].
Proof. by vm_compute. Qed.

(** ** Reading after writing *)

Lemma getitem_setitem M i j v i' j' :
  getitem (setitem M i j v) i' j'
  = if (i' == i) && (j' == j) then v else getitem M i' j'.
Proof.
rewrite /getitem /setitem /= nth_set_nth /=.
case: (i' =P i) => [->|_] //=.
by rewrite nth_set_nth /=; case: (j' == j).
Qed.

Lemma swap_cols_dims i j ks M :
  let M' := foldl (fun M' k =>
                     let a := getitem M' j k in
                     let b := getitem M' i k in
                     setitem (setitem M' i k a) j k b) M ks in
  rows M' = rows M /\ cols M' = cols M.
Proof.
elim: ks M => [|k ks IH] M //=.
by case: (IH (setitem (setitem M i k (getitem M j k)) j k (getitem M i k))).
Qed.

Lemma getitem_swap_cols i j ks M r c :
  uniq ks ->
  getitem (foldl (fun M' k =>
                    let a := getitem M' j k in
                    let b := getitem M' i k in
                    setitem (setitem M' i k a) j k b) M ks) r c
  = if c \in ks then getitem M (swapped i j r) c else getitem M r c.
Proof.
elim: ks M => [|k ks IH] M //= /andP[kks uks].
rewrite IH // !getitem_setitem in_cons /swapped.
case: (c =P k) => [->|/eqP ck] /=.
  by rewrite (negbTE kks) !andbT; case: (r == j) => //; case: (r == i).
by rewrite !andbF.
Qed.

Lemma rows_row_swap M i j : rows (row_swap M i j) = rows M.
Proof. by case: (swap_cols_dims i j (iota 0 (cols M)) M). Qed.

Lemma cols_row_swap M i j : cols (row_swap M i j) = cols M.
Proof. by case: (swap_cols_dims i j (iota 0 (cols M)) M). Qed.

Lemma getitem_row_swap M i j r c :
  c < cols M -> getitem (row_swap M i j) r c = getitem M (swapped i j r) c.
Proof.
by move=> cn; rewrite /row_swap getitem_swap_cols ?iota_uniq // mem_iota add0n cn.
Qed.

Section RowOp.

Variables (i p : nat) (factor : rat) (f : Matrix -> rat -> nat -> rat).
Hypothesis f_reads_p :
  forall M' v j, f M' v j = (v - factor * getitem M' p j)%R.
Hypothesis ip : i != p.

Let step := fun M' j => setitem M' i j (f M' (getitem M' i j) j).

Lemma row_op_cols_dims ks M :
  rows (foldl step M ks) = rows M /\ cols (foldl step M ks) = cols M.
Proof. by elim: ks M => [|k ks IH] M //=; case: (IH (step M k)). Qed.

Lemma getitem_row_op_cols ks M r c :
  uniq ks ->
  getitem (foldl step M ks) r c
  = if (r == i) && (c \in ks)
    then (getitem M i c - factor * getitem M p c)%R else getitem M r c.
Proof.
elim: ks M => [|k ks IH] M /=; first by rewrite andbF.
case/andP=> kks uks; rewrite IH // /step !getitem_setitem f_reads_p in_cons.
rewrite eqxx /= [p == i]eq_sym (negbTE ip) /=.
case: (r =P i) => [->|_] //=.
case: (c =P k) => [->|_] /=; first by rewrite (negbTE kks).
by [].
Qed.

End RowOp.

Lemma dims_row_op M i f :
  rows (row_op M i f) = rows M /\ cols (row_op M i f) = cols M.
Proof. exact: (row_op_cols_dims i f). Qed.

Lemma rows_eliminate_row col p pv M r : rows (eliminate_row col p pv M r) = rows M.
Proof. by rewrite /eliminate_row; case: ifP => // _; exact: (dims_row_op _ _ _).1. Qed.

Lemma cols_eliminate_row col p pv M r : cols (eliminate_row col p pv M r) = cols M.
Proof. by rewrite /eliminate_row; case: ifP => // _; exact: (dims_row_op _ _ _).2. Qed.

Lemma getitem_eliminate_row col p pv M r r' c :
  r != p -> c < cols M ->
  getitem (eliminate_row col p pv M r) r' c
  = if r' == r
    then (getitem M r c - getitem M r col / pv * getitem M p c)%R
    else getitem M r' c.
Proof.
move=> rp cn; rewrite /eliminate_row; case: ifP => [/eqP z|_].
  by rewrite z mul0r mul0r subr0; case: eqP => // ->.
rewrite /row_op /simplifyQ.
rewrite (@getitem_row_op_cols r p (getitem M r col / pv)%R
           (fun M' v j => (v - getitem M r col / pv * getitem M' p j)%R)) //.
  exact: iota_uniq.
by rewrite mem_iota add0n leq0n cn !andbT.
Qed.

Lemma rows_eliminate_rows col p pv rs M :
  rows (foldl (eliminate_row col p pv) M rs) = rows M.
Proof. by elim: rs M => [|r rs IH] M //=; rewrite IH rows_eliminate_row. Qed.

Lemma cols_eliminate_rows col p pv rs M :
  cols (foldl (eliminate_row col p pv) M rs) = cols M.
Proof. by elim: rs M => [|r rs IH] M //=; rewrite IH cols_eliminate_row. Qed.

Lemma getitem_eliminate_rows col p pv rs M r' c :
  uniq rs -> p \notin rs -> col < cols M -> c < cols M ->
  getitem (foldl (eliminate_row col p pv) M rs) r' c
  = if r' \in rs
    then (getitem M r' c - getitem M r' col / pv * getitem M p c)%R
    else getitem M r' c.
Proof.
elim: rs M => [|r rs IH] M //= /andP[rrs urs]; rewrite in_cons negb_or.
case/andP=> pr prs coln cn.
have rp : r != p by rewrite eq_sym.
rewrite IH ?cols_eliminate_row // !getitem_eliminate_row // in_cons.
rewrite (negbTE pr).
case: (r' =P r) => [->|_] /=; first by rewrite (negbTE rrs).
by [].
Qed.

(** ** The first-match search *)

Lemma first_indexP p s len : first_index_spec p s len (first_index p s len).
Proof.
elim: len s => [|len IH] s /=.
  by constructor=> k'; rewrite addn0; case: ltngtP.
case ps: (p s).
  constructor=> //; first by rewrite leqnn /= -addSnnS ltn_addr.
  by move=> k'; case: ltngtP.
case: (IH s.+1) => [k kb pk first_k|none]; constructor=> //.
- by nlia.
- move=> k' k'b; case: (k' =P s) => [->|ne]; first by rewrite ps.
  by apply: first_k; nlia.
- move=> k' k'b; case: (k' =P s) => [->|ne]; first by rewrite ps.
  by apply: none; nlia.
Qed.

(** ** One turn of the loop of [ref], entry by entry *)

Lemma swappedK i j r : swapped i j (swapped i j r) = r.
Proof.
rewrite /swapped; case: (r =P j) => [->|/eqP rj].
  by rewrite eqxx; case: (i =P j).
case: (r =P i) => [->|/eqP ri]; first by rewrite eqxx.
by rewrite (negbTE rj) (negbTE ri).
Qed.

Lemma swapped_bounds i j r lo hi :
  lo <= i < hi -> lo <= j < hi -> (lo <= swapped i j r < hi) = (lo <= r < hi).
Proof.
move=> ib jb; rewrite /swapped; case: (r =P j) => [->|_]; first by rewrite ib jb.
by case: (r =P i) => [->|_] //; rewrite ib jb.
Qed.

Lemma ref_stepP m M p piv col :
  col < cols M -> ref_step_spec m M p piv col (ref_step m (M, p, piv) col).
Proof.
move=> coln; rewrite /ref_step; case: leqP => [mp|pm]; first exact: RefStepBreak.
rewrite /find_pivot; case: first_indexP => [pivot pb nz first_nz|none]; last first.
  apply: RefStepNoPivot => // r rb; apply/eqP; rewrite -[_ == _]negbK.
  by apply: none; nlia.
set M1 := if _ then _ else M.
have dims1 : rows M1 = rows M /\ cols M1 = cols M.
  by rewrite /M1; case: ifP => // _; rewrite rows_row_swap cols_row_swap.
have ent1 r c : c < cols M -> getitem M1 r c = getitem M (swapped pivot p r) c.
  rewrite /M1; case: (pivot =P p) => [->|_] cn /=; last exact: getitem_row_swap.
  by rewrite /swapped; case: (r =P p) => // ->.
apply: (@RefStepPivot m M p piv col pivot M1) => //.
- by nlia.
- by move=> r rb; apply/eqP; rewrite -[_ == _]negbK; apply: first_nz.
- by rewrite rows_eliminate_rows cols_eliminate_rows.
- move=> r c cn; case: dims1 => _ c1.
  rewrite getitem_eliminate_rows ?iota_uniq ?mem_iota ?c1 ?ltnn //.
  by rewrite subnKC.
Qed.

(** ** The invariant of the loop of [ref] *)

Lemma ref_inv_step m n col st :
  col < n -> ref_inv m n col st -> ref_inv m n col.+1 (ref_step m st col).
Proof.
case: st => [[M p] piv] coln [[rM cM] [sz pm] [srt bnd] piv_rows low_rows].
rewrite /= in rM cM sz pm srt bnd piv_rows low_rows.
have colM : col < cols M by rewrite cM.
have bnd' : all (fun c => c < col.+1) piv.
  by apply: sub_all bnd => c; apply: ltnW.
case: (@ref_stepP m M p piv col colM)
  => [mp|pltm none|pivot M1 M2 pb nz _ [r1 c1] ent1 [r2 c2] ent2].
- by split=> //= r c rb; nlia.
- split=> //= r c rb; rewrite ltnS leq_eqVlt => /orP[/eqP->|]; first exact: none.
  exact: low_rows.
have {}pb : p <= pivot < m by nlia.
have pp : p <= p < m by nlia.
have piv_lt k : k < p -> nth 0 piv k < col.
  by move=> kp; apply: (all_nthP 0 bnd); rewrite sz.
have e1p c : c < n -> getitem M1 p c = getitem M pivot c.
  by move=> cn; rewrite ent1 ?cM // /swapped eqxx.
have e1low r c : p <= r < m -> c < col -> getitem M1 r c = 0%R.
  move=> rb cc; have cn : c < n by nlia.
  rewrite ent1 ?cM //.
  by apply: low_rows => //; rewrite swapped_bounds.
split=> /=.
- by rewrite r2 c2.
- by rewrite size_rcons sz; split=> //; nlia.
- rewrite (sorted_pairwise ltn_trans) pairwise_rcons -(sorted_pairwise ltn_trans).
  by rewrite srt bnd all_rcons ltnSn bnd'.
- move=> k; rewrite ltnS leq_eqVlt => /orP[/eqP->|kp].
    rewrite nth_rcons sz ltnn eqxx; split.
      by rewrite ent2 ?cM // ltnn /= e1p.
    move=> c cc; have cn : c < n by nlia.
    rewrite ent2 ?cM ?ltnn //=.
    by apply: e1low => //; rewrite leqnn.
  rewrite nth_rcons sz kp.
  have sw : swapped pivot p k = k.
    by rewrite /swapped; case: eqP => [|_]; [nlia|case: eqP => //; nlia].
  have nk : (p < k < m) = false by rewrite ltnNge (ltnW kp).
  have pkn : nth 0 piv k < n by move: (piv_lt k kp); nlia.
  case: (piv_rows k kp) => nzk zk.
  split; first by rewrite ent2 ?nk ?ent1 ?sw ?cM.
  move=> c cc; have cn : c < n by nlia.
  by rewrite ent2 ?nk ?ent1 ?sw ?cM //; apply: zk.
- move=> r c rb; rewrite ltnS => cc.
  have rb' : p < r < m by [].
  have rb'' : p <= r < m by nlia.
  have cn : c < n by nlia.
  rewrite ent2 ?cM ?rb' //.
  have pv : getitem M1 p col != 0%R by rewrite e1p.
  move: cc; rewrite leq_eqVlt => /orP[/eqP->|cc]; first by field.
  by rewrite (e1low r c) // (e1low p c) // mulr0 subr0.
Qed.

Lemma first_index_some (p : nat -> bool) s len c :
  s <= c < s + len -> p c -> (forall c', s <= c' < c -> ~~ p c') ->
  first_index p s len = Some c.
Proof.
move=> cb pc before; case: first_indexP => [k kb pk first_k|none].
- case: (ltngtP k c) => [kc|ck|-> //].
  + by have := before k; rewrite pk => /(_ _)/negP []//; nlia.
  + by have := first_k c; rewrite pc => /(_ _)/negP []//; nlia.
- by have := none c cb; rewrite pc.
Qed.

Lemma first_index_none (p : nat -> bool) s len :
  (forall c, s <= c < s + len -> ~~ p c) -> first_index p s len = None.
Proof.
by move=> none; case: first_indexP => // k kb pk _; have := none k kb; rewrite pk.
Qed.

Lemma iotaSr k : iota 0 k.+1 = rcons (iota 0 k) k.
Proof. by rewrite -addn1 iotaD /= add0n cats1. Qed.

Lemma nth_leads M i : i < rows M -> nth None (leads M) i = lead M i.
Proof.
by move=> im; rewrite /leads (nth_map 0) ?size_iota // nth_iota.
Qed.

Lemma size_leads M : size (leads M) = rows M.
Proof. by rewrite /leads size_map size_iota. Qed.

Lemma sorted_ltn_bounded (s : seq nat) n :
  sorted ltn s -> all (fun c => c < n) s -> size s <= n.
Proof.
move=> srt bnd; rewrite -(size_iota 0 n); apply: uniq_leq_size.
  exact: sorted_uniq ltn_trans ltnn _ srt.
by move=> c /(allP bnd); rewrite mem_iota add0n.
Qed.

Lemma ref_loop_prefix_inv M k :
  k <= cols M ->
  ref_inv (rows M) (cols M) k
    (foldl (ref_step (rows M)) (M, 0, [::]) (iota 0 k)).
Proof.
elim: k => [|k IH] kn; first by split.
rewrite iotaSr foldl_rcons.
by apply: ref_inv_step => //; apply: IH; apply: ltnW.
Qed.

Lemma ref_loop_inv M : ref_inv (rows M) (cols M) (cols M) (ref_loop M).
Proof. exact: ref_loop_prefix_inv. Qed.

Lemma refE A : ref A = ((ref_loop A).1.1, (ref_loop A).2).
Proof. by rewrite /ref /copy; case: (ref_loop A) => [[M p] piv]. Qed.

(** The leading entries of the matrix a state that satisfies the
    invariant at the last column holds. *)
Lemma ref_inv_lead m n M p piv i :
  ref_inv m n n (M, p, piv) -> i < m ->
  lead M i = if i < p then Some (nth 0 piv i) else None.
Proof.
case=> /= [[rM cM] [sz pm] [srt bnd] piv_rows low_rows] im.
rewrite /lead cM; case: (ltnP i p) => ip.
  case: (piv_rows i ip) => nz z; apply: first_index_some => //.
    by rewrite add0n; apply: (all_nthP 0 bnd); rewrite sz.
  by move=> c' /= c'b; rewrite negbK z.
apply: first_index_none => c; rewrite add0n /= negbK => cn.
by apply/eqP; apply: low_rows => //; rewrite ip.
Qed.

Lemma ref_inv_echelon m n M p piv :
  ref_inv m n n (M, p, piv) -> is_echelon M.
Proof.
move=> inv; have lead_of := ref_inv_lead inv.
case: inv => /= [[rM cM] [sz pm] [srt bnd] _ _].
rewrite /is_echelon; apply/(sortedP None) => i.
rewrite size_leads rM => im.
have im' : i < m by exact: ltnW.
rewrite !nth_leads ?rM ?lead_of //.
case: (ltnP i.+1 p) => // ip; rewrite (ltnW ip) /=.
by apply: (sortedP 0 srt); rewrite sz.
Qed.

(** ** C3: the matrix [ref] returns is in row echelon form *)

(** C3.  For every matrix [A], [ref(A)] returns a matrix [E] of the
    dimensions of [A] and pivot columns such that: the [k]-th pivot column
    holds the leading entry of row [k], and the rows after the last pivot
    row are zero; every entry strictly below a pivot in its pivot column
    is exactly zero; the pivot columns are strictly increasing; there are
    at most [min(m, n)] of them; and [E] is in row echelon form. *)
Theorem ref_row_echelon_form (A : Matrix) :
  let E := (ref A).1 in
  let pivot_cols := (ref A).2 in
  [/\ rows E = rows A /\ cols E = cols A,
      forall i, i < rows A ->
        lead E i = if i < size pivot_cols then Some (nth 0 pivot_cols i) else None,
      forall k r, k < size pivot_cols -> k < r < rows A ->
        getitem E r (nth 0 pivot_cols k) = 0%R,
      sorted ltn pivot_cols /\ size pivot_cols <= minn (rows A) (cols A)
    & is_echelon E].
Proof.
rewrite refE /=; have := ref_loop_inv A.
case: (ref_loop A) => [[E p] piv] /= inv.
have lead_of := ref_inv_lead inv; have ech := ref_inv_echelon inv.
case: inv => /= [[rE cE] [sz pm] [srt bnd] piv_rows low_rows].
split=> //.
- by move=> i im; rewrite lead_of // sz.
- rewrite sz => k r kp /andP[kr rm].
  have ck : nth 0 piv k < cols A by apply: (all_nthP 0 bnd); rewrite sz.
  case: (ltnP r p) => rp; last by apply: low_rows => //; rewrite rp.
  case: (piv_rows r rp) => _; apply.
  by apply: (sorted_ltn_nth ltn_trans 0 srt); rewrite ?inE ?sz.
- split=> //; rewrite leq_min sz pm /= -sz.
  exact: sorted_ltn_bounded.
Qed.

(** ** Leading entries and echelon matrices *)

Lemma leadP M i : lead_spec M i (lead M i).
Proof.
rewrite /lead; case: first_indexP => [c cb nz z|z]; constructor=> //.
- by move=> c' c'c; apply/eqP; rewrite -[_ == _]negbK; apply: z.
- by move=> c' c'n; apply/eqP; rewrite -[_ == _]negbK; apply: z.
Qed.

Lemma right_of_trans : transitive right_of.
Proof.
by move=> [b|] [a|] [c|] //=; exact: ltn_trans.
Qed.

Lemma echelon_right_of M i j :
  is_echelon M -> i < j < rows M -> right_of (lead M i) (lead M j).
Proof.
move=> ech /andP[ij jm]; have im : i < rows M by exact: ltn_trans jm.
rewrite -!(nth_leads) //.
by apply: (sorted_ltn_nth right_of_trans None ech); rewrite ?inE ?size_leads.
Qed.

Lemma lead_ge_zero M i k c :
  lead_ge M i k -> c < k -> c < cols M -> getitem M i c = 0%R.
Proof.
rewrite /lead_ge; case: leadP => [c0 _ _ z kc ck _|z _ _ cn]; last exact: z.
by apply: z; exact: leq_trans kc.
Qed.

Lemma lead_ge_cases M i k :
  lead_ge M i k -> (lead M i = Some k) + lead_ge M i k.+1.
Proof.
rewrite /lead_ge; case: (lead M i) => [c|]; last by right.
by rewrite leq_eqVlt; case: eqP => [->|_] /=; [left|right].
Qed.

Lemma echelon_lead_ge M i j k :
  is_echelon M -> i <= j < rows M -> lead_ge M i k -> lead_ge M j k.
Proof.
move=> ech /andP[]; rewrite leq_eqVlt => /orP[/eqP->|ij] jm //.
have := echelon_right_of ech (introT andP (conj ij jm)).
rewrite /lead_ge /right_of; case: (lead M j) => // cj; case: (lead M i) => // ci.
by move=> cc kc; apply: leq_trans kc (ltnW cc).
Qed.

Lemma echelon_below_lead M i j k :
  is_echelon M -> i < j < rows M -> lead M i = Some k -> lead_ge M j k.+1.
Proof.
move=> ech ij li; have := echelon_right_of ech ij.
by rewrite /lead_ge /right_of li; case: (lead M j).
Qed.

Lemma eliminate_rows_id col p pv M rs :
  (forall r, r \in rs -> getitem M r col = 0%R) ->
  foldl (eliminate_row col p pv) M rs = M.
Proof.
elim: rs => [|r rs IH] //= z.
have -> : eliminate_row col p pv M r = M.
  by rewrite /eliminate_row z ?mem_head // eqxx.
by apply: IH => r' r'rs; apply: z; rewrite in_cons r'rs orbT.
Qed.

Lemma pmap_id_some (T : Type) (s : seq T) : pmap id (map Some s) = s.
Proof. by elim: s => [|x s IH] //=; rewrite IH. Qed.

Lemma pmap_id_none (T : Type) k : pmap id (nseq k (@None T)) = [::].
Proof. by elim: k. Qed.

(** ** C6: [ref] on a matrix already in echelon form *)

Lemma ech_inv_step A k st :
  is_echelon A -> k < cols A ->
  ech_inv A k st -> ech_inv A k.+1 (ref_step (rows A) st k).
Proof.
case: st => [[M p] piv] ech kn [/= -> [sz pm] found at_cursor].
rewrite /ref_step; case: leqP => [mp|{}pm]; first by split=> //= pm'; nlia.
case: (lead_ge_cases (at_cursor pm)) => [lk|lg].
- have nz : getitem A p k != 0%R.
    by case: (leadP A p) lk => // c _ nz _ [<-].
  have below r : p < r < rows A -> getitem A r k = 0%R.
    move=> rb; apply: (@lead_ge_zero A r k.+1) => //.
    exact: echelon_below_lead lk.
  have -> : find_pivot A k p (rows A) = Some p.
    apply: first_index_some => //; first by nlia.
    by move=> k'; case: ltngtP.
  have -> : foldl (eliminate_row k p (getitem (if p != p then row_swap A p p else A) p k))
              (if p != p then row_swap A p p else A) (iota p.+1 (rows A - p.+1)) = A.
    rewrite eqxx /=; apply: eliminate_rows_id => r; rewrite mem_iota => rb.
    by apply: below; nlia.
  split=> //=.
  + by rewrite size_rcons sz.
  + move=> i; rewrite ltnS leq_eqVlt nth_rcons sz => /orP[/eqP->|ip].
      by rewrite ltnn eqxx.
    by rewrite ip; apply: found.
  + by move=> pm'; apply: echelon_below_lead lk => //; rewrite ltnSn.
- have -> : find_pivot A k p (rows A) = None.
    apply: first_index_none => r rb; rewrite negbK; apply/eqP.
    apply: (@lead_ge_zero A r k.+1) => //.
    by apply: echelon_lead_ge lg => //; nlia.
  by split=> //=; split=> //; exact: ltnW.
Qed.

Lemma ech_loop_prefix_inv A k :
  is_echelon A -> k <= cols A ->
  ech_inv A k (foldl (ref_step (rows A)) (A, 0, [::]) (iota 0 k)).
Proof.
move=> ech; elim: k => [|k IH] kn.
  by split=> //= m0; rewrite /lead_ge; case: (lead A 0).
rewrite iotaSr foldl_rcons.
by apply: ech_inv_step => //; apply: IH; apply: ltnW.
Qed.

(** C6.  On a matrix [A] that is already in row echelon form, [ref]
    returns [A] itself, no row swapped and no entry changed, and its pivot
    columns are the leading-entry columns of the rows of [A]. *)
Theorem ref_idempotent_on_echelon (A : Matrix) :
  is_echelon A -> ref A = (A, leading_cols A).
Proof.
move=> ech; rewrite refE /ref_loop.
have := ech_loop_prefix_inv ech (leqnn (cols A)).
case: (foldl _ _ _) => [[M p] piv] [/= -> [sz pm] found at_cursor].
congr (_, _); rewrite /leading_cols.
have -> : leads A = map Some piv ++ nseq (rows A - p) None.
  apply: (@eq_from_nth _ None).
    by rewrite size_leads size_cat size_map size_nseq sz subnKC.
  move=> i; rewrite size_leads => im; rewrite nth_leads // nth_cat size_map sz.
  case: (ltnP i p) => ip.
    by rewrite (nth_map 0) ?sz // found.
  rewrite nth_nseq; have pm' : p < rows A by exact: leq_ltn_trans im.
  have : lead_ge A i (cols A).
    by apply: echelon_lead_ge (at_cursor pm') => //; rewrite ip.
  rewrite /lead_ge; case: leadP => [c cn _ _ nc|_ _]; last by case: ifP.
  by move: cn; rewrite ltnNge nc.
by rewrite pmap_cat pmap_id_some pmap_id_none cats0.
Qed.

(** C6 at the matrix [[1, 2, 3], [0, 0, 4], [0, 0, 0]]. *)
Lemma ref_idempotent_on_echelon_witness :
  is_echelon ex_echelon /\ ref ex_echelon = (ex_echelon, leading_cols ex_echelon).
Proof.
have ech : is_echelon ex_echelon by vm_compute.
by split; [exact: ech | exact: (ref_idempotent_on_echelon ech)].
Defined.

(** ** C5: [ref] keeps the row space *)

Section RowSpace.

Variables m n : nat.

Lemma swap_eqmx M M1 pivot p :
  pivot < m -> p < m ->
  (forall r c, c < n -> getitem M1 r c = getitem M (swapped pivot p r) c) ->
  (to_mx m n M1 :=: to_mx m n M)%MS.
Proof.
move=> pm1 pm2 ent1.
have sw_lt (i : 'I_m) : swapped pivot p i < m.
  by rewrite /swapped; case: ifP => // _; case: ifP.
apply/eqmxP/andP; split; apply/row_subP => i.
- have -> : row i (to_mx m n M1) = row (Ordinal (sw_lt i)) (to_mx m n M).
    by apply/rowP => j; rewrite !mxE /= ent1.
  exact: row_sub.
- have -> : row i (to_mx m n M) = row (Ordinal (sw_lt i)) (to_mx m n M1).
    by apply/rowP => j; rewrite !mxE /= ent1 // swappedK.
  exact: row_sub.
Qed.

Lemma elim_eqmx M1 M2 p (below : pred nat) (f : nat -> rat) :
  p < m -> ~~ below p ->
  (forall r c, c < n ->
     getitem M2 r c
     = if below r then (getitem M1 r c - f r * getitem M1 p c)%R
       else getitem M1 r c) ->
  (to_mx m n M2 :=: to_mx m n M1)%MS.
Proof.
move=> pm np ent2; pose op := Ordinal pm.
have rowp : row op (to_mx m n M2) = row op (to_mx m n M1).
  by apply/rowP => j; rewrite !mxE /= ent2 // (negbTE np).
apply/eqmxP/andP; split; apply/row_subP => i.
- case bi: (below i).
    have -> : row i (to_mx m n M2)
              = (row i (to_mx m n M1) - f i *: row op (to_mx m n M1))%R.
      by apply/rowP => j; rewrite !mxE /= ent2 // bi.
    by rewrite addmx_sub ?eqmx_opp ?scalemx_sub ?row_sub.
  have -> : row i (to_mx m n M2) = row i (to_mx m n M1).
    by apply/rowP => j; rewrite !mxE /= ent2 // bi.
  exact: row_sub.
- case bi: (below i).
    have -> : row i (to_mx m n M1)
              = (row i (to_mx m n M2) + f i *: row op (to_mx m n M2))%R.
      by apply/rowP => j; rewrite rowp !mxE /= ent2 // bi subrK.
    by rewrite addmx_sub ?scalemx_sub ?row_sub.
  have -> : row i (to_mx m n M1) = row i (to_mx m n M2).
    by apply/rowP => j; rewrite !mxE /= ent2 // bi.
  exact: row_sub.
Qed.

Lemma ref_step_eqmx M p piv col :
  col < n -> cols M = n ->
  (to_mx m n (ref_step m (M, p, piv) col).1.1 :=: to_mx m n M)%MS.
Proof.
move=> coln cM; have colM : col < cols M by rewrite cM.
case: (@ref_stepP m M p piv col colM)
  => [//|//|pivot M1 M2 /andP[pp pm] _ _ _ ent1 _ ent2] /=.
have pm' : p < m by exact: leq_ltn_trans pm.
apply: (@eqmx_trans _ _ _ _ _ _ (to_mx m n M1)).
  apply: (@elim_eqmx M1 M2 p (fun r => p < r < m)
            (fun r => getitem M1 r col / getitem M1 p col)%R) => //.
    by rewrite ltnn.
  by move=> r c cn; apply: ent2; rewrite cM.
by apply: (@swap_eqmx M M1 pivot p) => // r c cn; apply: ent1; rewrite cM.
Qed.

End RowSpace.

Lemma ref_loop_prefix_eqmx M k :
  k <= cols M ->
  (to_mx (rows M) (cols M)
     (foldl (ref_step (rows M)) (M, 0, [::]) (iota 0 k)).1.1
   :=: to_mx (rows M) (cols M) M)%MS.
Proof.
elim: k => [|k IH] kn //.
rewrite iotaSr foldl_rcons.
have := ref_loop_prefix_inv (ltnW kn); move/(_ (ltnW kn)): IH.
case: (foldl _ _ _) => [[M' p] piv] /= IH [/= [_ cM'] _ _ _ _].
exact: eqmx_trans (ref_step_eqmx _ _ _ kn cM') IH.
Qed.

Lemma solves_kernel m n_vars M x :
  rows M = m ->
  solves M n_vars x
  <-> (to_mx m n_vars.+1 M *m augmented_vector n_vars x = 0)%R.
Proof.
move=> rM.
have row_value (i : 'I_m) :
    ((to_mx m n_vars.+1 M *m augmented_vector n_vars x) i ord0
     = \sum_(0 <= j < n_vars) getitem M i j * nth 0 x j - getitem M i n_vars)%R.
  rewrite !mxE big_ord_recr /= !mxE /= ltnn mulrN1; congr (_ - _)%R.
  rewrite big_mkord; apply: eq_bigr => j _.
  by rewrite !mxE /= ltn_ord.
split=> [sol|ker].
- apply/matrixP => i j; rewrite (ord1 j) row_value [RHS]mxE.
  by rewrite sol ?rM // subrr.
- move=> i; rewrite rM => im.
  have := row_value (Ordinal im); rewrite ker mxE /= => /esym/eqP.
  by rewrite subr_eq0 => /eqP.
Qed.

(** C5.  For every matrix [A], with [E] the matrix [ref(A)] returns,
    which has the dimensions of [A]: a row vector is a combination of the
    rows of [E] exactly when it is one of the rows of [A] (the row space
    is the same); [E] is [P * A] for an invertible [P], so that [x] solves
    [A x = b] exactly when it solves [E x = P b], the system the same row
    operations give; in particular the systems [E x = 0] and [A x = 0]
    have the same solutions; when [A] is the augmented matrix of a system
    in [n_vars] unknowns, [E] is the augmented matrix of a system with the
    same solutions; and the rank of [E] is the rank of [A]. *)
Theorem ref_preserves_row_space (A : Matrix) :
  let m := rows A in
  let n := cols A in
  let E := to_mx m n (ref A).1 in
  let A' := to_mx m n A in
  [/\ (rows (ref A).1 = m /\ cols (ref A).1 = n)
      /\ forall v : 'rV_n, (v <= E)%MS = (v <= A')%MS,
      exists2 P : 'M_m, P \in unitmx
        & E = (P *m A')%R
          /\ forall (x : 'cV_n) (b : 'cV_m),
               (E *m x == P *m b)%R = (A' *m x == b)%R,
      forall x : 'cV_n, (E *m x == 0)%R = (A' *m x == 0)%R,
      forall (n_vars : nat) (x : seq rat),
        cols A = n_vars + 1 -> solves (ref A).1 n_vars x <-> solves A n_vars x
    & \rank E = \rank A'].
Proof.
move=> m n E A'.
have eqEA : (E :=: A')%MS.
  by rewrite /E refE /=; apply: ref_loop_prefix_eqmx.
have /eqmxMunitP[P Pu EPA] : (E == A')%MS by apply/eqmxP.
have solve (x : 'cV_n) (b : 'cV_m) : (E *m x == P *m b)%R = (A' *m x == b)%R.
  by rewrite EPA -mulmxA; apply: inj_eq; apply: can_inj (mulKmx Pu).
have kernel (x : 'cV_n) : (E *m x == 0)%R = (A' *m x == 0)%R.
  by rewrite -(solve x 0%R) mulmx0.
have [rE cE] : rows (ref A).1 = m /\ cols (ref A).1 = n.
  by rewrite refE /=; case: (ref_loop_inv A) => -[].
split=> //.
- by split=> // v; rewrite eqEA.
- by exists P.
- move=> n_vars x; rewrite addn1 => shape.
  move: kernel; rewrite /E /A' /n shape => kernel.
  rewrite (solves_kernel n_vars x rE) (solves_kernel n_vars x (erefl m)).
  by split=> /eqP ker; apply/eqP; [rewrite -kernel | rewrite kernel].
- by rewrite eqEA.
Qed.

(** The right-hand side has to follow the row operations, as it does
    when [ref] is given the augmented matrix: [x = 1] solves the system
    [0 x = 0, 1 x = 1], and it does not solve the system that [ref] of the
    coefficient matrix alone makes with the same right-hand side,
    [1 x = 0, 0 x = 1]. *)
Example ref_of_coefficients_alone :
  let A := Matrix_of_rows [:: [:: 0]; [:: 1]]%Q in
  let b := [:: 0; 1]%Q in
  [/\ (ref A).1 = Matrix_of_rows [:: [:: 1]; [:: 0]]%Q,
      solves (augment A b) 1 [:: 1%Q]
    & ~ solves (augment (ref A).1 b) 1 [:: 1%Q]].
Proof.
split; first by vm_compute.
- by case=> [|[|i]] // _; rewrite /solves big_nat1; vm_compute.
- by move/(_ 0 isT); rewrite big_nat1 => /eqP; vm_compute.
Qed.

(** ** The value of an expression *)

Lemma eval_coefs_opp rho k s :
  eval_coefs rho k [seq (- y)%R | y <- s] = (- eval_coefs rho k s)%R.
Proof.
elim: s k => [|a s IH] k /=; first by rewrite oppr0.
by rewrite IH mulNr opprD.
Qed.

Lemma eval_coefs_sub rho k a b :
  eval_coefs rho k (sub_coefs a b)
  = (eval_coefs rho k a - eval_coefs rho k b)%R.
Proof.
elim: a b k => [|x a IH] [|y b] k /=; rewrite ?subr0 ?sub0r //.
  by rewrite eval_coefs_opp mulNr opprD.
by rewrite IH; ring.
Qed.

Lemma eval_coefs_scale rho k q s :
  eval_coefs rho k [seq (q * a)%R | a <- s] = (q * eval_coefs rho k s)%R.
Proof.
elim: s k => [|a s IH] k /=; first by rewrite mulr0.
by rewrite IH; ring.
Qed.

Lemma eval_coefs_trim rho k s : eval_coefs rho k (trim s) = eval_coefs rho k s.
Proof.
elim: s k => [|a s IH] k //=; rewrite -IH.
case: (a =P 0%R) => [->|_] //=; case: (trim s) => //=.
by rewrite mul0r addr0.
Qed.

Lemma eval_of_rat rho q : eval rho (of_rat q) = q.
Proof. by rewrite /eval /= addr0. Qed.

Lemma eval_esub rho e1 e2 : eval rho (esub e1 e2) = (eval rho e1 - eval rho e2)%R.
Proof. by rewrite /eval /= eval_coefs_sub; ring. Qed.

Lemma eval_escale rho q e : eval rho (escale q e) = (q * eval rho e)%R.
Proof. by rewrite /eval /= eval_coefs_scale; ring. Qed.

Lemma eval_simplify rho e : eval rho (simplify e) = eval rho e.
Proof. by rewrite /eval /= eval_coefs_trim. Qed.

Lemma eval_coefs_symbol rho s k :
  eval_coefs rho s (rcons (nseq k 0%R) 1%R) = rho (s + k).
Proof.
elim: k s => [|k IH] s /=; first by rewrite mul1r addr0 addn0.
by rewrite IH mul0r add0r addSnnS.
Qed.

Lemma eval_symbol rho k : eval rho (symbol k) = rho k.
Proof. by rewrite /eval /= eval_coefs_symbol add0r add0n. Qed.

(** Whatever [t0] is, the first entry [2 - t0] of the solution of
    [x0 + x1 = 2] and the second entry [t0] add up to [2]. *)
Example eval_ex3 (rho : nat -> rat) :
  (eval rho (Affine 2%Q [:: (-1)%Q]) + eval rho (symbol 0))%R = 2%Q.
Proof. by rewrite eval_symbol /eval /= addr0 mulN1r subrK. Qed.

Lemma eval_subtract_known rho Ab i x rhs a len :
  eval rho (foldl (subtract_known Ab i x) rhs (iota a len))
  = (eval rho rhs
     - \sum_(a <= j < a + len) getitem Ab i j * eval rho (nth ezero x j))%R.
Proof.
elim: len a rhs => [|len IH] a rhs /=.
  by rewrite addn0 big_geq // subr0.
rewrite IH /subtract_known eval_simplify eval_esub eval_escale.
by rewrite addSnnS [in RHS]big_ltn ?opprD ?addrA // -addSnnS ltn_addr.
Qed.

(** ** The checks and the pivots of [back_substitution] *)

Lemma getitem_row_slice M i j : getitem (row_slice M i) 0 j = getitem M i j.
Proof. by []. Qed.

Lemma is_inconsistent_row_slice Ab n_vars i :
  is_inconsistent_row (row_slice Ab i) n_vars = inconsistent_row Ab n_vars i.
Proof.
rewrite /is_inconsistent_row /inconsistent_row getitem_row_slice.
congr (_ && _); apply: eq_in_all => j; rewrite mem_iota add0n /= => jn.
by rewrite /getitem /= nth_take.
Qed.

Lemma pivot_scanP Ab n_vars i :
  first_index_spec (fun j => getitem Ab i j != 0%R) 0 n_vars
    (pivot_scan Ab n_vars i).
Proof. exact: first_indexP. Qed.

Lemma determine_pivots_prefix Ab n_vars m k :
  k <= m ->
  let st := foldl (pivot_step Ab n_vars) (nseq m None, [::]) (iota 0 k) in
  [/\ size st.1 = m,
      forall i, nth None st.1 i = if i < k then pivot_scan Ab n_vars i else None
    & forall j, (j \in st.2)
                = has (fun i => pivot_scan Ab n_vars i == Some j) (iota 0 k)].
Proof.
elim: k => [|k IH] km.
  by split=> [||//] /=; [rewrite size_nseq | move=> i; rewrite nth_nseq if_same].
rewrite iotaSr foldl_rcons; case: (IH (ltnW km)).
case: (foldl _ _ _) => pcfr pcs /= sz pc_of mem_pcs.
have has_rcons j :
    has (fun i => pivot_scan Ab n_vars i == Some j) (rcons (iota 0 k) k)
    = has (fun i => pivot_scan Ab n_vars i == Some j) (iota 0 k)
      || (pivot_scan Ab n_vars k == Some j).
  by rewrite -cats1 has_cat /= orbF.
rewrite /pivot_step; case scan: (pivot_scan Ab n_vars k) => [j0|] /=; split.
- by rewrite size_set_nth sz; apply/maxn_idPr.
- move=> i; rewrite nth_set_nth /= ltnS leq_eqVlt.
  by case: (i =P k) => [->|_] //=; rewrite pc_of.
- move=> j; rewrite has_rcons scan -mem_pcs.
  case: ifP => j0in; last by rewrite in_cons orbC eq_sym.
  by case: eqP => [[<-]|_]; rewrite ?j0in ?orbT ?orbF.
- by [].
- move=> i; rewrite ltnS leq_eqVlt pc_of.
  by case: (i =P k) => [->|_] //=; rewrite ltnn scan.
- by move=> j; rewrite has_rcons scan orbF.
Qed.

Lemma determine_pivotsE Ab n_vars :
  let st := determine_pivots Ab n_vars (rows Ab) in
  (forall i, i < rows Ab -> nth None st.1 i = pivot_scan Ab n_vars i)
  /\ (forall j, (j \in st.2) = pivot_column Ab n_vars j).
Proof.
case: (determine_pivots_prefix Ab n_vars (leqnn (rows Ab))) => /= _ pc_of mem.
by split=> [i im|j]; rewrite ?pc_of ?im // mem.
Qed.

(** ** The loop of [back_substitution] never divides by zero *)

Arguments back_step : simpl never.
Arguments back_row : simpl never.

Lemma back_stepE Ab n_vars pcfr x i :
  nth None pcfr i = pivot_scan Ab n_vars i ->
  back_step Ab n_vars pcfr (Some x) i = Some (back_row Ab n_vars x i).
Proof.
rewrite /back_step /back_row => ->.
case: pivot_scanP => // pc _ nz _.
by rewrite /ediv (negbTE nz).
Qed.

Lemma back_loopE Ab n_vars pcfr x rs :
  (forall i, i \in rs -> nth None pcfr i = pivot_scan Ab n_vars i) ->
  foldl (back_step Ab n_vars pcfr) (Some x) rs
  = Some (foldl (back_row Ab n_vars) x rs).
Proof.
elim: rs x => [|i rs IH] x //= pc_of.
rewrite (back_stepE _ (pc_of i (mem_head _ _))).
by apply: IH => i' i'rs; apply: pc_of; rewrite in_cons i'rs orbT.
Qed.

Lemma solveE Ab n_vars :
  solve Ab n_vars
  = Returned (foldl (back_row Ab n_vars) (initial_solution Ab n_vars)
                    (rev (iota 0 (rows Ab))))
             (free_columns Ab n_vars).
Proof.
rewrite /solve; case: (determine_pivotsE Ab n_vars).
case: (determine_pivots _ _ _) => pcfr pcs /= pc_of mem_pcs.
have -> : [seq j <- iota 0 n_vars | j \notin pcs] = free_columns Ab n_vars.
  by apply: eq_filter => j; rewrite mem_pcs.
rewrite back_loopE // => i; rewrite mem_rev mem_iota add0n /=.
exact: pc_of.
Qed.

Lemma back_substitutionP Ab n_vars :
  back_substitution_spec Ab n_vars (back_substitution Ab n_vars).
Proof.
rewrite /back_substitution.
have -> : has (fun i => is_inconsistent_row (row_slice Ab i) n_vars)
              (iota 0 (rows Ab))
          = has (inconsistent_row Ab n_vars) (iota 0 (rows Ab)).
  by apply: eq_has => i; rewrite is_inconsistent_row_slice.
case: (cols Ab =P n_vars + 1) => [shape|/eqP shape] /=; last by constructor.
case bad: (has _ _); first by constructor.
by rewrite solveE; constructor=> //; rewrite bad.
Qed.

Lemma messages_differ : wrong_columns <> inconsistent.
Proof. by []. Qed.

(** ** C8: the shape check *)

(** C8.  [back_substitution] ends in the exception for malformed input
    exactly when the matrix does not have [n_vars + 1] columns; and it
    raises it at once: the call on the store has taken no slice of the
    matrix yet, which the inconsistency check does for every row it
    looks at, so it leaves the store as it found it. *)
Theorem malformed_input_error (Ab : Matrix) (n_vars : nat) :
  (back_substitution Ab n_vars = Raised (InputError wrong_columns)
   <-> cols Ab <> n_vars + 1)
  /\ (forall (h : store) (a : loc),
        cols (sel h a) <> n_vars + 1 ->
        back_substitution_st h a n_vars = (h, Raised (InputError wrong_columns))).
Proof.
split; last first.
  by move=> h a /eqP shape; rewrite /back_substitution_st shape.
by case: back_substitutionP => [/eqP shape|shape _|shape _]; split.
Qed.

(** ** C4: the inconsistency check *)

Lemma inconsistent_rowP Ab n_vars i :
  reflect ((forall j, j < n_vars -> getitem Ab i j = 0%R)
           /\ getitem Ab i n_vars <> 0%R)
          (inconsistent_row Ab n_vars i).
Proof.
apply: (iffP andP) => [[/allP z /eqP nz]|[z /eqP nz]]; split=> //.
  by move=> j jn; apply/eqP; apply: z; rewrite mem_iota add0n.
by apply/allP => j; rewrite mem_iota add0n /= => jn; apply/eqP; apply: z.
Qed.

Lemma has_inconsistent_rowP Ab n_vars :
  reflect (exists2 i, i < rows Ab
             & (forall j, j < n_vars -> getitem Ab i j = 0%R)
               /\ getitem Ab i n_vars <> 0%R)
          (has (inconsistent_row Ab n_vars) (iota 0 (rows Ab))).
Proof.
apply: (iffP hasP) => [[i]|[i im /inconsistent_rowP bad]].
  by rewrite mem_iota add0n /= => im /inconsistent_rowP bad; exists i.
by exists i; rewrite ?mem_iota.
Qed.

Lemma inconsistency_error_aux Ab n_vars :
  back_substitution Ab n_vars = Raised (InputError inconsistent)
  <-> cols Ab = n_vars + 1
      /\ has (inconsistent_row Ab n_vars) (iota 0 (rows Ab)).
Proof.
case: back_substitutionP => [/eqP shape|shape bad|shape /negP good].
- by split=> // -[].
- by split.
- by split=> // -[].
Qed.

(** C4, as amended.  [back_substitution] ends in the exception for an
    inconsistent system exactly when the matrix has [n_vars + 1] columns
    and some row has its first [n_vars] entries zero and a nonzero last
    entry, whatever the other rows are; the outcome then carries no
    solution. *)
Theorem inconsistency_error (Ab : Matrix) (n_vars : nat) :
  back_substitution Ab n_vars = Raised (InputError inconsistent)
  <-> cols Ab = n_vars + 1
      /\ exists2 i, i < rows Ab
           & (forall j, j < n_vars -> getitem Ab i j = 0%R)
             /\ getitem Ab i n_vars <> 0%R.
Proof.
case: back_substitutionP => [/eqP shape|shape bad|shape /negP good].
- by split=> // -[].
- by split=> // _; split=> //; apply/has_inconsistent_rowP.
- by split=> // -[_ /has_inconsistent_rowP].
Qed.

(** C4 as stated fails where the shape check comes first: the row has its
    first entry zero and its last entry nonzero, and the call ends in the
    exception for the wrong number of columns. *)
Lemma inconsistency_error_counterexample :
  [/\ (exists2 i, i < rows ex_three_columns
         & (forall j, j < 1 -> getitem ex_three_columns i j = 0%R)
           /\ getitem ex_three_columns i 1 <> 0%R),
      getitem ex_three_columns 0 (cols ex_three_columns - 1) <> 0%R,
      back_substitution ex_three_columns 1 = Raised (InputError wrong_columns)
    & back_substitution ex_three_columns 1 <> Raised (InputError inconsistent)].
Proof.
have res : back_substitution ex_three_columns 1 = Raised (InputError wrong_columns).
  by rewrite /back_substitution.
split.
- by exists 0 => //; split=> // [[|]].
- by [].
- exact: res.
- by rewrite res.
Qed.

(** ** C9: the division by the pivot *)

(** C9.  For every matrix, in echelon form or not: the pivot column
    recorded for a row is a column where that row is nonzero, so the
    divisor of each turn of the loop is nonzero; neither the loop after
    the checks nor the whole call ever ends in a division by zero. *)
Theorem pivot_division_is_safe (Ab : Matrix) (n_vars : nat) :
  [/\ forall i pc, i < rows Ab ->
        nth None (determine_pivots Ab n_vars (rows Ab)).1 i = Some pc ->
        pc < n_vars /\ getitem Ab i pc != 0%R,
      forall pcfr x i pc,
        nth None pcfr i = Some pc -> getitem Ab i pc != 0%R ->
        isSome (back_step Ab n_vars pcfr (Some x) i),
      divided_by_zero (solve Ab n_vars) = false
    & divided_by_zero (back_substitution Ab n_vars) = false].
Proof.
split.
- move=> i pc im; case: (determine_pivotsE Ab n_vars) => pc_of _.
  by rewrite pc_of //; case: pivot_scanP => // c cb nz _ [<-].
- by move=> pcfr x i pc; rewrite /back_step /ediv => -> /negbTE ->.
- by rewrite solveE.
- by case: back_substitutionP.
Qed.

(** ** C2: how the two errors reach the caller *)

(** C2, as amended.  Each call ends in exactly one of three ways: the
    matrix does not have [n_vars + 1] columns and [InputError] is raised
    with the message for malformed input; or it has, some row is
    inconsistent, and [InputError] is raised with the message for an
    inconsistent system; or it has, no row is inconsistent, and a
    solution and the free columns are returned.  The two errors are
    exceptions of one class that differ in their message. *)
Theorem errors_are_raised (Ab : Matrix) (n_vars : nat) :
  [\/ cols Ab <> n_vars + 1
      /\ back_substitution Ab n_vars = Raised (InputError wrong_columns),
      [/\ cols Ab = n_vars + 1,
          has (inconsistent_row Ab n_vars) (iota 0 (rows Ab))
        & back_substitution Ab n_vars = Raised (InputError inconsistent)]
    | [/\ cols Ab = n_vars + 1,
          ~~ has (inconsistent_row Ab n_vars) (iota 0 (rows Ab))
        & exists x free_cols, back_substitution Ab n_vars = Returned x free_cols]]
  /\ wrong_columns <> inconsistent.
Proof.
split; last exact: messages_differ.
case: back_substitutionP => [/eqP shape|shape bad|shape good].
- by constructor 1.
- by constructor 2.
- by constructor 3; split=> //; eexists; eexists.
Qed.

(** C2 as stated fails: on malformed input and on an inconsistent system
    the call returns no value, it raises. *)
Lemma errors_are_raised_counterexample :
  [/\ back_substitution ex_three_columns 1 = Raised (InputError wrong_columns),
      returns_value (back_substitution ex_three_columns 1) = false,
      back_substitution ex_inconsistent 1 = Raised (InputError inconsistent)
    & returns_value (back_substitution ex_inconsistent 1) = false].
Proof.
have r1 : back_substitution ex_three_columns 1 = Raised (InputError wrong_columns).
  by rewrite /back_substitution.
have r2 : back_substitution ex_inconsistent 1 = Raised (InputError inconsistent).
  by apply/inconsistency_error_aux; split.
by split; rewrite ?r1 ?r2.
Qed.

(** ** C7: the free columns and their symbols *)

Lemma nth_bind_free_from t s fr x j :
  uniq fr ->
  nth ezero
    (foldl (fun x' kj => set_nth ezero x' kj.2 (nth ezero t kj.1)) x
           (zip (iota s (size fr)) fr)) j
  = if j \in fr then nth ezero t (s + index j fr) else nth ezero x j.
Proof.
elim: fr s x => [|a fr IH] s x //= /andP[afr ufr].
rewrite IH // nth_set_nth /= in_cons [a == j]eq_sym.
case: (j =P a) => [->|_] /=; first by rewrite (negbTE afr) addn0.
by rewrite addSnnS.
Qed.

Lemma nth_bind_free t fr x k :
  uniq fr -> k < size fr ->
  nth ezero (bind_free t fr x) (nth 0 fr k) = nth ezero t k.
Proof.
move=> ufr kf; rewrite /bind_free nth_bind_free_from // mem_nth //.
by rewrite index_uniq.
Qed.

Lemma free_columns_uniq Ab n_vars : uniq (free_columns Ab n_vars).
Proof. by rewrite filter_uniq ?iota_uniq. Qed.

Lemma free_columns_sorted Ab n_vars : sorted ltn (free_columns Ab n_vars).
Proof. exact: sorted_filter ltn_trans _ _ (iota_ltn_sorted 0 n_vars). Qed.

Lemma mem_free_columns Ab n_vars j :
  (j \in free_columns Ab n_vars) = (~~ pivot_column Ab n_vars j) && (j < n_vars).
Proof. by rewrite mem_filter mem_iota add0n. Qed.

Lemma pivot_scan_pivot_column Ab n_vars i pc :
  i < rows Ab -> pivot_scan Ab n_vars i = Some pc -> pivot_column Ab n_vars pc.
Proof.
move=> im scan; apply/hasP; exists i; first by rewrite mem_iota.
by rewrite scan.
Qed.

(** A turn of the loop writes to a pivot column only. *)
Lemma nth_back_row Ab n_vars x i j :
  i < rows Ab -> ~~ pivot_column Ab n_vars j ->
  nth ezero (back_row Ab n_vars x i) j = nth ezero x j.
Proof.
move=> im free; rewrite /back_row.
case scan: (pivot_scan Ab n_vars i) => [pc|] //.
rewrite nth_set_nth /=; case: eqP => // jpc.
by move: free; rewrite jpc (pivot_scan_pivot_column im scan).
Qed.

Lemma nth_back_rows Ab n_vars x rs j :
  all (fun i => i < rows Ab) rs -> ~~ pivot_column Ab n_vars j ->
  nth ezero (foldl (back_row Ab n_vars) x rs) j = nth ezero x j.
Proof.
elim: rs x => [|i rs IH] x //= /andP[im rsm] free.
by rewrite IH // nth_back_row.
Qed.

(** C7.  When [back_substitution] returns [x, free_cols]: [free_cols] is
    the list of the columns [0 <= j < n_vars] that are the pivot column of
    no row, in increasing order, and for each [k] the entry of [x] at the
    [k]-th free column is the symbol [tk]. *)
Theorem free_columns_hold_symbols (Ab : Matrix) (n_vars : nat)
    (x : seq expr) (free_cols : seq nat) :
  back_substitution Ab n_vars = Returned x free_cols ->
  [/\ free_cols = [seq j <- iota 0 n_vars | ~~ pivot_column Ab n_vars j],
      sorted ltn free_cols
    & forall k, k < size free_cols ->
        nth ezero x (nth 0 free_cols k) = symbol k].
Proof.
case: back_substitutionP => // shape good [<- <-]; split=> //.
  exact: free_columns_sorted.
move=> k kf.
have: nth 0 (free_columns Ab n_vars) k \in free_columns Ab n_vars by exact: mem_nth.
rewrite mem_free_columns => /andP[free _].
have in_range : all (fun i => i < rows Ab) (rev (iota 0 (rows Ab))).
  by apply/allP => i; rewrite mem_rev mem_iota add0n.
rewrite nth_back_rows //.
rewrite /initial_solution nth_bind_free ?free_columns_uniq //.
by rewrite /symbols nth_mkseq.
Qed.

(** C7 at the system [x0 + x1 = 2] in three unknowns. *)
Lemma free_columns_hold_symbols_witness :
  let x := [:: Affine 2%Q [:: (-1)%Q]; symbol 0; symbol 1] in
  let free_cols := [:: 1; 2] in
  back_substitution ex3 3 = Returned x free_cols
  /\ [/\ free_cols = [seq j <- iota 0 3 | ~~ pivot_column ex3 3 j],
         sorted ltn free_cols
       & forall k, k < size free_cols ->
           nth ezero x (nth 0 free_cols k) = symbol k].
Proof.
have res : back_substitution ex3 3
           = Returned [:: Affine 2%Q [:: (-1)%Q]; symbol 0; symbol 1] [:: 1; 2].
  by vm_compute.
by split; [exact: res | exact: (free_columns_hold_symbols res)].
Defined.

(** ** C1: the solution satisfies every equation *)

Section BackSubstitutionSolves.

Variables (Ab : Matrix) (n_vars : nat) (rho : nat -> rat).
Hypothesis ech : is_echelon Ab.
Hypothesis shape : cols Ab = n_vars + 1.
Hypothesis consistent : ~~ has (inconsistent_row Ab n_vars) (iota 0 (rows Ab)).

Lemma pivot_scan_lead i pc :
  pivot_scan Ab n_vars i = Some pc -> lead Ab i = Some pc.
Proof.
case: pivot_scanP => // c cb nz z [<-]; rewrite /lead shape.
by apply: first_index_some => //; nlia.
Qed.

Lemma below_pivot_zero i i' pc :
  i < i' < rows Ab -> pivot_scan Ab n_vars i = Some pc -> getitem Ab i' pc = 0%R.
Proof.
move=> ii' scan; have pcn : pc < n_vars.
  by move: scan; case: pivot_scanP => // c cb _ _ [<-].
apply: (@lead_ge_zero Ab i' pc.+1) => //; last by rewrite shape; nlia.
exact: echelon_below_lead (pivot_scan_lead scan).
Qed.

Lemma zero_row_holds x i :
  i < rows Ab -> pivot_scan Ab n_vars i = None -> row_holds rho Ab n_vars x i.
Proof.
move=> im; case: pivot_scanP => // z _.
have zero j : j < n_vars -> getitem Ab i j = 0%R.
  by move=> jn; apply/eqP; rewrite -[_ == _]negbK; apply: z.
have /eqP rhs0 : getitem Ab i n_vars == 0%R.
  move/hasPn: consistent => /(_ i); rewrite mem_iota add0n => /(_ im).
  rewrite /inconsistent_row negb_and negbK => /orP[|//].
  by case/allPn=> j; rewrite mem_iota add0n /= => jn; rewrite zero ?eqxx.
rewrite /row_holds rhs0 big_nat big1 // => j /andP[_ jn].
by rewrite zero // mul0r.
Qed.

Lemma pivot_row_holds x k pc :
  pivot_scan Ab n_vars k = Some pc ->
  row_holds rho Ab n_vars (back_row Ab n_vars x k) k.
Proof.
move=> scan; rewrite /row_holds /back_row scan.
case: pivot_scanP scan => // c /andP[_ pcn] nz z [cpc]; move: pcn nz z.
rewrite {c}cpc add0n => pcn nz z.
set v := simplify _.
have ev : eval rho v
          = ((getitem Ab k pc)^-1
             * (getitem Ab k n_vars
                - \sum_(pc.+1 <= j < n_vars)
                    getitem Ab k j * eval rho (nth ezero x j)))%R.
  by rewrite /v eval_simplify eval_escale eval_subtract_known eval_of_rat subnKC.
have zero j : j < pc -> getitem Ab k j = 0%R.
  by move=> jpc; apply/eqP; rewrite -[_ == _]negbK; apply: z.
have pcn' := ltnW pcn.
rewrite (@big_cat_nat _ _ _ pc) //=.
have -> : (\sum_(0 <= j < pc)
             getitem Ab k j * eval rho (nth ezero (set_nth ezero x pc v) j))%R
          = 0%R.
  by rewrite big_nat big1 // => j /andP[_ jpc]; rewrite zero // mul0r.
rewrite big_ltn // nth_set_nth /= eqxx ev add0r.
have -> : (\sum_(pc.+1 <= j < n_vars)
             getitem Ab k j * eval rho (nth ezero (set_nth ezero x pc v) j))%R
          = (\sum_(pc.+1 <= j < n_vars)
               getitem Ab k j * eval rho (nth ezero x j))%R.
  by apply: eq_big_nat => j /andP[pcj _]; rewrite nth_set_nth /= gtn_eqF.
by field.
Qed.

Lemma lower_row_holds x k i :
  k < i < rows Ab ->
  row_holds rho Ab n_vars x i -> row_holds rho Ab n_vars (back_row Ab n_vars x k) i.
Proof.
move=> ki; rewrite /row_holds /back_row.
case scan: (pivot_scan Ab n_vars k) => [pc|] // <-.
apply: eq_big_nat => j _; rewrite nth_set_nth /=.
by case: eqP => // ->; rewrite (below_pivot_zero ki scan) !mul0r.
Qed.

Lemma back_rows_hold x d k :
  k + d = rows Ab ->
  forall i, k <= i < rows Ab ->
    row_holds rho Ab n_vars (foldl (back_row Ab n_vars) x (rev (iota k d))) i.
Proof.
elim: d k => [|d IH] k kd i ib; first by nlia.
rewrite /= rev_cons foldl_rcons.
have {}IH := IH k.+1 _; rewrite addSnnS in IH.
have km : k < rows Ab by nlia.
move: ib; rewrite leq_eqVlt => /andP[/orP[/eqP<-|ki] im]; last first.
  by apply: lower_row_holds; rewrite ?ki //; apply: IH => //; rewrite ki.
case scan: (pivot_scan Ab n_vars k) => [pc|]; first exact: pivot_row_holds scan.
exact: zero_row_holds.
Qed.

End BackSubstitutionSolves.

(** C1.  Let [Ab] be in echelon form with [n_vars + 1] columns and let
    [back_substitution] return the solution [x] (so it found no
    inconsistent row).  Whatever rational values the parameter symbols
    [t0, t1, ...] take, [x] satisfies every equation of [Ab]: for each
    row [i], the sum over [j < n_vars] of [Ab[i, j] * x[j]] is
    [Ab[i, n_vars]]. *)
Theorem back_substitution_solves (Ab : Matrix) (n_vars : nat)
    (x : seq expr) (free_cols : seq nat) :
  is_echelon Ab -> cols Ab = n_vars + 1 ->
  back_substitution Ab n_vars = Returned x free_cols ->
  forall (rho : nat -> rat) (i : nat),
    i < rows Ab -> row_holds rho Ab n_vars x i.
Proof.
move=> ech shape; case: back_substitutionP => // _ good [<- _] rho i im.
by apply: back_rows_hold.
Qed.

(** C1 at the system [x0 + x1 = 2, 3 x2 = 6], whose solution is
    [x0 = 2 - t0, x1 = t0, x2 = 2]. *)
Lemma back_substitution_solves_witness :
  let x := [:: Affine 2%Q [:: (-1)%Q]; symbol 0; of_rat 2%Q] in
  [/\ is_echelon ex_system, cols ex_system = 3 + 1,
      back_substitution ex_system 3 = Returned x [:: 1]
    & forall (rho : nat -> rat) (i : nat),
        i < rows ex_system -> row_holds rho ex_system 3 x i].
Proof.
have ech : is_echelon ex_system by vm_compute.
have shape : cols ex_system = 3 + 1 by vm_compute.
have res : back_substitution ex_system 3
           = Returned [:: Affine 2%Q [:: (-1)%Q]; symbol 0; of_rat 2%Q] [:: 1].
  by vm_compute.
by split; [exact: ech | exact: shape | exact: res
          | exact: (back_substitution_solves ech shape res)].
Defined.

(** ** C10: what the two routines do to the store *)

Lemma sel_upd h l M l' : sel (upd h l M) l' = if l' == l then M else sel h l'.
Proof. by rewrite /sel /upd nth_set_nth. Qed.

Lemma size_upd h l M : l < size h -> size (upd h l M) = size h.
Proof. by move=> lh; rewrite /upd size_set_nth; apply/maxn_idPr. Qed.

Lemma upd_upd h l M M' : upd (upd h l M) l M' = upd h l M'.
Proof. by rewrite /upd set_set_nth eqxx. Qed.

Lemma upd_sel h l : l < size h -> upd h l (sel h l) = h.
Proof.
move=> lh; apply: (@eq_from_nth _ empty_matrix); first exact: size_upd.
by move=> i _; rewrite -/(sel _ i) sel_upd; case: eqP => // ->.
Qed.

Lemma sel_rcons h M l :
  sel (rcons h M) l = if l < size h then sel h l
                      else if l == size h then M else empty_matrix.
Proof. by rewrite /sel nth_rcons. Qed.

Lemma upd_rcons h M M' : upd (rcons h M) (size h) M' = rcons h M'.
Proof.
apply: (@eq_from_nth _ empty_matrix).
  by rewrite size_upd !size_rcons.
move=> i _; rewrite -!/(sel _ i) sel_upd !sel_rcons.
by case: eqP => // ->; rewrite ltnn.
Qed.

(** A loop of in-place steps on the matrix at [l] is the loop of the same
    steps on its value. *)
Lemma fold_in_place (T : Type) (step : Matrix -> T -> Matrix)
    (step_st : store -> T -> store) (l : loc) :
  (forall h k, l < size h -> step_st h k = upd h l (step (sel h l) k)) ->
  forall ks h, l < size h ->
    foldl step_st h ks = upd h l (foldl step (sel h l) ks).
Proof.
move=> stepE; elim=> [|k ks IH] h lh /=; first by rewrite upd_sel.
by rewrite stepE // IH ?size_upd // sel_upd eqxx upd_upd.
Qed.

Lemma row_swap_stE h l i j :
  l < size h -> row_swap_st h l i j = upd h l (row_swap (sel h l) i j).
Proof.
move=> lh; rewrite /row_swap_st /row_swap.
apply: fold_in_place => // h' k lh'.
by rewrite /setitem_st /getitem_st sel_upd eqxx upd_upd.
Qed.

Lemma row_op_stE h l i f_st f :
  (forall h' v j, l < size h' -> f_st h' v j = f (sel h' l) v j) ->
  l < size h -> row_op_st h l i f_st = upd h l (row_op (sel h l) i f).
Proof.
move=> fE lh; rewrite /row_op_st /row_op.
apply: fold_in_place => // h' k lh'.
by rewrite /setitem_st /getitem_st fE.
Qed.

Lemma eliminate_row_stE M col p pv h r :
  M < size h ->
  eliminate_row_st M col p pv h r
  = upd h M (eliminate_row col p pv (sel h M) r).
Proof.
move=> Mh; rewrite /eliminate_row_st /eliminate_row /getitem_st.
case: ifP => _; first by rewrite upd_sel.
exact: row_op_stE.
Qed.

Lemma ref_step_stE M m h p piv col :
  M < size h ->
  ref_step_st M m (h, p, piv) col
  = (upd h M (ref_step m (sel h M, p, piv) col).1.1,
     (ref_step m (sel h M, p, piv) col).1.2,
     (ref_step m (sel h M, p, piv) col).2).
Proof.
move=> Mh; rewrite /ref_step_st /ref_step /find_pivot_st /find_pivot /getitem_st.
case: ifP => _ /=; first by rewrite upd_sel.
case: (first_index _ _ _) => [pivot|] /=; last by rewrite upd_sel.
set h1 := if _ then _ else h; set M1 := if _ then _ else sel h M.
have h1E : h1 = upd h M M1.
  by rewrite /h1 /M1; case: ifP => _; rewrite ?row_swap_stE ?upd_sel.
have M1E : sel h1 M = M1 by rewrite h1E sel_upd eqxx.
have h1M : M < size h1 by rewrite h1E size_upd.
congr (_, _, _); rewrite M1E.
rewrite (@fold_in_place _ (eliminate_row col p (getitem M1 p col))
           (eliminate_row_st M col p (getitem M1 p col)) M _ _ _ h1M).
  by move=> h' k Mh'; apply: eliminate_row_stE.
by rewrite M1E h1E upd_upd.
Qed.

Arguments ref_step_st : simpl never.
Arguments ref_step : simpl never.

Lemma ref_loop_stE M m cs h p piv :
  M < size h ->
  foldl (ref_step_st M m) (h, p, piv) cs
  = (upd h M (foldl (ref_step m) (sel h M, p, piv) cs).1.1,
     (foldl (ref_step m) (sel h M, p, piv) cs).1.2,
     (foldl (ref_step m) (sel h M, p, piv) cs).2).
Proof.
elim: cs h p piv => [|col cs IH] h p piv Mh /=; first by rewrite upd_sel.
rewrite ref_step_stE //.
case: (ref_step m _ col) => [[M' p'] piv'] /=.
by rewrite IH ?size_upd // sel_upd eqxx upd_upd.
Qed.

Lemma ref_stE h A :
  ref_st h A = (rcons h (ref (sel h A)).1, (size h, (ref (sel h A)).2)).
Proof.
rewrite /ref_st /copy_st /alloc /copy refE /ref_loop.
have sel_new : sel (rcons h (sel h A)) (size h) = sel h A.
  by rewrite sel_rcons ltnn eqxx.
rewrite sel_new.
rewrite ref_loop_stE ?size_rcons //= sel_new.
by case: (foldl _ _ _) => [[M' p'] piv'] /=; rewrite upd_rcons.
Qed.

Lemma sel_cat h junk l : l < size h -> sel (h ++ junk) l = sel h l.
Proof. by move=> lh; rewrite /sel nth_cat lh. Qed.

Lemma is_inconsistent_row_stE h row n_vars :
  row < size h ->
  is_inconsistent_row_st h row n_vars
  = (rcons h (cols_slice (sel h row) n_vars),
     is_inconsistent_row (sel h row) n_vars).
Proof.
move=> rh; rewrite /is_inconsistent_row_st /is_inconsistent_row /alloc.
rewrite /getitem_st !sel_rcons rh ltnn eqxx.
by congr (_, _ && _).
Qed.

Lemma check_rows_st_cons h Ab n_vars i rs :
  check_rows_st h Ab n_vars (i :: rs)
  = let r := is_inconsistent_row_st (rcons h (row_slice (sel h Ab) i))
                                    (size h) n_vars in
    if r.2 then (r.1, true) else check_rows_st r.1 Ab n_vars rs.
Proof. by []. Qed.

Lemma check_rows_stE h Ab n_vars rs :
  Ab < size h ->
  exists junk,
    check_rows_st h Ab n_vars rs
    = (h ++ junk,
       has (fun i => is_inconsistent_row (row_slice (sel h Ab) i) n_vars) rs).
Proof.
elim: rs h => [|i rs IH] h Ah; first by exists [::]; rewrite cats0.
rewrite check_rows_st_cons is_inconsistent_row_stE ?size_rcons //.
rewrite sel_rcons ltnn eqxx [has _ _]/=.
set R := row_slice _ _; set L := cols_slice _ _.
rewrite [let r := _ in _]/=.
case: ifP => _; first by exists [:: R; L]; rewrite -!cats1 -catA.
have Ah2 : Ab < size (rcons (rcons h R) L) by rewrite !size_rcons; nlia.
case: (IH _ Ah2) => junk ->; exists ([:: R; L] ++ junk).
rewrite -!cats1 -!catA /=; congr (_, _).
by apply: eq_has => i'; rewrite (@sel_cat h [:: R; L]).
Qed.

Lemma back_substitution_stE h Ab n_vars :
  Ab < size h ->
  exists junk,
    back_substitution_st h Ab n_vars
    = (h ++ junk, back_substitution (sel h Ab) n_vars).
Proof.
move=> Ah; rewrite /back_substitution_st /back_substitution.
case: ifP => _; first by exists [::]; rewrite cats0.
case: (check_rows_stE n_vars (iota 0 (rows (sel h Ab))) Ah) => junk ->.
by exists junk; case: ifP => // _; rewrite sel_cat.
Qed.

(** C10.  Let the caller's matrix be at location [A] of the store [h].
    After [ref(A)] every matrix of [h], the one at [A] among them, is what
    it was; the matrix returned is at a new location and is the reduced
    copy.  After [back_substitution(A, n_vars)] every matrix of [h] is
    what it was as well, and the outcome is the one computed from the
    value at [A]. *)
Theorem inputs_are_not_mutated (h : store) (A : loc) (n_vars : nat) :
  A < size h ->
  [/\ forall l, l < size h -> sel (ref_st h A).1 l = sel h l,
      ~~ ((ref_st h A).2.1 < size h)
      /\ sel (ref_st h A).1 (ref_st h A).2.1 = (ref (sel h A)).1
      /\ (ref_st h A).2.2 = (ref (sel h A)).2,
      forall l, l < size h -> sel (back_substitution_st h A n_vars).1 l = sel h l
    & (back_substitution_st h A n_vars).2 = back_substitution (sel h A) n_vars].
Proof.
move=> Ah; rewrite ref_stE /=.
case: (back_substitution_stE n_vars Ah) => junk -> /=.
split=> //.
- by move=> l lh; rewrite sel_rcons lh.
- by rewrite ltnn sel_rcons ltnn eqxx.
- by move=> l lh; rewrite sel_cat.
Qed.

(** C10 on a store that holds the matrix [ex1]. *)
Lemma inputs_are_not_mutated_witness :
  0 < size [:: ex1]
  /\ [/\ forall l, l < size [:: ex1] -> sel (ref_st [:: ex1] 0).1 l = sel [:: ex1] l,
         ~~ ((ref_st [:: ex1] 0).2.1 < size [:: ex1])
         /\ sel (ref_st [:: ex1] 0).1 (ref_st [:: ex1] 0).2.1 = (ref (sel [:: ex1] 0)).1
         /\ (ref_st [:: ex1] 0).2.2 = (ref (sel [:: ex1] 0)).2,
         forall l, l < size [:: ex1] ->
           sel (back_substitution_st [:: ex1] 0 2).1 l = sel [:: ex1] l
       & (back_substitution_st [:: ex1] 0 2).2 = back_substitution (sel [:: ex1] 0) 2].
Proof.
have inh : 0 < size [:: ex1] by [].
by split; [exact: inh | exact: (inputs_are_not_mutated 2 inh)].
Defined.

(** ** The matrix [ref] returns is a matrix *)

Lemma well_formed_setitem M i j v :
  well_formed M -> i < rows M -> j < cols M -> well_formed (setitem M i j v).
Proof.
case/andP=> /eqP sz /all_nthP rows_ok im jn.
have row_size r : r < rows M -> size (nth [::] (ent M) r) = cols M.
  by rewrite -sz => rm; apply/eqP; apply: rows_ok.
have sz' : size (ent (setitem M i j v)) = rows M.
  by rewrite /= size_set_nth sz; apply/maxn_idPr.
apply/andP; split; first by rewrite sz'.
apply/(all_nthP [::]) => k; rewrite sz' /= nth_set_nth /= => km.
case: (k =P i) => [_|ki]; last by rewrite row_size.
by rewrite size_set_nth row_size //; apply/eqP/maxn_idPr.
Qed.

Lemma well_formed_fold (T : Type) (step : Matrix -> T -> Matrix) (ok : pred T) M ks :
  (forall M' k, ok k -> well_formed M' -> rows M' = rows M -> cols M' = cols M ->
     [/\ well_formed (step M' k), rows (step M' k) = rows M
       & cols (step M' k) = cols M]) ->
  all ok ks -> well_formed M ->
  [/\ well_formed (foldl step M ks), rows (foldl step M ks) = rows M
    & cols (foldl step M ks) = cols M].
Proof.
move=> step_ok oks wf.
suff: forall M', [/\ well_formed M', rows M' = rows M & cols M' = cols M] ->
        [/\ well_formed (foldl step M' ks), rows (foldl step M' ks) = rows M
          & cols (foldl step M' ks) = cols M].
  by apply.
elim: ks oks => [|k ks IH] //= /andP[okk oks] M' [wf' rM' cM'].
by apply: IH => //; apply: step_ok.
Qed.

Lemma well_formed_row_swap M i j :
  well_formed M -> i < rows M -> j < rows M ->
  [/\ well_formed (row_swap M i j), rows (row_swap M i j) = rows M
    & cols (row_swap M i j) = cols M].
Proof.
move=> wf im jm; apply: (@well_formed_fold _ _ (fun k => k < cols M)) => //.
  move=> M' k kn wf' rM' cM'; split=> //.
  by rewrite !well_formed_setitem //= ?rM' ?cM'.
by apply/allP => k; rewrite mem_iota add0n.
Qed.

Lemma well_formed_row_op M i f :
  well_formed M -> i < rows M ->
  [/\ well_formed (row_op M i f), rows (row_op M i f) = rows M
    & cols (row_op M i f) = cols M].
Proof.
move=> wf im; apply: (@well_formed_fold _ _ (fun k => k < cols M)) => //.
  move=> M' k kn wf' rM' cM'; split=> //.
  by rewrite well_formed_setitem ?rM' ?cM'.
by apply/allP => k; rewrite mem_iota add0n.
Qed.

Lemma well_formed_ref_step m M p piv col :
  well_formed M -> rows M = m ->
  well_formed (ref_step m (M, p, piv) col).1.1.
Proof.
move=> wf rM; rewrite /ref_step; case: leqP => // pm.
rewrite /find_pivot; case: first_indexP => //= pivot pb _ _.
set M1 := if _ then _ else M.
have [wf1 r1 c1] : [/\ well_formed M1, rows M1 = rows M & cols M1 = cols M].
  rewrite /M1; case: ifP => // _; apply: well_formed_row_swap => //; rewrite rM //.
  by nlia.
have [] // := @well_formed_fold _ (eliminate_row col p (getitem M1 p col))
                (fun r => r < m) M1 (iota p.+1 (m - p.+1)).
- move=> M' r rm wf' rM' cM'; rewrite /eliminate_row; case: ifP => // _.
  have rm' : r < rows M' by rewrite rM' r1 rM.
  set f := fun _ _ _ => _.
  by case: (well_formed_row_op f wf' rm') => wf'' -> ->.
- by apply/allP => r; rewrite mem_iota; nlia.
Qed.

(** When the input has as many rows as [rows] says, each with [cols]
    entries, so has the matrix [ref] returns. *)
Lemma ref_well_formed (A : Matrix) : well_formed A -> well_formed (ref A).1.
Proof.
move=> wf; rewrite refE /= /ref_loop.
suff: forall k, k <= cols A ->
        well_formed (foldl (ref_step (rows A)) (A, 0, [::]) (iota 0 k)).1.1.
  by apply.
elim=> [|k IH] kn //; rewrite iotaSr foldl_rcons.
have := ref_loop_prefix_inv (ltnW kn); move/(_ (ltnW kn)): IH.
case: (foldl _ _ _) => [[M p] piv] /= wfM [/= [rM _] _ _ _ _].
exact: well_formed_ref_step.
Qed.

(** ** The solution has one entry for each unknown *)

Lemma size_bind_free_from t s fr x :
  all (fun j => j < size x) fr ->
  size (foldl (fun x' kj => set_nth ezero x' kj.2 (nth ezero t kj.1)) x
              (zip (iota s (size fr)) fr)) = size x.
Proof.
elim: fr s x => [|a fr IH] s x //= /andP[ax frx].
have sz : size (set_nth ezero x a (nth ezero t s)) = size x.
  by rewrite size_set_nth; apply/maxn_idPr.
by rewrite IH sz.
Qed.

Lemma size_back_rows Ab n_vars x rs :
  size x = n_vars -> size (foldl (back_row Ab n_vars) x rs) = n_vars.
Proof.
elim: rs x => [|i rs IH] x //= sz; apply: IH.
rewrite /back_row; case: pivot_scanP => // pc /andP[_ pcn] _ _.
by rewrite size_set_nth sz; apply/maxn_idPr.
Qed.

Lemma size_solution Ab n_vars x free_cols :
  back_substitution Ab n_vars = Returned x free_cols -> size x = n_vars.
Proof.
case: back_substitutionP => // _ _ [<- _]; apply: size_back_rows.
rewrite /initial_solution /bind_free size_bind_free_from size_nseq //.
by apply/allP => j; rewrite mem_free_columns => /andP[].
Qed.

(** * Further properties of [ref] and [back_substitution] *)

(** ** What [ref] keeps and what it returns *)

Lemma ref_dims A : rows (ref A).1 = rows A /\ cols (ref A).1 = cols A.
Proof. by rewrite refE /=; case: (ref_loop_inv A) => -[]. Qed.

Lemma ref_eqmx A :
  (to_mx (rows A) (cols A) (ref A).1 :=: to_mx (rows A) (cols A) A)%MS.
Proof. by rewrite refE /=; apply: ref_loop_prefix_eqmx. Qed.

Lemma ref_is_echelon A : is_echelon (ref A).1.
Proof.
rewrite refE /=; have := ref_loop_inv A.
by case: (ref_loop A) => [[E p] piv]; apply: ref_inv_echelon.
Qed.

Lemma ref_solves A n_vars y :
  cols A = n_vars + 1 -> solves (ref A).1 n_vars y <-> solves A n_vars y.
Proof.
rewrite addn1 => shape; case: (ref_dims A) => rE _.
rewrite (solves_kernel n_vars y rE) (solves_kernel n_vars y (erefl (rows A))).
have := ref_eqmx A; rewrite shape => eqEA.
have /eqmxMunitP[P Pu ->] : (to_mx (rows A) n_vars.+1 (ref A).1
                             == to_mx (rows A) n_vars.+1 A)%MS by apply/eqmxP.
rewrite -mulmxA; split=> [ker|->]; last by rewrite mulmx0.
by apply: (can_inj (mulKmx Pu)); rewrite ker mulmx0.
Qed.

Lemma ref_lead A i :
  i < rows A ->
  lead (ref A).1 i = if i < size (ref A).2 then Some (nth 0 (ref A).2 i) else None.
Proof.
rewrite refE /=; have := ref_loop_inv A.
case: (ref_loop A) => [[E p] piv] /= inv im; rewrite (ref_inv_lead inv) //.
by case: inv => /= _ [-> _].
Qed.

Lemma ref_pivots A :
  [/\ size (ref A).2 <= rows A, sorted ltn (ref A).2
    & all (fun c => c < cols A) (ref A).2].
Proof.
rewrite refE /=; have := ref_loop_inv A.
by case: (ref_loop A) => [[E p] piv] /= [/= _ [-> pm] [srt bnd] _ _].
Qed.

(** ** The solution at values of its parameters *)

Lemma solves_ext M n_vars y y' :
  (forall j, j < n_vars -> nth 0%R y j = nth 0%R y' j) ->
  solves M n_vars y -> solves M n_vars y'.
Proof.
move=> agree sol i im; rewrite -(sol i im).
by apply: eq_big_nat => j /andP[_ jn]; rewrite agree.
Qed.

Lemma nth_solution_at rho x j :
  j < size x -> nth 0%R (solution_at rho x) j = eval rho (nth ezero x j).
Proof. by move=> jx; rewrite (nth_map ezero). Qed.

Lemma solved_sound Ab n_vars x free_cols rho :
  is_echelon Ab -> cols Ab = n_vars + 1 ->
  back_substitution Ab n_vars = Returned x free_cols ->
  solves Ab n_vars (solution_at rho x).
Proof.
move=> ech shape res; have sz := size_solution res.
case: back_substitutionP res sz => // _ good [<- _] sz i im.
have := @back_rows_hold Ab n_vars rho ech shape good
          (initial_solution Ab n_vars) _ _ (add0n _) i.
rewrite /row_holds im => /(_ isT) <-.
by apply: eq_big_nat => j /andP[_ jn]; rewrite nth_solution_at ?sz.
Qed.

Section GeneralSolution.

Variables (Ab : Matrix) (n_vars : nat) (y : seq rat).
Hypothesis ech : is_echelon Ab.
Hypothesis shape : cols Ab = n_vars + 1.
Hypothesis sol : solves Ab n_vars y.

Let rho := parameters_of (free_columns Ab n_vars) y.

Lemma eval_initial_solution j :
  j \in free_columns Ab n_vars ->
  eval rho (nth ezero (initial_solution Ab n_vars) j) = nth 0%R y j.
Proof.
move=> jf; rewrite /initial_solution /bind_free.
rewrite nth_bind_free_from ?free_columns_uniq // jf add0n.
by rewrite /symbols nth_mkseq ?index_mem // eval_symbol /rho /parameters_of nth_index.
Qed.

(** In an echelon matrix a pivot to the right of the pivot of row [k]
    belongs to a row below row [k]. *)
Lemma pivot_right_below k pc i j :
  k < rows Ab -> i < rows Ab ->
  pivot_scan Ab n_vars k = Some pc -> pivot_scan Ab n_vars i = Some j ->
  pc < j -> k < i.
Proof.
move=> km im sk si pcj; case: (ltngtP k i) => // [ik|eq_ki].
  have := @echelon_right_of Ab i k ech; rewrite ik km => /(_ isT).
  rewrite (pivot_scan_lead shape sk) (pivot_scan_lead shape si) /= => jpc.
  by move: (ltn_trans jpc pcj); rewrite ltnn.
by move: si pcj; rewrite -eq_ki sk => -[->]; rewrite ltnn.
Qed.

(** After the rows from [k] on have been visited, the entry of the
    solution at a free column and at the pivot column of a visited row
    has the value that [y] has there. *)
Lemma back_rows_known d k :
  k + d = rows Ab ->
  forall j, j < n_vars ->
    ~~ pivot_column Ab n_vars j
    \/ (exists2 i, k <= i < rows Ab & pivot_scan Ab n_vars i = Some j) ->
    eval rho (nth ezero (foldl (back_row Ab n_vars) (initial_solution Ab n_vars)
                               (rev (iota k d))) j)
    = nth 0%R y j.
Proof.
elim: d k => [|d IH] k kd j jn known.
  rewrite /=; apply: eval_initial_solution; rewrite mem_free_columns jn andbT.
  by case: known => // -[i]; rewrite -kd addn0; case: ltngtP.
have km : k < rows Ab by nlia.
rewrite /= rev_cons foldl_rcons.
have {}IH := IH k.+1 _; rewrite addSnnS in IH; move/(_ kd): IH => IH.
set x' := foldl _ _ _ in IH *.
have below j' : j' < n_vars ->
    ~~ pivot_column Ab n_vars j'
    \/ (exists2 i, k <= i < rows Ab & pivot_scan Ab n_vars i = Some j') ->
    pivot_scan Ab n_vars k != Some j' ->
    eval rho (nth ezero x' j') = nth 0%R y j'.
  move=> j'n [free|[i /andP[ki im] si]] nk; apply: IH => //; first by left.
  right; exists i => //; rewrite im andbT ltn_neqAle ki andbT.
  by apply: contraNneq nk => ->; rewrite si.
rewrite /back_row; case sk: (pivot_scan Ab n_vars k) => [pc|]; last first.
  by apply: below => //; rewrite sk.
rewrite nth_set_nth /=; case: (j =P pc) => [->{j jn known}|/eqP jpc]; last first.
  by apply: below => //; rewrite sk; apply: contra jpc => /eqP[->].
case: pivot_scanP (sk) => // c /andP[_ pcn] nz z [cpc]; move: pcn nz z.
rewrite {c}cpc add0n => pcn nz z.
rewrite eval_simplify eval_escale eval_subtract_known eval_of_rat subnKC //.
have zero j' : j' < pc -> getitem Ab k j' = 0%R.
  by move=> j'pc; apply/eqP; rewrite -[_ == _]negbK; apply: z.
have -> : (\sum_(pc.+1 <= j' < n_vars) getitem Ab k j' * eval rho (nth ezero x' j'))%R
          = (\sum_(pc.+1 <= j' < n_vars) getitem Ab k j' * nth 0 y j')%R.
  apply: eq_big_nat => j' /andP[pcj' j'n]; congr (_ * _)%R.
  apply: below => //; last by rewrite sk; apply/eqP => -[e]; move: pcj'; rewrite e ltnn.
  case pj': (pivot_column Ab n_vars j'); [right|by left].
  case/hasP: pj' => i; rewrite mem_iota add0n /= => im /eqP si.
  exists i => //; rewrite im andbT; apply: ltnW.
  exact: pivot_right_below sk si pcj'.
have pcn' := ltnW pcn.
have := sol km; rewrite (@big_cat_nat _ _ _ pc) //=.
have -> : (\sum_(0 <= j' < pc) getitem Ab k j' * nth 0 y j')%R = 0%R.
  by rewrite big_nat big1 // => j' /andP[_ j'pc]; rewrite zero // mul0r.
by rewrite add0r big_ltn // => <-; field.
Qed.

Lemma solution_is_instance j :
  j < n_vars ->
  eval rho (nth ezero (foldl (back_row Ab n_vars) (initial_solution Ab n_vars)
                             (rev (iota 0 (rows Ab)))) j)
  = nth 0%R y j.
Proof.
move=> jn; apply: back_rows_known => //.
case pj: (pivot_column Ab n_vars j); [right|by left].
by case/hasP: pj => i; rewrite mem_iota add0n /= => im /eqP si; exists i.
Qed.

End GeneralSolution.

Lemma solved_complete Ab n_vars x free_cols y :
  is_echelon Ab -> cols Ab = n_vars + 1 ->
  back_substitution Ab n_vars = Returned x free_cols ->
  solves Ab n_vars y ->
  forall j, j < n_vars ->
    eval (parameters_of free_cols y) (nth ezero x j) = nth 0%R y j.
Proof.
move=> ech shape; case: back_substitutionP => // _ _ [<- <-] sol j jn.
exact: solution_is_instance.
Qed.

(** ** X1: the solution is the general solution *)

(** X1.  Let [Ab] be in echelon form with [n_vars + 1] columns and let
    [back_substitution] return [x] and [free_cols].  A vector [y] of
    rational values of the unknowns solves the system exactly when it is
    the value of [x] for the parameters read off [y] itself, [tk] being
    the entry of [y] at the [k]-th free column: every solution is an
    instance of the returned one, and the free unknowns are its
    parameters. *)
Theorem back_substitution_general_solution (Ab : Matrix) (n_vars : nat)
    (x : seq expr) (free_cols : seq nat) (y : seq rat) :
  is_echelon Ab -> cols Ab = n_vars + 1 ->
  back_substitution Ab n_vars = Returned x free_cols ->
  solves Ab n_vars y
  <-> (forall j, j < n_vars ->
         eval (parameters_of free_cols y) (nth ezero x j) = nth 0%R y j).
Proof.
move=> ech shape res; split=> [sol|inst]; first exact: solved_complete res sol.
apply: (solves_ext _ (solved_sound (parameters_of free_cols y) ech shape res)).
by move=> j jn; rewrite nth_solution_at ?inst // (size_solution res).
Qed.

(** X1 at the system [x0 + x1 = 2, 3 x2 = 6] and the vector [(1, 1, 2)]:
    the solution [(2 - t0, t0, 2)] at [t0 = 1]. *)
Lemma back_substitution_general_solution_witness :
  let x := [:: Affine 2%Q [:: (-1)%Q]; symbol 0; of_rat 2%Q] in
  let y := [:: 1; 1; 2]%Q in
  [/\ is_echelon ex_system, cols ex_system = 3 + 1,
      back_substitution ex_system 3 = Returned x [:: 1]
    & solves ex_system 3 y
      <-> (forall j, j < 3 ->
             eval (parameters_of [:: 1] y) (nth ezero x j) = nth 0%R y j)].
Proof.
have ech : is_echelon ex_system by vm_compute.
have shape : cols ex_system = 3 + 1 by vm_compute.
have res : back_substitution ex_system 3
           = Returned [:: Affine 2%Q [:: (-1)%Q]; symbol 0; of_rat 2%Q] [:: 1].
  by vm_compute.
by split; [exact: ech | exact: shape | exact: res
          | exact: (back_substitution_general_solution _ ech shape res)].
Defined.

(** ** X2, X3: elimination followed by back substitution *)

Lemma inconsistent_row_unsolvable Ab n_vars y :
  has (inconsistent_row Ab n_vars) (iota 0 (rows Ab)) -> ~ solves Ab n_vars y.
Proof.
case/has_inconsistent_rowP => i im [z nz] sol; apply: nz; rewrite -(sol i im).
by rewrite big_nat big1 // => j /andP[_ jn]; rewrite z // mul0r.
Qed.

Lemma ref_solved_sound Ab n_vars x free_cols rho :
  cols Ab = n_vars + 1 ->
  back_substitution (ref Ab).1 n_vars = Returned x free_cols ->
  solves Ab n_vars (solution_at rho x).
Proof.
move=> shape res; apply/(ref_solves _ shape).
apply: solved_sound (ref_is_echelon Ab) _ res.
by case: (ref_dims Ab) => _ ->.
Qed.

(** X2.  Let [Ab] be any matrix with [n_vars + 1] columns, in echelon
    form or not, and let [back_substitution], called on the matrix [ref]
    returns for [Ab], return [x] and [free_cols].  Then [x] is the general
    solution of the system [Ab] itself: at every value of the parameters
    it solves [Ab], and every solution [y] of [Ab] is the value of [x] at
    the parameters read off [y]. *)
Theorem ref_then_back_substitution_solves (Ab : Matrix) (n_vars : nat)
    (x : seq expr) (free_cols : seq nat) :
  cols Ab = n_vars + 1 ->
  back_substitution (ref Ab).1 n_vars = Returned x free_cols ->
  (forall rho, solves Ab n_vars (solution_at rho x))
  /\ (forall y, solves Ab n_vars y ->
        forall j, j < n_vars ->
          nth 0%R y j = eval (parameters_of free_cols y) (nth ezero x j)).
Proof.
move=> shape res; split=> [rho|y sol j jn]; first exact: ref_solved_sound res.
have shapeE : cols (ref Ab).1 = n_vars + 1 by case: (ref_dims Ab) => _ ->.
have solE : solves (ref Ab).1 n_vars y by apply/(ref_solves _ shape).
by rewrite (solved_complete (ref_is_echelon Ab) shapeE res solE).
Qed.

(** X2 at the system [x0 + x1 = 2, x0 + x1 + 3 x2 = 8], whose general
    solution is [(2 - t0, t0, 2)]. *)
Lemma ref_then_back_substitution_solves_witness :
  let x := [:: Affine 2%Q [:: (-1)%Q]; symbol 0; of_rat 2%Q] in
  [/\ cols ex_pipeline = 3 + 1,
      back_substitution (ref ex_pipeline).1 3 = Returned x [:: 1]
    & (forall rho, solves ex_pipeline 3 (solution_at rho x))
      /\ (forall y, solves ex_pipeline 3 y ->
            forall j, j < 3 ->
              nth 0%R y j = eval (parameters_of [:: 1] y) (nth ezero x j))].
Proof.
have shape : cols ex_pipeline = 3 + 1 by vm_compute.
have res : back_substitution (ref ex_pipeline).1 3
           = Returned [:: Affine 2%Q [:: (-1)%Q]; symbol 0; of_rat 2%Q] [:: 1].
  by vm_compute.
by split; [exact: shape | exact: res
          | exact: (ref_then_back_substitution_solves shape res)].
Defined.

(** X3.  For a matrix [Ab] with [n_vars + 1] columns, the call of
    [back_substitution] on the matrix [ref] returns for [Ab] raises the
    error for an inconsistent system exactly when the system [Ab] has no
    solution, and it returns a solution exactly when the system has one. *)
Theorem ref_then_back_substitution_decides (Ab : Matrix) (n_vars : nat) :
  cols Ab = n_vars + 1 ->
  (back_substitution (ref Ab).1 n_vars = Raised (InputError inconsistent)
   <-> (forall y, ~ solves Ab n_vars y))
  /\ (returns_value (back_substitution (ref Ab).1 n_vars)
      <-> exists y, solves Ab n_vars y).
Proof.
move=> shape; have shapeE : cols (ref Ab).1 = n_vars + 1.
  by case: (ref_dims Ab) => _ ->.
case res: (back_substitution _ _) => [x free_cols|e|] /=.
- have sol := ref_solved_sound (fun=> 0%R) shape res.
  split; split=> //; first by move/(_ _ sol).
  by exists (solution_at (fun=> 0%R) x).
- have [-> none] : e = InputError inconsistent /\ forall y, ~ solves Ab n_vars y.
    case: back_substitutionP res => // [/eqP/(_ shapeE) //|_ bad [<-]]; split=> // y.
    by move/(ref_solves _ shape); apply: inconsistent_row_unsolvable.
  by split; split=> // -[y /none].
- by case: back_substitutionP res.
Qed.

(** X3 at the system [x0 + x1 = 2, x0 + x1 = 3]. *)
Lemma ref_then_back_substitution_decides_witness :
  [/\ cols ex_unsolvable = 2 + 1,
      back_substitution (ref ex_unsolvable).1 2 = Raised (InputError inconsistent)
    & (back_substitution (ref ex_unsolvable).1 2 = Raised (InputError inconsistent)
       <-> (forall y, ~ solves ex_unsolvable 2 y))
      /\ (returns_value (back_substitution (ref ex_unsolvable).1 2)
          <-> exists y, solves ex_unsolvable 2 y)].
Proof.
have shape : cols ex_unsolvable = 2 + 1 by vm_compute.
have res : back_substitution (ref ex_unsolvable).1 2
           = Raised (InputError inconsistent).
  by vm_compute.
by split; [exact: shape | exact: res
          | exact: (ref_then_back_substitution_decides shape)].
Defined.

(** ** X4: the number of pivots is the rank *)

Section Staircase.

Variables (m n : nat) (E : 'M[rat]_(m, n)) (piv : seq nat).
Hypothesis size_piv : size piv <= m.
Hypothesis sorted_piv : sorted ltn piv.
Hypothesis pivot_nz :
  forall (i : 'I_m) (j : 'I_n), i < size piv -> j = nth 0 piv i :> nat -> E i j != 0%R.
Hypothesis left_zero :
  forall (i : 'I_m) (j : 'I_n), i < size piv -> j < nth 0 piv i -> E i j = 0%R.
Hypothesis low_zero : forall (i : 'I_m) (j : 'I_n), size piv <= i -> E i j = 0%R.
Hypothesis piv_lt : all (fun c => c < n) piv.

(** The rows after the last pivot row are zero. *)
Lemma staircase_pid : E = (pid_mx (size piv) *m E)%R.
Proof.
apply/matrixP => i j; rewrite mxE (bigD1 i) //=.
have -> : (\sum_(k < m | k != i) (pid_mx (size piv) : 'M_m) i k * E k j)%R = 0%R.
  by apply: big1 => k; rewrite -val_eqE /= => ki; rewrite mxE eq_sym (negbTE ki) mul0r.
rewrite addr0 mxE eqxx /=; case: (ltnP i (size piv)) => ip; first by rewrite mul1r.
by rewrite mul0r low_zero.
Qed.

(** A combination of the rows that is zero takes nothing of a pivot row:
    by induction on the row, at the column of its pivot. *)
Lemma staircase_ker (u : 'rV_m) (i : 'I_m) :
  (u *m E)%R = 0%R -> i < size piv -> u ord0 i = 0%R.
Proof.
move=> uE0; have [k] := ubnP (i : nat); elim: k i => // k IH i /ltnSE-ik ip.
have cn : nth 0 piv i < n by apply: (all_nthP 0 piv_lt).
have := congr1 (fun v : 'rV_n => v ord0 (Ordinal cn)) uE0.
rewrite !mxE (bigD1 i) //=.
have -> : (\sum_(i' < m | i' != i) u ord0 i' * E i' (Ordinal cn))%R = 0%R.
  apply: big1 => i'; rewrite -val_eqE /= => i'i.
  case: (ltngtP i' i) i'i => // [lt_i'i|lt_ii'] _.
    by rewrite IH ?mul0r //; [exact: leq_trans ik | exact: ltn_trans ip].
  case: (ltnP i' (size piv)) => i'p; last by rewrite low_zero ?mulr0.
  rewrite left_zero ?mulr0 //=.
  by apply: (sorted_ltn_nth ltn_trans 0 sorted_piv); rewrite ?inE.
have nz : E i (Ordinal cn) != 0%R by exact: pivot_nz.
by rewrite addr0 => /eqP; rewrite mulf_eq0 (negbTE nz) orbF => /eqP.
Qed.

Lemma staircase_copid (u : 'rV_m) :
  (u *m E)%R = 0%R -> u = (u *m copid_mx (size piv))%R.
Proof.
move=> uE0; apply/rowP => j; rewrite /copid_mx mulmxBr mulmx1 !mxE (bigD1 j) //=.
have -> : (\sum_(k < m | k != j) u ord0 k * (pid_mx (size piv) : 'M_m) k j)%R = 0%R.
  by apply: big1 => k; rewrite -val_eqE /= => kj; rewrite mxE (negbTE kj) mulr0.
rewrite addr0 mxE eqxx /=; case: (ltnP j (size piv)) => jp.
  by rewrite (staircase_ker uE0 jp) mul0r subr0.
by rewrite mulr0 subr0.
Qed.

Lemma rank_staircase : \rank E = size piv.
Proof.
have upper : \rank E <= size piv.
  by rewrite staircase_pid (leq_trans (mxrankM_maxl _ _)) // rank_pid_mx.
have sub : (kermx E <= (copid_mx (size piv) : 'M_m))%MS.
  apply/row_subP => i; rewrite (@staircase_copid (row i (kermx E))) ?submxMl //.
  by rewrite -row_mul mulmx_ker row0.
have := mxrankS sub; rewrite mxrank_ker rank_copid_mx // => lower.
by apply/eqP; rewrite eqn_leq upper /=; move: size_piv (rank_leq_row E) lower; nlia.
Qed.

End Staircase.

Lemma rank_ref A : \rank (to_mx (rows A) (cols A) (ref A).1) = size (ref A).2.
Proof.
rewrite refE /=; have := ref_loop_inv A.
case: (ref_loop A) => [[E p] piv] /= [/= [rE cE] [sz pm] [srt bnd] piv_rows low_rows].
apply: rank_staircase => //.
- by rewrite sz.
- by move=> i j; rewrite sz mxE => ip ->; case: (piv_rows i ip).
- by move=> i j; rewrite sz mxE => ip jc; case: (piv_rows i ip) => _; apply.
- by move=> i j; rewrite sz mxE => ip; apply: low_rows => //; rewrite ip ltn_ord.
Qed.

(** X4.  The number of pivot columns [ref] returns for a matrix [A] is
    the rank of [A]. *)
Theorem pivot_count_is_rank (A : Matrix) :
  size (ref A).2 = \rank (to_mx (rows A) (cols A) A).
Proof. by rewrite -rank_ref (ref_eqmx A). Qed.

(** ** X5: the free columns after [ref] *)

Lemma pivot_scan_consistent M n_vars i :
  cols M = n_vars + 1 -> ~~ inconsistent_row M n_vars i ->
  pivot_scan M n_vars i = lead M i.
Proof.
move=> shape good; case: leadP => [c|z].
  rewrite shape addn1 ltnS leq_eqVlt => /orP[/eqP->|cn] nz z.
    case/negP: good; apply/inconsistent_rowP; split; last exact/eqP.
    exact: z.
  by apply: first_index_some => //= c' c'c; rewrite z ?eqxx.
apply: first_index_none => c; rewrite add0n /= => cn.
by rewrite z ?eqxx // shape addn1 ltnW.
Qed.

Section RefPivots.

Variables (Ab : Matrix) (n_vars : nat).
Hypothesis shape : cols Ab = n_vars + 1.
Hypothesis consistent :
  ~~ has (inconsistent_row (ref Ab).1 n_vars) (iota 0 (rows Ab)).

Lemma ref_pivot_scan i :
  i < rows Ab ->
  pivot_scan (ref Ab).1 n_vars i
  = if i < size (ref Ab).2 then Some (nth 0 (ref Ab).2 i) else None.
Proof.
move=> im; rewrite -ref_lead //; apply: pivot_scan_consistent.
  by case: (ref_dims Ab) => _ ->.
by move/hasPn: consistent; apply; rewrite mem_iota.
Qed.

Lemma ref_pivot_column j : pivot_column (ref Ab).1 n_vars j = (j \in (ref Ab).2).
Proof.
case: (ref_pivots Ab) => pm _ _; case: (ref_dims Ab) => rE _.
rewrite /pivot_column rE; apply/hasP/idP => [[i]|jp].
  rewrite mem_iota add0n /= => im; rewrite ref_pivot_scan //.
  by case: ifP => // ip /eqP[<-]; apply: mem_nth.
exists (index j (ref Ab).2).
  by rewrite mem_iota add0n /=; apply: leq_trans pm; rewrite index_mem.
rewrite ref_pivot_scan ?index_mem ?jp ?nth_index //.
by apply: leq_trans pm; rewrite index_mem.
Qed.

Lemma ref_pivots_unknowns : all (fun c => c < n_vars) (ref Ab).2.
Proof.
case: (ref_pivots Ab) => pm _ _.
apply/allP => c cp; have ip : index c (ref Ab).2 < size (ref Ab).2 by rewrite index_mem.
have im : index c (ref Ab).2 < rows Ab by exact: leq_trans pm.
have := ref_pivot_scan im; rewrite ip nth_index //.
by case: pivot_scanP => // c' /andP[_ c'n] _ _ [<-].
Qed.

Lemma size_ref_free_columns :
  size [seq j <- iota 0 n_vars | j \notin (ref Ab).2] + size (ref Ab).2 = n_vars.
Proof.
case: (ref_pivots Ab) => _ srt _.
have upiv : uniq (ref Ab).2 by exact: sorted_uniq ltn_trans ltnn _ srt.
have <- : size [seq j <- iota 0 n_vars | j \in (ref Ab).2] = size (ref Ab).2.
  apply/perm_size/uniq_perm => //; first by rewrite filter_uniq ?iota_uniq.
  move=> c; rewrite mem_filter mem_iota add0n /= andb_idr // => cp.
  exact: (allP ref_pivots_unknowns).
rewrite !size_filter.
by rewrite addnC (count_predC (mem (ref Ab).2) (iota 0 n_vars)) size_iota.
Qed.

End RefPivots.

(** X5.  Let [Ab] have [n_vars + 1] columns and let [back_substitution],
    called on the matrix [ref] returns for [Ab], return [free_cols].  The
    pivot columns of [ref] are columns of unknowns, the free columns are
    the columns of unknowns that are none of them, and there are as many
    free columns as there are unknowns beyond the rank of [Ab]. *)
Theorem free_columns_after_ref (Ab : Matrix) (n_vars : nat)
    (x : seq expr) (free_cols : seq nat) :
  cols Ab = n_vars + 1 ->
  back_substitution (ref Ab).1 n_vars = Returned x free_cols ->
  [/\ all (fun c => c < n_vars) (ref Ab).2,
      free_cols = [seq j <- iota 0 n_vars | j \notin (ref Ab).2]
    & size free_cols + \rank (to_mx (rows Ab) (cols Ab) Ab) = n_vars].
Proof.
move=> shape; case: (ref_dims Ab) => rE cE.
case: back_substitutionP => // _; rewrite rE => good [_ <-].
have free : free_columns (ref Ab).1 n_vars
            = [seq j <- iota 0 n_vars | j \notin (ref Ab).2].
  by apply: eq_filter => j; rewrite ref_pivot_column.
split=> //; first exact: ref_pivots_unknowns.
by rewrite free -(ref_eqmx Ab) rank_ref; apply: size_ref_free_columns.
Qed.

(** X5 at the system [x0 + x1 = 2, x0 + x1 + 3 x2 = 8]: pivot columns 0
    and 2, free column 1, rank 2. *)
Lemma free_columns_after_ref_witness :
  let x := [:: Affine 2%Q [:: (-1)%Q]; symbol 0; of_rat 2%Q] in
  let free_cols := [:: 1] in
  [/\ cols ex_pipeline = 3 + 1,
      back_substitution (ref ex_pipeline).1 3 = Returned x free_cols,
      (ref ex_pipeline).2 = [:: 0; 2]
    & [/\ all (fun c => c < 3) (ref ex_pipeline).2,
          free_cols = [seq j <- iota 0 3 | j \notin (ref ex_pipeline).2]
        & size free_cols
          + \rank (to_mx (rows ex_pipeline) (cols ex_pipeline) ex_pipeline) = 3]].
Proof.
have shape : cols ex_pipeline = 3 + 1 by vm_compute.
have res : back_substitution (ref ex_pipeline).1 3
           = Returned [:: Affine 2%Q [:: (-1)%Q]; symbol 0; of_rat 2%Q] [:: 1].
  by vm_compute.
have piv : (ref ex_pipeline).2 = [:: 0; 2] by vm_compute.
by split; [exact: shape | exact: res | exact: piv
          | exact: (free_columns_after_ref shape res)].
Defined.

(** ** X6, X7: the parameters in the solution *)

Lemma size_sub_coefs a b : size (sub_coefs a b) = maxn (size a) (size b).
Proof.
elim: a b => [|x a IH] [|y b] //=; first by rewrite size_map max0n.
by rewrite IH maxnSS.
Qed.

Lemma size_trim s : size (trim s) <= size s.
Proof. by elim: s => [|a s IH] //=; case: ifP. Qed.

Lemma eval_coefs_agree rho rho' K k s :
  (forall i, i < K -> rho i = rho' i) -> k + size s <= K ->
  eval_coefs rho k s = eval_coefs rho' k s.
Proof.
move=> agree; elim: s k => [|a s IH] k //=; rewrite addnS => bound.
by rewrite agree ?IH // -?addSn //; apply: leq_trans bound; rewrite ltnS leq_addr.
Qed.

Section Symbols.

Variables (Ab : Matrix) (n_vars K : nat).

(** No entry of the solution [x] mentions a symbol from [tK] on. *)
Let small (x : seq expr) := forall j, size (coefs (nth ezero x j)) <= K.

Lemma small_subtract_known i x rhs js :
  small x -> size (coefs rhs) <= K ->
  size (coefs (foldl (subtract_known Ab i x) rhs js)) <= K.
Proof.
move=> sx; elim: js rhs => [|j js IH] rhs //= sr; apply: IH.
rewrite /subtract_known /=; apply: leq_trans (size_trim _) _.
by rewrite size_sub_coefs size_map geq_max sr sx.
Qed.

Lemma small_back_row x i : small x -> small (back_row Ab n_vars x i).
Proof.
move=> sx; rewrite /back_row; case: (pivot_scan Ab n_vars i) => [pc|] // j.
rewrite nth_set_nth /=; case: eqP => // _.
apply: leq_trans (size_trim _) _; rewrite /= size_map.
exact: small_subtract_known.
Qed.

Lemma small_back_rows x rs : small x -> small (foldl (back_row Ab n_vars) x rs).
Proof. by elim: rs x => [|i rs IH] x //= sx; apply/IH/small_back_row. Qed.

Lemma small_initial_solution :
  K = size (free_columns Ab n_vars) -> small (initial_solution Ab n_vars).
Proof.
move=> eqK j; rewrite eqK /initial_solution /bind_free.
rewrite nth_bind_free_from ?free_columns_uniq // add0n.
case: ifP => [jf|_]; last by rewrite nth_nseq if_same.
by rewrite /symbols nth_mkseq ?index_mem //= size_rcons size_nseq index_mem.
Qed.

End Symbols.

Lemma solution_symbols Ab n_vars x free_cols j :
  back_substitution Ab n_vars = Returned x free_cols ->
  size (coefs (nth ezero x j)) <= size free_cols.
Proof.
case: back_substitutionP => // _ _ [<- <-].
by apply: small_back_rows; apply: small_initial_solution.
Qed.

(** X6.  Whatever the matrix, when [back_substitution] returns [x] and
    [free_cols], the entries of [x] mention no parameter but
    [t0, ..., t(k-1)], where [k] is the number of free columns: no entry
    has a coefficient for a later symbol, and the value of an entry
    depends on the values of these [k] parameters only. *)
Theorem solution_mentions_its_parameters (Ab : Matrix) (n_vars : nat)
    (x : seq expr) (free_cols : seq nat) :
  back_substitution Ab n_vars = Returned x free_cols ->
  (forall j, size (coefs (nth ezero x j)) <= size free_cols)
  /\ (forall rho rho' : nat -> rat,
        (forall k, k < size free_cols -> rho k = rho' k) ->
        forall j, eval rho (nth ezero x j) = eval rho' (nth ezero x j)).
Proof.
move=> res; split=> [j|rho rho' agree j]; first exact: solution_symbols res.
by rewrite /eval (eval_coefs_agree agree) // add0n (solution_symbols _ res).
Qed.

(** X6 at the system [x0 + x1 = 2] in three unknowns, whose solution
    [(2 - t0, t0, t1)] has the two parameters of its two free columns. *)
Lemma solution_mentions_its_parameters_witness :
  let x := [:: Affine 2%Q [:: (-1)%Q]; symbol 0; symbol 1] in
  let free_cols := [:: 1; 2] in
  back_substitution ex3 3 = Returned x free_cols
  /\ ((forall j, size (coefs (nth ezero x j)) <= size free_cols)
      /\ (forall rho rho' : nat -> rat,
            (forall k, k < size free_cols -> rho k = rho' k) ->
            forall j, eval rho (nth ezero x j) = eval rho' (nth ezero x j))).
Proof.
have res : back_substitution ex3 3
           = Returned [:: Affine 2%Q [:: (-1)%Q]; symbol 0; symbol 1] [:: 1; 2].
  by vm_compute.
by split; [exact: res | exact: (solution_mentions_its_parameters res)].
Defined.

Lemma eval_constant rho e : nilp (coefs e) -> eval rho e = const e.
Proof. by rewrite /eval; case: (coefs e) => //= _; rewrite addr0. Qed.

(** X7.  Let [Ab] be in echelon form with [n_vars + 1] columns and let
    [back_substitution] return [x] and no free column.  Then every entry
    of [x] is a rational number, and the system has exactly one solution:
    a vector solves it exactly when its entries are those numbers. *)
Theorem unique_solution_without_free_columns (Ab : Matrix) (n_vars : nat)
    (x : seq expr) :
  is_echelon Ab -> cols Ab = n_vars + 1 ->
  back_substitution Ab n_vars = Returned x [::] ->
  all (fun e => nilp (coefs e)) x
  /\ (forall y, solves Ab n_vars y
        <-> (forall j, j < n_vars -> nth 0%R y j = const (nth ezero x j))).
Proof.
move=> ech shape res.
have constant j : nilp (coefs (nth ezero x j)).
  by rewrite /nilp -leqn0; apply: solution_symbols res.
split=> [|y]; first by apply/(all_nthP ezero) => j _.
split=> [sol j jn|val].
  by rewrite -(solved_complete ech shape res sol jn) eval_constant.
apply: (solves_ext _ (solved_sound (fun=> 0%R) ech shape res)) => j jn.
by rewrite nth_solution_at ?(size_solution res) // eval_constant ?val.
Qed.

(** X7 at the system [2 x0 = 4, 3 x1 = 9], whose solution is [(2, 3)]. *)
Lemma unique_solution_without_free_columns_witness :
  let x := [:: of_rat 2%Q; of_rat 3%Q] in
  [/\ is_echelon ex2, cols ex2 = 2 + 1, back_substitution ex2 2 = Returned x [::]
    & all (fun e => nilp (coefs e)) x
      /\ (forall y, solves ex2 2 y
            <-> (forall j, j < 2 -> nth 0%R y j = const (nth ezero x j)))].
Proof.
have ech : is_echelon ex2 by vm_compute.
have shape : cols ex2 = 2 + 1 by vm_compute.
have res : back_substitution ex2 2 = Returned [:: of_rat 2%Q; of_rat 3%Q] [::].
  by vm_compute.
by split; [exact: ech | exact: shape | exact: res
          | exact: (unique_solution_without_free_columns ech shape res)].
Defined.

(** ** X8: [ref] applied twice *)

Lemma leads_pivots M p piv :
  size piv = p -> p <= rows M ->
  (forall i, i < rows M -> lead M i = if i < p then Some (nth 0 piv i) else None) ->
  leading_cols M = piv.
Proof.
move=> sz pm lead_of; rewrite /leading_cols.
have -> : leads M = map Some piv ++ nseq (rows M - p) None.
  apply: (@eq_from_nth _ None).
    by rewrite size_leads size_cat size_map size_nseq sz subnKC.
  move=> i; rewrite size_leads => im; rewrite nth_leads // nth_cat size_map sz.
  rewrite lead_of //; case: (ltnP i p) => ip; first by rewrite (nth_map 0) ?sz.
  by rewrite nth_nseq if_same.
by rewrite pmap_cat pmap_id_some pmap_id_none cats0.
Qed.

Lemma ref_leading_cols A : leading_cols (ref A).1 = (ref A).2.
Proof.
case: (ref_pivots A) => pm _ _; case: (ref_dims A) => rE _.
by apply: (@leads_pivots _ (size (ref A).2)); rewrite ?rE // => i; apply: ref_lead.
Qed.

(** The loop of [ref] on a matrix in echelon form leaves the matrix as it
    is and collects the columns of its leading entries. *)
Lemma ref_loop_echelon A :
  is_echelon A -> ref_loop A = (A, size (leading_cols A), leading_cols A).
Proof.
move=> ech; rewrite /ref_loop.
have := ech_loop_prefix_inv ech (leqnn (cols A)).
case: (foldl _ _ _) => [[M p] piv] [/= -> [sz pm] found at_cursor].
suff -> : leading_cols A = piv by rewrite sz.
apply: (leads_pivots sz pm) => i im.
case: (ltnP i p) => ip; first exact: found.
have pm' : p < rows A by exact: leq_ltn_trans im.
have : lead_ge A i (cols A).
  by apply: echelon_lead_ge (at_cursor pm') => //; rewrite ip.
rewrite /lead_ge; case: leadP => [c cn _ _ nc|//].
by move: cn; rewrite ltnNge nc.
Qed.

(** X8.  [ref] is idempotent: applied to the matrix it has returned for
    any matrix [A], it returns that matrix and the same pivot columns
    again. *)
Theorem ref_is_idempotent (A : Matrix) : ref (ref A).1 = ref A.
Proof.
rewrite [LHS]refE (ref_loop_echelon (ref_is_echelon A)) /= ref_leading_cols.
by case: (ref A).
Qed.

(** ** X9: the matrix [ref] returns is upper triangular *)

Lemma sorted_ltn_nth_ge (s : seq nat) i : sorted ltn s -> i < size s -> i <= nth 0 s i.
Proof.
move=> srt; elim: i => [|i IH] // isz.
by apply: leq_ltn_trans (IH (ltnW isz)) _; apply: (sortedP 0 srt).
Qed.

(** X9.  In the matrix [ref] returns, every entry below the diagonal is
    exactly zero: the pivot of row [i] is in column [i] or to its right. *)
Theorem ref_is_upper_triangular (A : Matrix) (i j : nat) :
  i < rows A -> j < cols A -> j < i -> getitem (ref A).1 i j = 0%R.
Proof.
move=> im jn ji; case: (ref_pivots A) => _ srt _; case: (ref_dims A) => _ cE.
have := ref_lead im; case: leadP => [c _ _ z|z _]; last by apply: z; rewrite cE.
case: ifP => // ip [cE']; apply: z; rewrite cE'.
exact: leq_trans ji (sorted_ltn_nth_ge srt ip).
Qed.

(** X9 at the entry of row 1 and column 0 of the matrix [ref] returns for
    [[0, 2, 4], [1, 1, 1], [2, 4, 7]]. *)
Lemma ref_is_upper_triangular_witness :
  [/\ 1 < rows ex1, 0 < cols ex1, 0 < 1 & getitem (ref ex1).1 1 0 = 0%R].
Proof.
have im : 1 < rows ex1 by [].
have jn : 0 < cols ex1 by [].
have ji : 0 < 1 by [].
by split; [exact: im | exact: jn | exact: ji
          | exact: (ref_is_upper_triangular im jn ji)].
Defined.

(** ** X10: a square matrix is invertible when every column has a pivot *)

(** X10.  A square matrix [A] is invertible exactly when [ref] returns as
    many pivot columns for it as it has columns. *)
Theorem full_pivots_iff_invertible (A : Matrix) :
  rows A = cols A ->
  (to_mx (cols A) (cols A) A \in unitmx) = (size (ref A).2 == cols A).
Proof.
move=> sq; rewrite -row_free_unit /row_free -rank_ref.
by have := ref_eqmx A; rewrite sq => ->.
Qed.

(** X10 at the matrix [[0, 2, 4], [1, 1, 1], [2, 4, 7]], for which [ref]
    returns the pivot columns 0, 1 and 2. *)
Lemma full_pivots_iff_invertible_witness :
  [/\ rows ex1 = cols ex1, (ref ex1).2 = [:: 0; 1; 2]
    & (to_mx (cols ex1) (cols ex1) ex1 \in unitmx) = (size (ref ex1).2 == cols ex1)].
Proof.
have sq : rows ex1 = cols ex1 by [].
have piv : (ref ex1).2 = [:: 0; 1; 2] by vm_compute.
by split; [exact: sq | exact: piv | exact: (full_pivots_iff_invertible sq)].
Defined.

(** ** X11: the shape of what [back_substitution] returns *)

(** X11.  When [back_substitution] returns [x] and [free_cols], the
    solution [x] has one entry for each of the [n_vars] unknowns, and the
    free columns are columns of unknowns, each listed once. *)
Theorem solution_has_one_entry_per_unknown (Ab : Matrix) (n_vars : nat)
    (x : seq expr) (free_cols : seq nat) :
  back_substitution Ab n_vars = Returned x free_cols ->
  [/\ size x = n_vars, all (fun j => j < n_vars) free_cols & uniq free_cols].
Proof.
move=> res; split; first exact: size_solution res.
  case: back_substitutionP res => // _ _ [_ <-].
  by apply/allP => j; rewrite mem_free_columns => /andP[].
by case: back_substitutionP res => // _ _ [_ <-]; apply: free_columns_uniq.
Qed.

(** X11 at the system [x0 + x1 = 2] in three unknowns. *)
Lemma solution_has_one_entry_per_unknown_witness :
  let x := [:: Affine 2%Q [:: (-1)%Q]; symbol 0; symbol 1] in
  let free_cols := [:: 1; 2] in
  back_substitution ex3 3 = Returned x free_cols
  /\ [/\ size x = 3, all (fun j => j < 3) free_cols & uniq free_cols].
Proof.
have res : back_substitution ex3 3
           = Returned [:: Affine 2%Q [:: (-1)%Q]; symbol 0; symbol 1] [:: 1; 2].
  by vm_compute.
by split; [exact: res | exact: (solution_has_one_entry_per_unknown res)].
Defined.

(** ** X20, X21: a matrix of zeros and a system without equations *)

Lemma sorted_right_of_none k : sorted right_of (nseq k (@None nat)).
Proof. by case: k => [|k] //=; elim: k => [|k IH]. Qed.

Lemma zero_leads A :
  (forall i j, i < rows A -> j < cols A -> getitem A i j = 0%R) ->
  leads A = nseq (rows A) None.
Proof.
move=> zero; apply: (@eq_from_nth _ None); first by rewrite size_leads size_nseq.
move=> i; rewrite size_leads => im; rewrite nth_leads // nth_nseq im.
by apply: first_index_none => c; rewrite add0n /= => cn; rewrite zero ?eqxx.
Qed.

(** X20.  [ref] returns a matrix whose entries are all zero as it is, with
    no pivot column; so it does a matrix without rows and a matrix
    without columns. *)
Theorem ref_of_zero_matrix (A : Matrix) :
  (forall i j, i < rows A -> j < cols A -> getitem A i j = 0%R) ->
  ref A = (A, [::]).
Proof.
move=> zero; have leadsE := zero_leads zero.
have ech : is_echelon A by rewrite /is_echelon leadsE; apply: sorted_right_of_none.
by rewrite refE (ref_loop_echelon ech) /= /leading_cols leadsE pmap_id_none.
Qed.

(** X20 at the matrix of two rows and two columns of zeros, and at the
    matrix without rows. *)
Lemma ref_of_zero_matrix_witness :
  let Z := Matrix_of_rows [:: [:: 0; 0]; [:: 0; 0]]%Q in
  [/\ forall i j, i < rows Z -> j < cols Z -> getitem Z i j = 0%R,
      ref Z = (Z, [::])
    & ref empty_matrix = (empty_matrix, [::])].
Proof.
have zero : forall i j, i < rows (Matrix_of_rows [:: [:: 0; 0]; [:: 0; 0]]%Q) ->
              j < cols (Matrix_of_rows [:: [:: 0; 0]; [:: 0; 0]]%Q) ->
              getitem (Matrix_of_rows [:: [:: 0; 0]; [:: 0; 0]]%Q) i j = 0%R.
  by case=> [|[|i]] // [|[|j]].
by split; [exact: zero | exact: (ref_of_zero_matrix zero) | vm_compute].
Defined.

Lemma back_rows_id Ab n_vars x rs :
  (forall i, i \in rs -> pivot_scan Ab n_vars i = None) ->
  foldl (back_row Ab n_vars) x rs = x.
Proof.
elim: rs x => [|i rs IH] x //= none.
rewrite /back_row none ?mem_head //; apply: IH => i' i'rs.
by apply: none; rewrite in_cons i'rs orbT.
Qed.

Lemma bind_free_all n : bind_free (symbols n) (iota 0 n) (nseq n ezero) = symbols n.
Proof.
have sz : size (bind_free (symbols n) (iota 0 n) (nseq n ezero)) = n.
  rewrite /bind_free size_bind_free_from size_nseq //.
  by apply/allP => j; rewrite mem_iota.
apply: (@eq_from_nth _ ezero); first by rewrite sz size_mkseq.
move=> j; rewrite sz => jn.
rewrite /bind_free nth_bind_free_from ?iota_uniq // mem_iota add0n jn /= add0n.
have -> : index j (iota 0 n) = j.
  by rewrite -{1}[j]add0n -(nth_iota 0 0 jn) index_uniq ?size_iota ?iota_uniq.
by rewrite /symbols nth_mkseq.
Qed.

(** X21.  On a matrix of [n_vars + 1] columns whose entries are all zero,
    and so on a system without equations, [back_substitution] returns the
    solution in which every unknown is its own parameter,
    [(t0, ..., t(n_vars - 1))], and every column as a free column. *)
Theorem back_substitution_without_equations (Ab : Matrix) (n_vars : nat) :
  cols Ab = n_vars + 1 ->
  (forall i j, i < rows Ab -> j < cols Ab -> getitem Ab i j = 0%R) ->
  back_substitution Ab n_vars = Returned (symbols n_vars) (iota 0 n_vars).
Proof.
move=> shape zero.
have scan i : i < rows Ab -> pivot_scan Ab n_vars i = None.
  move=> im; apply: first_index_none => c; rewrite add0n /= => cn.
  by rewrite zero ?eqxx // shape addn1 ltnW.
have free : free_columns Ab n_vars = iota 0 n_vars.
  apply/all_filterP/allP => j _; apply/hasPn => i.
  by rewrite mem_iota add0n /= => /scan ->.
case: back_substitutionP => [/eqP //|_ /hasP[i]|_ _].
  rewrite mem_iota add0n /= => im /andP[_].
  by rewrite zero ?eqxx // shape addn1.
have none i : i \in rev (iota 0 (rows Ab)) -> pivot_scan Ab n_vars i = None.
  by rewrite mem_rev mem_iota add0n /=; apply: scan.
by rewrite (back_rows_id _ none) /initial_solution free size_iota bind_free_all.
Qed.

(** X21 at the system without equations in two unknowns. *)
Lemma back_substitution_without_equations_witness :
  let Ab := MkMatrix 0 3 [::] in
  [/\ cols Ab = 2 + 1,
      forall i j, i < rows Ab -> j < cols Ab -> getitem Ab i j = 0%R
    & back_substitution Ab 2 = Returned [:: symbol 0; symbol 1] [:: 0; 1]].
Proof.
have shape : cols (MkMatrix 0 3 [::]) = 2 + 1 by [].
have zero : forall i j, i < rows (MkMatrix 0 3 [::]) -> j < cols (MkMatrix 0 3 [::]) ->
              getitem (MkMatrix 0 3 [::]) i j = 0%R.
  by [].
by split; [exact: shape | exact: zero
          | exact: (back_substitution_without_equations shape zero)].
Defined.

(** * Properties of the routines that read the input *)

(** ** The routines on concrete inputs *)

(** Commas and blanks separate the numbers of a row. *)
Example parse_row_ex :
  parse_row unsigned_literal (text " 1, 2 ,,3  ") 3 = Ok [:: 1; 2; 3]%Q.
Proof. by vm_compute. Qed.

Example parse_row_ex_count :
  parse_row unsigned_literal (text "1 2") 3
  = Err (InputError "Expected 3 numbers, got 2.").
Proof. by vm_compute. Qed.

Example parse_row_ex_refused :
  parse_row unsigned_literal (text "1 x 3") 3
  = Err (InputError "Could not parse 'x'. Use e.g. 3, -2, 1/4, 0.5").
Proof. by vm_compute. Qed.

(** The line [two] is refused, the line [2] is read, and two lines are
    left. *)
Example read_int_ex :
  read_int 4300 "n: " 1 30 ex_terminal
  = (Ok 2, Console [:: text "40"; text "7"]
                   [:: Prompted "n: "; Printed positive_integer; Prompted "n: "]).
Proof. by vm_compute. Qed.

Example read_int_ex_quit :
  read_int 4300 "n: " 1 30 (Console [:: text " QuIt "; text "5"] [::])
  = (Err KeyboardInterrupt, Console [:: text "5"] [:: Prompted "n: "]).
Proof. by vm_compute. Qed.

(** A superscript two passes the test [isdigit], and [int] refuses it. *)
Example read_int_ex_superscript :
  read_int 4300 "n: " 1 30 (Console [:: [:: Ascii.ascii_of_nat 178]] [::])
  = (Err ValueError, Console [::] [:: Prompted "n: "]).
Proof. by vm_compute. Qed.

(** Two rows of three numbers; the line [0] is refused and the second row
    is asked for again. *)
Example read_augmented_matrix_ex :
  (read_augmented_matrix unsigned_literal 2 2
     (Console [:: text "1 2 3"; text "0"; text " 0,1, 2 "; text "5"] [::])).1
  = Ok (Matrix_of_rows [:: [:: 1; 2; 3]; [:: 0; 1; 2]]%Q).
Proof. by vm_compute. Qed.

(** ** Splitting a row into its parts *)

Lemma split_fromE tok s : split_from tok s = fields isspace tok s.
Proof. by elim: s tok => [|c s IH] tok //=; rewrite !IH. Qed.

Lemma isspace_space : isspace space.
Proof. by []. Qed.

Lemma separator_space c : isspace c -> separator c.
Proof. by rewrite /separator => ->. Qed.

Lemma isspace_replace c : isspace (if c == comma then space else c) = separator c.
Proof.
by rewrite /separator; case: eqP => [->|_]; rewrite ?isspace_space ?orbT ?orbF.
Qed.

Lemma fields_replace tok s :
  fields isspace tok (replace comma space s) = fields separator tok s.
Proof.
elim: s tok => [|c s IH] tok //=; rewrite isspace_replace !IH.
by case sc: (separator c) => //; move: sc; rewrite /separator; case: eqP; rewrite ?orbT.
Qed.

Section Fields.

Variable sep : pred Ascii.ascii.

Lemma fields_cut tok s1 c s2 :
  sep c -> fields sep tok (s1 ++ c :: s2) = fields sep tok s1 ++ fields sep [::] s2.
Proof.
move=> sc; elim: s1 tok => [|a s1 IH] tok /=; first by rewrite sc; case: ifP.
by case: ifP => _; rewrite !IH //; case: ifP.
Qed.

Lemma fields_token tok p :
  ~~ has sep p -> fields sep tok p = if nilp (tok ++ p) then [::] else [:: tok ++ p].
Proof.
elim: p tok => [|c p IH] tok /=; first by rewrite cats0.
by rewrite negb_or => /andP[/negbTE-> np]; rewrite IH // cat_rcons.
Qed.

Lemma fields_tokens tok s :
  ~~ has sep tok ->
  all (fun p => (p != [::]) && ~~ has sep p) (fields sep tok s).
Proof.
elim: s tok => [|c s IH] tok /= nt.
  by case: tok nt => [|a tok] //= ->.
case sc: (sep c); last by apply: IH; rewrite has_rcons sc.
by case: tok nt => [|a tok] /= nt; rewrite ?IH //= nt.
Qed.

Lemma fields_seps tok ws : all sep ws -> fields sep tok ws = fields sep tok [::].
Proof.
elim: ws tok => [|c ws IH] tok //= /andP[-> ws_sep].
by rewrite IH //; case: ifP.
Qed.

Lemma fields_lead ws s : all sep ws -> fields sep [::] (ws ++ s) = fields sep [::] s.
Proof. by elim: ws => [|c ws IH] //= /andP[-> /IH]. Qed.

Lemma fields_trail tok s ws :
  all sep ws -> fields sep tok (s ++ ws) = fields sep tok s.
Proof.
move=> ws_sep; elim: s tok => [|c s IH] tok /=; first exact: fields_seps.
by rewrite !IH.
Qed.

End Fields.

(** ** What [strip] takes away *)

Lemma lstripP s : exists2 ws, all isspace ws & s = ws ++ lstrip s.
Proof.
elim: s => [|c s [ws ws_sp eq_s]] /=; first by exists [::].
case sc: (isspace c); first by exists (c :: ws); rewrite /= ?sc // -eq_s.
by exists [::].
Qed.

Lemma stripP s :
  exists ws1 ws2, [/\ all isspace ws1, all isspace ws2 & s = ws1 ++ strip s ++ ws2].
Proof.
case: (lstripP s) => ws1 sp1 eq1; case: (lstripP (rev (lstrip s))) => ws2 sp2 eq2.
exists ws1, (rev ws2); split=> //; first by rewrite all_rev.
by rewrite /strip -rev_cat -eq2 revK.
Qed.

Lemma strip_token p : ~~ has isspace p -> strip p = p.
Proof.
have lstrip_token q : ~~ has isspace q -> lstrip q = q.
  by case: q => [|c q] //=; rewrite negb_or => /andP[/negbTE->].
by move=> np; rewrite /strip !lstrip_token ?revK // has_rev.
Qed.

Lemma lstrip_spaces ws s : all isspace ws -> lstrip (ws ++ s) = lstrip s.
Proof. by elim: ws => [|c ws IH] //= /andP[-> /IH]. Qed.

Lemma lstrip_cat s u : lstrip s != [::] -> lstrip (s ++ u) = lstrip s ++ u.
Proof. by elim: s => [|c s IH] //=; case: ifP. Qed.

Lemma lstrip_all_spaces ws : all isspace ws -> lstrip ws = [::].
Proof. by move=> sp; rewrite -[ws]cats0 lstrip_spaces. Qed.

Lemma strip_spaces ws s ws' :
  all isspace ws -> all isspace ws' -> strip (ws ++ s ++ ws') = strip s.
Proof.
move=> sp sp'; rewrite /strip lstrip_spaces //.
case: (lstrip s =P [::]) => [e|/eqP ne].
  rewrite e; case: (lstripP s) => ws1 sp1; rewrite e cats0 => ->.
  have sp1' : all isspace (ws1 ++ ws') by rewrite all_cat sp1.
  by rewrite (lstrip_all_spaces sp1').
by rewrite lstrip_cat // rev_cat lstrip_spaces // all_rev.
Qed.

Lemma strip_all_spaces ws : all isspace ws -> strip ws = [::].
Proof. by move=> sp; rewrite /strip (lstrip_all_spaces sp). Qed.

(** ** The parts of a row *)

Lemma filter_tokens s :
  [seq p <- fields isspace [::] s | strip p != [::]] = fields isspace [::] s.
Proof.
apply/all_filterP.
apply: sub_all (fields_tokens (sep := isspace) s (isT : ~~ has isspace [::])).
by move=> p /andP[ne np]; rewrite strip_token.
Qed.

Lemma partsE row_text : parts row_text = fields separator [::] row_text.
Proof.
rewrite /parts /split split_fromE filter_tokens fields_replace.
case: (stripP row_text) => ws1 [ws2 [sp1 sp2 {2}->]].
have sep1 : all separator ws1 by apply: sub_all sp1; exact: separator_space.
have sep2 : all separator ws2 by apply: sub_all sp2; exact: separator_space.
by rewrite fields_lead ?fields_trail.
Qed.

Lemma parts_tokens row_text :
  all (fun p => (p != [::]) && ~~ has isspace p) (parts row_text).
Proof.
rewrite partsE.
apply: sub_all (fields_tokens row_text (isT : ~~ has separator [::])).
move=> p /andP[-> np] /=; apply: contra np => /hasP[c cp sc].
by apply/hasP; exists c => //; apply: separator_space.
Qed.

(** X14.  The parts [parse_row] counts in a row are the maximal runs of
    characters that are neither whitespace nor a comma: the empty row has
    no part; a text that is not empty and holds no such character is one
    part; and the parts of a row with a separator in it are the parts
    before the separator followed by the parts after it.  So commas and
    blanks separate alike, several separators count as one, and the
    separators at the two ends of a row count for nothing. *)
Theorem parts_of_a_row :
  [/\ parts [::] = [::],
      forall p, p != [::] -> ~~ has separator p -> parts p = [:: p]
    & forall s1 c s2, separator c -> parts (s1 ++ c :: s2) = parts s1 ++ parts s2].
Proof.
split=> // [p ne np|s1 c s2 sc]; last by rewrite !partsE fields_cut.
by rewrite partsE fields_token //=; case: p ne np.
Qed.

(** ** [parse_number] and [parse_row] *)

Section ParsingProperties.

Variable Rational : str -> option rat.

Lemma parse_number_token p :
  p != [::] -> ~~ has isspace p ->
  parse_number Rational p
  = if Rational p is Some q then Ok q else Err (InputError (could_not_parse p)).
Proof. by move=> ne np; rewrite /parse_number strip_token // (negbTE ne). Qed.

Lemma parse_numbers_tokens ps :
  all (fun p => (p != [::]) && ~~ has isspace p) ps ->
  parse_numbers Rational ps
  = if all (fun p => Rational p) ps then Ok (pmap Rational ps)
    else Err (InputError
                (could_not_parse (nth [::] ps (find (fun p => ~~ Rational p) ps)))).
Proof.
elim: ps => [|p ps IH] //= /andP[/andP[ne np] toks].
rewrite parse_number_token // IH //.
by case: (Rational p) => [q|] //=; case: ifP.
Qed.

Lemma size_parse_row row_text n row :
  parse_row Rational row_text n = Ok row -> size row = n.
Proof.
rewrite /parse_row; case: eqP => //= sz.
rewrite parse_numbers_tokens ?parts_tokens //; case: ifP => // ok [<-].
rewrite size_pmap -sz; apply/eqP; rewrite -all_count.
by apply: sub_all ok => p; case: (Rational p).
Qed.

End ParsingProperties.

(** X12.  What [parse_row] ends in, whatever sympy's parser of numbers
    does: when the row does not have [n] parts, the error that tells the
    two counts, before any part is parsed; when it has and sympy reads
    every part, the list of the numbers sympy reads from the parts as they
    stand, in their order; otherwise the error that quotes the first part
    sympy refuses. *)
Theorem parse_row_outcome (Rational : str -> option rat) (row_text : str) (n : nat) :
  parse_row Rational row_text n
  = if size (parts row_text) != n
    then Err (InputError (expected n (size (parts row_text))))
    else if all (fun p => Rational p) (parts row_text)
    then Ok (pmap Rational (parts row_text))
    else Err (InputError
                (could_not_parse
                   (nth [::] (parts row_text)
                        (find (fun p => ~~ Rational p) (parts row_text))))).
Proof.
rewrite /parse_row; case: ifP => // _.
by rewrite parse_numbers_tokens // parts_tokens.
Qed.

(** X13.  [parse_row] never raises the error [Empty number.] of
    [parse_number]: no part of a row is empty or blank. *)
Theorem parse_row_never_empty_number (Rational : str -> option rat)
    (row_text : str) (n : nat) :
  raises (parse_row Rational row_text n) empty_number = false.
Proof.
rewrite /parse_row; case: ifP => // _.
by rewrite parse_numbers_tokens ?parts_tokens //; case: ifP.
Qed.

(** X15.  [parse_number] ignores the whitespace around a token; it raises
    [Empty number.] on a token that is empty or blank; and the number it
    returns is the one sympy reads from the stripped token. *)
Theorem parse_number_ignores_whitespace (Rational : str -> option rat) :
  [/\ forall ws token ws', all isspace ws -> all isspace ws' ->
        parse_number Rational (ws ++ token ++ ws') = parse_number Rational token,
      forall ws, all isspace ws ->
        parse_number Rational ws = Err (InputError empty_number)
    & forall token q,
        parse_number Rational token = Ok q -> Rational (strip token) = Some q].
Proof.
split=> [ws token ws' sp sp'|ws sp|token q].
- by rewrite /parse_number strip_spaces.
- by rewrite /parse_number strip_all_spaces.
- by rewrite /parse_number; case: eqP => // _; case: (Rational _) => // q' [->].
Qed.

(** ** The loops, one turn at a time *)

Lemma read_intE limit prompt min_value max_value c :
  read_int limit prompt min_value max_value c
  = (let! line := input prompt in
     let s := strip line in
     if lower s \in quit_words then raise KeyboardInterrupt
     else if ~~ isdigit s then
       do! print positive_integer in read_int limit prompt min_value max_value
     else if int_of_str limit s is Some val then
       if (val < min_value) || (max_value < val) then
         do! print (number_between min_value max_value) in
         read_int limit prompt min_value max_value
       else ret val
     else raise ValueError) c.
Proof.
case: c => [[|line lines] out] //=; rewrite /read_int /bind /input /=.
case: ifP => // _; case: ifP => // _; case: (int_of_str _ _) => // val.
by case: ifP.
Qed.

Lemma read_rowE Rational prompt example n c :
  read_row Rational prompt example n c
  = (let! row_text := input prompt in
     match parse_row Rational row_text n with
     | Ok row => ret row
     | Err e =>
         do! print_error e in
         do! print example in read_row Rational prompt example n
     end) c.
Proof.
case: c => [[|line lines] out] //=; rewrite /read_row /bind /input /=.
by case: (parse_row _ _ _).
Qed.

(** ** [read_int] *)

Section ReadIntProperties.

Variable int_max_str_digits : nat.
Variables (prompt : String.string) (min_value max_value : nat).

Let int := int_of_str int_max_str_digits.

Lemma read_int_loopP lines out :
  match read_int_loop int_max_str_digits prompt min_value max_value lines out with
  | (Ok val, c') =>
      min_value <= val <= max_value
      /\ exists2 k, k < size lines
           & stdin c' = drop k.+1 lines /\ int (strip (nth [::] lines k)) = Some val
  | (Err e, c') =>
      [\/ e = KeyboardInterrupt
          /\ (exists2 k, k < size lines
                & stdin c' = drop k.+1 lines
                  /\ lower (strip (nth [::] lines k)) \in quit_words),
          e = EOFError /\ stdin c' = [::]
        | e = ValueError
          /\ (exists2 k, k < size lines
                & stdin c' = drop k.+1 lines
                  /\ isdigit (strip (nth [::] lines k))
                     && ~~ int (strip (nth [::] lines k)))]
  end.
Proof.
elim: lines out => [|line lines IH] out /=; first by constructor 2.
have shift o :
    (match read_int_loop int_max_str_digits prompt min_value max_value lines o with
     | (Ok val, c') =>
         min_value <= val <= max_value
         /\ exists2 k, k < (size lines).+1
              & stdin c' = drop k.+1 (line :: lines)
                /\ int (strip (nth [::] (line :: lines) k)) = Some val
     | (Err e, c') =>
         [\/ e = KeyboardInterrupt
             /\ (exists2 k, k < (size lines).+1
                   & stdin c' = drop k.+1 (line :: lines)
                     /\ lower (strip (nth [::] (line :: lines) k)) \in quit_words),
             e = EOFError /\ stdin c' = [::]
           | e = ValueError
             /\ (exists2 k, k < (size lines).+1
                   & stdin c' = drop k.+1 (line :: lines)
                     /\ isdigit (strip (nth [::] (line :: lines) k))
                        && ~~ int (strip (nth [::] (line :: lines) k)))]
     end : Prop).
  case: (read_int_loop _ _ _ _ _ _) (IH o) => [[val|e] c'].
    by case=> rng [k kn [dr iv]]; split=> //; exists k.+1.
  case=> [[-> [k kn [dr q]]]|[-> eof]|[-> [k kn [dr bad]]]].
  - by constructor 1; split=> //; exists k.+1.
  - by constructor 2.
  - by constructor 3; split=> //; exists k.+1.
case: ifP => [quit|_].
  by constructor 1; split=> //; exists 0 => //=; rewrite drop0.
case dig: (isdigit (strip line)) => /=; last exact: shift.
case iv: (int_of_str _ _) => [val|]; last first.
  by constructor 3; split=> //; exists 0 => //=; rewrite drop0 dig /int iv.
case: ifP => [_|/negbT]; first exact: shift.
rewrite negb_or -!leqNgt => rng; split=> //.
by exists 0 => //=; rewrite drop0.
Qed.

Lemma read_int_raises c e c' :
  read_int int_max_str_digits prompt min_value max_value c = (Err e, c') ->
  [\/ e = KeyboardInterrupt, e = EOFError | e = ValueError].
Proof.
rewrite /read_int => res; have := read_int_loopP (stdin c) (stdout c); rewrite res.
by case=> [[-> _]|[-> _]|[-> _]]; [constructor 1|constructor 2|constructor 3].
Qed.

Lemma read_int_range c val c' :
  read_int int_max_str_digits prompt min_value max_value c = (Ok val, c') ->
  min_value <= val <= max_value.
Proof.
rewrite /read_int => res; have := read_int_loopP (stdin c) (stdout c).
by rewrite res => -[].
Qed.

End ReadIntProperties.

(** X16.  What a call of [read_int] ends in.  When it returns [val], then
    [val] lies between the two bounds, it is the number that [int] reads
    from one of the lines of the input, stripped, and the input has been
    read up to that line.  It raises nothing but [KeyboardInterrupt], on a
    line that says [q], [quit] or [exit] in small or capital letters;
    [EOFError], when the input has ended; and [ValueError], on a line that
    passes the test [isdigit] and that [int] refuses, which is a line of
    digits with a superscript digit among them or with more digits than
    [int] converts. *)
Theorem read_int_outcome (int_max_str_digits : nat) (prompt : String.string)
    (min_value max_value : nat) (c : console) :
  match read_int int_max_str_digits prompt min_value max_value c with
  | (Ok val, c') =>
      min_value <= val <= max_value
      /\ exists2 k, k < size (stdin c)
           & stdin c' = drop k.+1 (stdin c)
             /\ int_of_str int_max_str_digits (strip (nth [::] (stdin c) k)) = Some val
  | (Err e, c') =>
      [\/ e = KeyboardInterrupt
          /\ (exists2 k, k < size (stdin c)
                & stdin c' = drop k.+1 (stdin c)
                  /\ lower (strip (nth [::] (stdin c) k)) \in quit_words),
          e = EOFError /\ stdin c' = [::]
        | e = ValueError
          /\ (exists2 k, k < size (stdin c)
                & stdin c' = drop k.+1 (stdin c)
                  /\ isdigit (strip (nth [::] (stdin c) k))
                     && ~~ int_of_str int_max_str_digits
                             (strip (nth [::] (stdin c) k)))]
  end.
Proof. exact: read_int_loopP. Qed.

(** ** Reading the rows of a matrix *)

Section ReadingProperties.

Variable Rational : str -> option rat.
Variable int_max_str_digits : nat.

Lemma read_row_loopP prompt example n lines out :
  match read_row_loop Rational prompt example n lines out with
  | (Ok row, c') =>
      size row = n
      /\ exists2 k, k < size lines
           & stdin c' = drop k.+1 lines
             /\ parse_row Rational (nth [::] lines k) n = Ok row
  | (Err e, c') => e = EOFError /\ stdin c' = [::]
  end.
Proof.
elim: lines out => [|line lines IH] out //=.
case pr: (parse_row _ _ _) => [row|e].
  split; first exact: size_parse_row pr.
  by exists 0 => //=; rewrite drop0.
set out' := rcons _ _.
case: (read_row_loop _ _ _ _ _ _) (IH out') => [[row|e'] c'] //.
by case=> sz [k kn [dr pk]]; split=> //; exists k.+1.
Qed.

Lemma read_rows_prefixP prompt example n k c :
  match foldl (fun (loop : io (seq (seq rat))) i =>
                 let! rows := loop in
                 let! row := read_row Rational (prompt i) example n in
                 ret (rcons rows row))
              (ret [::]) (iota 0 k) c with
  | (Ok rows, c') =>
      [/\ size rows = k, all (fun row => size row == n) rows
        & exists j, stdin c' = drop j (stdin c)]
  | (Err e, c') => e = EOFError /\ stdin c' = [::]
  end.
Proof.
elim: k => [|k IH]; first by split=> //; exists 0; rewrite drop0.
rewrite iotaSr foldl_rcons /bind.
case: (foldl _ _ _ _) IH => [[rows|e] c1] //= [sz ok [j dj]].
rewrite /read_row.
case: (read_row_loop _ _ _ _ _ _)
        (read_row_loopP (prompt k) example n (stdin c1) (stdout c1))
  => [[row|e] c2] //= [szr [i _ [di _]]].
split; first by rewrite size_rcons sz.
  by rewrite all_rcons szr eqxx.
by exists (j + i.+1); rewrite di dj drop_drop addnC.
Qed.

Lemma Matrix_of_rows_shape rs m n :
  size rs = m -> all (fun row => size row == n) rs ->
  [/\ rows (Matrix_of_rows rs) = m, 0 < m -> cols (Matrix_of_rows rs) = n,
      m = 0 -> cols (Matrix_of_rows rs) = 0
    & well_formed (Matrix_of_rows rs)].
Proof.
case: rs => [|r rs] /= <- //= /andP[/eqP szr ok]; split=> //.
by rewrite /well_formed /= !eqxx /= szr.
Qed.

Lemma read_rowsP prompt example n m c :
  match read_rows Rational prompt example n m c with
  | (Ok rows, c') =>
      [/\ size rows = m, all (fun row => size row == n) rows
        & exists j, stdin c' = drop j (stdin c)]
  | (Err e, c') => e = EOFError /\ stdin c' = [::]
  end.
Proof. exact: read_rows_prefixP. Qed.

Lemma read_augmented_matrixP m n_vars c :
  match read_augmented_matrix Rational m n_vars c with
  | (Ok Ab, c') =>
      [/\ rows Ab = m, well_formed Ab, 0 < m -> cols Ab = n_vars + 1
        & m = 0 -> cols Ab = 0]
  | (Err e, c') => e = EOFError /\ stdin c' = [::]
  end.
Proof.
rewrite /read_augmented_matrix /bind /print /write /=.
set prompt := fun i => _; set example := (X in read_rows _ _ X); set c0 := Console _ _.
case: (read_rows _ _ _ _ _ _) (read_rowsP prompt example (n_vars + 1) m c0)
  => [[rs|e] c'] // [sz ok _].
by case: (Matrix_of_rows_shape sz ok).
Qed.

End ReadingProperties.

(** X17.  What a call of [read_augmented_matrix] ends in.  It raises
    nothing but [EOFError], when the input has ended: a row that
    [parse_row] refuses is asked for again and its [InputError] goes no
    further.  The matrix it returns has [m] rows, each of [n_vars + 1]
    entries.  When [m] is positive, as it is in [main], the matrix has
    [n_vars + 1] columns, so [back_substitution] does not raise the error
    for malformed input on it; when [m] is zero the matrix has no column,
    and [back_substitution] raises that error. *)
Theorem read_augmented_matrix_shape (Rational : str -> option rat)
    (m n_vars : nat) (c : console) :
  match read_augmented_matrix Rational m n_vars c with
  | (Ok Ab, c') =>
      [/\ rows Ab = m /\ well_formed Ab,
          0 < m ->
            cols Ab = n_vars + 1
            /\ back_substitution Ab n_vars <> Raised (InputError wrong_columns)
        & m = 0 -> back_substitution Ab n_vars = Raised (InputError wrong_columns)]
  | (Err e, c') => e = EOFError /\ stdin c' = [::]
  end.
Proof.
case: (read_augmented_matrix _ _ _ _) (read_augmented_matrixP Rational m n_vars c)
  => [[Ab|e] c'] // [rM wf pos zero]; split=> // [m0|m0].
- split; first exact: pos.
  by case: back_substitutionP => // /eqP; rewrite pos.
- by rewrite /back_substitution zero // addn1.
Qed.

(** X18.  What a call of [read_matrix] ends in.  The matrix it returns
    has between 1 and 30 rows and between 1 and 30 columns, and every row
    has as many entries as there are columns; so has the matrix [ref]
    returns for it.  It raises nothing but the exceptions of [read_int]
    and the [EOFError] of a row that is missing: the [InputError] of a
    refused row goes no further. *)
Theorem read_matrix_shape (Rational : str -> option rat)
    (int_max_str_digits : nat) (c : console) :
  match read_matrix Rational int_max_str_digits c with
  | (Ok A, c') =>
      [/\ 1 <= rows A <= 30, 1 <= cols A <= 30, well_formed A
        & well_formed (ref A).1]
  | (Err e, c') => [\/ e = KeyboardInterrupt, e = EOFError | e = ValueError]
  end.
Proof.
rewrite /read_matrix /bind /print /write /=.
set c0 := Console _ _.
case r1: (read_int _ _ _ _ c0) => [[m|e] c1]; last exact: read_int_raises r1.
case r2: (read_int _ _ _ _ c1) => [[n|e] c2]; last exact: read_int_raises r2.
have mb := read_int_range r1; have nb := read_int_range r2.
set prompt := fun i => _; set example := (X in read_rows _ _ X).
set c3 := Console _ _.
case: (read_rows _ _ _ _ _ _) (read_rowsP Rational prompt example n m c3)
  => [[rs|e] c']; last by case=> ->; constructor 2.
case=> sz ok _; case: (Matrix_of_rows_shape sz ok) => rM cn _ wf.
have m0 : 0 < m by case/andP: mb.
by split=> //; rewrite ?rM ?cn //; apply: ref_well_formed.
Qed.

(** X19.  In [main] of the back substitution tool the call of
    [back_substitution] never ends in the error for malformed input: the
    matrix comes from [read_augmented_matrix] with at least one row, so it
    has [n_vars + 1] columns.  The call returns a solution or raises the
    error for an inconsistent system; and before the call, nothing is
    raised but the exceptions of [read_int] and [EOFError]. *)
Theorem main_never_malformed (Rational : str -> option rat)
    (int_max_str_digits : nat) (c : console) :
  match main_solve Rational int_max_str_digits c with
  | (Ok o, c') => returns_value o \/ o = Raised (InputError inconsistent)
  | (Err e, c') => [\/ e = KeyboardInterrupt, e = EOFError | e = ValueError]
  end.
Proof.
rewrite /main_solve /bind.
case r1: (read_int _ _ _ _ c) => [[n_vars|e] c1]; last exact: read_int_raises r1.
case r2: (read_int _ _ _ _ c1) => [[m|e] c2]; last exact: read_int_raises r2.
have /andP[m0 _] := read_int_range r2.
case: (read_augmented_matrix _ _ _ _) (read_augmented_matrixP Rational m n_vars c2)
  => [[Ab|e] c3]; last by case=> ->; constructor 2.
case=> _ _ /(_ m0) shape _; rewrite /print /pprint /write /=.
by case: back_substitutionP => [/eqP| |]; [|right|left].
Qed.


(** ** X22: the rows that are read *)

Section Rows.

Variable Rational : str -> option rat.
Variables (example : String.string) (n : nat).

Let good (c : console) := pmap (accepted_row Rational n) (stdin c).

Lemma read_row_loop_first prompt lines out :
  let res := read_row_loop Rational prompt example n lines out in
  res.1 = (if pmap (accepted_row Rational n) lines is row :: _ then Ok row
           else Err EOFError)
  /\ good res.2 = behead (pmap (accepted_row Rational n) lines).
Proof.
elim: lines out => [|line lines IH] out //=.
by rewrite /accepted_row /oapp; case: (parse_row _ _ _) => [row|e] /=.
Qed.

Let rows_loop (prompt : nat -> String.string) (k : nat) : io (seq (seq rat)) :=
  foldl (fun (loop : io (seq (seq rat))) i =>
           let! rows := loop in
           let! row := read_row Rational (prompt i) example n in
           ret (rcons rows row))
        (ret [::]) (iota 0 k).

Lemma read_rows_first prompt k c :
  (rows_loop prompt k c).1
  = (if k <= size (good c) then Ok (take k (good c)) else Err EOFError)
  /\ (k <= size (good c) -> good (rows_loop prompt k c).2 = drop k (good c)).
Proof.
elim: k => [|k]; first by rewrite /= take0 drop0.
rewrite /rows_loop iotaSr foldl_rcons /bind.
case: (foldl _ _ _ _) => [r c1] /=.
case: (ltngtP k (size (good c))) => [lt_k|gt_k|eq_k] [-> rest] //.
- have {}rest := rest isT; rewrite /read_row.
  case: (read_row_loop_first (prompt k) (stdin c1) (stdout c1)) => /=.
  rewrite -/(good c1) rest (drop_nth [::] lt_k) /=.
  case: (read_row_loop _ _ _ _ _ _) => r2 c2 /= -> ->; split=> //.
  by rewrite (take_nth [::] lt_k).
- have {}rest := rest isT; rewrite /read_row.
  case: (read_row_loop_first (prompt k) (stdin c1) (stdout c1)) => /=.
  rewrite -/(good c1) rest eq_k drop_size.
  by case: (read_row_loop _ _ _ _ _ _) => r2 c2 /= ->.
Qed.

Lemma read_rows_value prompt m c :
  (read_rows Rational prompt example n m c).1
  = (if m <= size (good c) then Ok (take m (good c)) else Err EOFError).
Proof. by case: (read_rows_first prompt m c). Qed.

End Rows.

(** X22.  The matrix [read_augmented_matrix] returns is made of the
    first [m] lines of the input that [parse_row] accepts as rows of
    [n_vars + 1] numbers, in their order: the lines it refuses are passed
    over.  When the input has fewer than [m] such lines, [EOFError] is
    raised. *)
Theorem read_augmented_matrix_rows (Rational : str -> option rat)
    (m n_vars : nat) (c : console) :
  let good := pmap (accepted_row Rational (n_vars + 1)) (stdin c) in
  (read_augmented_matrix Rational m n_vars c).1
  = if m <= size good then Ok (Matrix_of_rows (take m good)) else Err EOFError.
Proof.
rewrite /read_augmented_matrix /bind /print /write /=.
set prompt := fun i => _; set example := (X in read_rows _ _ X); set c0 := Console _ _.
have := read_rows_value Rational example (n_vars + 1) prompt m c0.
by case: (read_rows _ _ _ _ _ _) => r c' /= ->; case: ifP.
Qed.

(** ** The input only gets shorter *)

Lemma advances_keeps T (a : io T) : advances a -> keeps a.
Proof. by move=> adv c; have := adv c; case: (a c) => [[v|e] c'] //; apply: ltnW. Qed.

Lemma keeps_ret T (v : T) : keeps (ret v).
Proof. by move=> c. Qed.

Lemma keeps_raise T e : keeps (@raise T e).
Proof. by move=> c. Qed.

Lemma keeps_write o : keeps (write o).
Proof. by move=> c. Qed.

Lemma keeps_bind T U (a : io T) (f : T -> io U) :
  keeps a -> (forall v, keeps (f v)) -> keeps (bind a f).
Proof.
move=> ka kf c; rewrite /bind; have := ka c.
case: (a c) => [[v|e] c'] //= le_c'; exact: leq_trans (kf v c') le_c'.
Qed.

Lemma advances_bind T U (a : io T) (f : T -> io U) :
  advances a -> (forall v, keeps (f v)) -> advances (bind a f).
Proof.
move=> aa kf c; rewrite /bind; have := aa c.
case: (a c) => [[v|e] c'] //= lt_c'; have := kf v c'.
by case: (f v c') => [[u|e] c''] /= le_c''; [exact: leq_ltn_trans lt_c' | exact: leq_trans (ltnW lt_c')].
Qed.

Lemma keeps_advances_bind T U (a : io T) (f : T -> io U) :
  keeps a -> (forall v, advances (f v)) -> advances (bind a f).
Proof.
move=> ka af c; rewrite /bind; have := ka c.
case: (a c) => [[v|e] c'] //= le_c'; have := af v c'.
by case: (f v c') => [[u|e] c''] /= lt_c''; [exact: leq_trans le_c' | exact: leq_trans le_c'].
Qed.

Lemma advances_input prompt : advances (input prompt).
Proof. by case=> [[|line lines] out]; rewrite /input /=. Qed.

Lemma advances_read_int limit prompt min_value max_value :
  advances (read_int limit prompt min_value max_value).
Proof.
move=> c; have := read_int_loopP limit prompt min_value max_value (stdin c) (stdout c).
rewrite /read_int; case: (read_int_loop _ _ _ _ _ _) => [[val|e] c'].
  by case=> _ [k kn [-> _]]; rewrite size_drop; nlia.
case=> [[_ [k kn [-> _]]]|[_ ->]|[_ [k kn [-> _]]]] //; rewrite size_drop; nlia.
Qed.

Lemma keeps_print line : keeps (print line).
Proof. exact: keeps_write. Qed.

Lemma keeps_pprint M : keeps (pprint M).
Proof. exact: keeps_write. Qed.

Section Progress.

Variable Rational : str -> option rat.
Variable int_max_str_digits : nat.

Lemma keeps_read_rows prompt example n m :
  keeps (read_rows Rational prompt example n m).
Proof.
move=> c; have := read_rowsP Rational prompt example n m c.
case: (read_rows _ _ _ _ _ _) => [[rows|e] c'] /=; last by case=> _ ->.
by case=> _ _ [j ->]; rewrite size_drop leq_subr.
Qed.

Lemma advances_read_matrix : advances (read_matrix Rational int_max_str_digits).
Proof.
rewrite /read_matrix.
apply: keeps_advances_bind => [|_]; first exact: keeps_print.
apply: advances_bind => [|m]; first exact: advances_read_int.
apply: keeps_bind => [|n]; first exact/advances_keeps/advances_read_int.
do 3![apply: keeps_bind => [|_]; first exact: keeps_print].
by apply: keeps_bind => [|rs]; [exact: keeps_read_rows | exact: keeps_ret].
Qed.

Lemma keeps_read_augmented_matrix m n_vars :
  keeps (read_augmented_matrix Rational m n_vars).
Proof.
rewrite /read_augmented_matrix.
do 3![apply: keeps_bind => [|_]; first exact: keeps_print].
by apply: keeps_bind => [|rs]; [exact: keeps_read_rows | exact: keeps_ret].
Qed.

Lemma advances_main_solve : advances (main_solve Rational int_max_str_digits).
Proof.
rewrite /main_solve.
apply: advances_bind => [|n_vars]; first exact: advances_read_int.
apply: keeps_bind => [|m]; first exact/advances_keeps/advances_read_int.
apply: keeps_bind => [|Ab]; first exact: keeps_read_augmented_matrix.
apply: keeps_bind => [|_]; first exact: keeps_print.
by apply: keeps_bind => [|_]; [exact: keeps_pprint | exact: keeps_ret].
Qed.

Lemma keeps_run_again : keeps run_again.
Proof.
apply: keeps_bind => [|again]; first exact/advances_keeps/advances_input.
case: ifP => _; last exact: keeps_ret.
by apply: keeps_bind => [|_]; [exact: keeps_print | exact: keeps_ret].
Qed.

Lemma keeps_show_solution sol free_cols : keeps (show_solution sol free_cols).
Proof.
rewrite /show_solution.
apply: keeps_bind => [|_]; first exact: keeps_print.
apply: keeps_bind => [|_].
  elim/last_ind: (zip _ _) => [|ies ie IH]; first exact: keeps_ret.
  by rewrite foldl_rcons; apply: keeps_bind => [|_]; [exact: IH | exact: keeps_write].
apply: keeps_bind => [|_].
  case: free_cols => [|j free_cols]; first exact: keeps_ret.
  by apply: keeps_bind => [|_]; [exact: keeps_write | exact: keeps_print].
apply: keeps_bind => [|stop]; first exact: keeps_run_again.
case: stop; first exact: keeps_ret.
by apply: keeps_bind => [|_]; [exact: keeps_print | exact: keeps_ret].
Qed.

Lemma advances_main_try_Back : advances (main_try_Back Rational int_max_str_digits).
Proof.
apply: advances_bind => [|o]; first exact: advances_main_solve.
by case: o => [sol free_cols|e|];
  [exact: keeps_show_solution | exact: keeps_raise | exact: keeps_show_solution].
Qed.

Lemma advances_main_try_REF : advances (main_try_REF Rational int_max_str_digits).
Proof.
rewrite /main_try_REF.
apply: advances_bind => [|A]; first exact: advances_read_matrix.
apply: keeps_bind => [|_]; first exact: keeps_print.
apply: keeps_bind => [|_]; first exact: keeps_pprint.
apply: keeps_bind => [|_]; first exact: keeps_print.
apply: keeps_bind => [|_]; first exact: keeps_pprint.
by apply: keeps_bind => [|_]; [exact: keeps_write | exact: keeps_run_again].
Qed.

End Progress.

(** ** The loop of [main] ends *)

Section MainLoop.

Variables (turn : io bool) (report : exception -> output).
Hypothesis turn_advances : advances turn.

Lemma main_loop_ends fuel c :
  size (stdin c) < fuel ->
  match main_loop turn report fuel c with
  | Some (Ok _, c') => True
  | Some (Err e, c') => e = EOFError /\ stdin c' = [::]
  | None => False
  end.
Proof.
elim: fuel c => [|fuel IH] c //=; rewrite ltnS => bound.
have := turn_advances c; case: (turn c) => [[[|]|e] c'] //= shorter.
  by apply: IH; apply: leq_trans bound.
have handled :
    match (do! write (report e) in input "Press Enter to continue...") c' with
    | (Ok _, c'') => main_loop turn report fuel c''
    | (Err e', c'') => Some (Err e', c'')
    end = match stdin c' with
          | [::] => Some (Err EOFError,
                          Console [::] (rcons (rcons (stdout c') (report e))
                                              (Prompted "Press Enter to continue...")))
          | line :: lines =>
              main_loop turn report fuel
                (Console lines (rcons (rcons (stdout c') (report e))
                                      (Prompted "Press Enter to continue...")))
          end.
  by rewrite /bind /write /input /=; case: (stdin c').
have rest : match stdin c' with
            | [::] => True
            | line :: lines => size lines < fuel
            end.
  by case: (stdin c') shorter => //= line lines lt; apply: leq_trans bound.
case: e handled => [e'| | |] handled; rewrite ?handled //=;
  case: (stdin c') rest => //= line lines lt; exact: IH.
Qed.

Lemma main_loop_more fuel fuel' c :
  size (stdin c) < fuel -> fuel <= fuel' ->
  main_loop turn report fuel' c = main_loop turn report fuel c.
Proof.
elim: fuel fuel' c => [|fuel IH] [|fuel'] c //=; rewrite !ltnS => bound le.
have := turn_advances c; case: (turn c) => [[[|]|e] c'] //= shorter.
  by apply: IH => //; apply: leq_trans bound.
have step c'' : size (stdin c'') < size (stdin c') ->
    main_loop turn report fuel' c'' = main_loop turn report fuel c''.
  by move=> lt; apply: IH => //; apply: leq_trans lt (leq_trans shorter bound).
have handled f :
    match (do! write (report e) in input "Press Enter to continue...") c' with
    | (Ok _, c'') => main_loop turn report f c''
    | (Err e', c'') => Some (Err e', c'')
    end = match stdin c' with
          | [::] => Some (Err EOFError,
                          Console [::] (rcons (rcons (stdout c') (report e))
                                              (Prompted "Press Enter to continue...")))
          | line :: lines =>
              main_loop turn report f
                (Console lines (rcons (rcons (stdout c') (report e))
                                      (Prompted "Press Enter to continue...")))
          end.
  by rewrite /bind /write /input /=; case: (stdin c').
case: e handled => [e'| | |] handled //; rewrite !handled;
  case sc: (stdin c') step => [|line lines] //= step; exact: step.
Qed.

End MainLoop.

(** ** X23, X24: the two tools end *)

(** X23.  [main] of the REF tool ends, whatever lines the user types: run
    for more turns than there are lines of input, the loop does not run
    out of turns, and more turns change nothing.  It ends by returning,
    or, when the input ends before the user has asked to leave, with the
    [EOFError] of an [input]; no other exception leaves [main]. *)
Theorem main_REF_ends (Rational : str -> option rat) (int_max_str_digits : nat)
    (fuel : nat) (c : console) :
  size (stdin c) < fuel ->
  match main_REF Rational int_max_str_digits fuel c with
  | Some (Ok _, c') => True
  | Some (Err e, c') => e = EOFError /\ stdin c' = [::]
  | None => False
  end
  /\ (forall fuel', fuel <= fuel' ->
        main_REF Rational int_max_str_digits fuel' c
        = main_REF Rational int_max_str_digits fuel c).
Proof.
move=> bound; rewrite /main_REF; split=> [|fuel' le].
  by apply: main_loop_ends => //; apply: advances_main_try_REF.
by apply: main_loop_more => //; apply: advances_main_try_REF.
Qed.

(** X23 for a user who types a matrix of one row and one column and then
    [q]. *)
Lemma main_REF_ends_witness :
  let c := Console [:: text "1"; text "1"; text "5"; text "q"] [::] in
  size (stdin c) < 5
  /\ (match main_REF unsigned_literal 4300 5 c with
      | Some (Ok _, c') => True
      | Some (Err e, c') => e = EOFError /\ stdin c' = [::]
      | None => False
      end
      /\ (forall fuel', 5 <= fuel' ->
            main_REF unsigned_literal 4300 fuel' c = main_REF unsigned_literal 4300 5 c)).
Proof.
have bound : size (stdin (Console [:: text "1"; text "1"; text "5"; text "q"] [::])) < 5.
  by [].
by split; [exact: bound | exact: (main_REF_ends unsigned_literal 4300 bound)].
Defined.

(** X24.  [main] of the back substitution tool ends, whatever lines the
    user types: run for more turns than there are lines of input, the loop
    does not run out of turns, and more turns change nothing.  It ends by
    returning, or, when the input ends before the user has asked to leave,
    with the [EOFError] of an [input]; no other exception leaves [main],
    and every [InputError] is caught. *)
Theorem main_Back_ends (Rational : str -> option rat) (int_max_str_digits : nat)
    (fuel : nat) (c : console) :
  size (stdin c) < fuel ->
  match main_Back Rational int_max_str_digits fuel c with
  | Some (Ok _, c') => True
  | Some (Err e, c') => e = EOFError /\ stdin c' = [::]
  | None => False
  end
  /\ (forall fuel', fuel <= fuel' ->
        main_Back Rational int_max_str_digits fuel' c
        = main_Back Rational int_max_str_digits fuel c).
Proof.
move=> bound; rewrite /main_Back; split=> [|fuel' le].
  by apply: main_loop_ends => //; apply: advances_main_try_Back.
by apply: main_loop_more => //; apply: advances_main_try_Back.
Qed.

(** X24 for a user who types the system [2 x0 = 4] and then [q]. *)
Lemma main_Back_ends_witness :
  let c := Console [:: text "1"; text "1"; text "2 4"; text "q"] [::] in
  size (stdin c) < 5
  /\ (match main_Back unsigned_literal 4300 5 c with
      | Some (Ok _, c') => True
      | Some (Err e, c') => e = EOFError /\ stdin c' = [::]
      | None => False
      end
      /\ (forall fuel', 5 <= fuel' ->
            main_Back unsigned_literal 4300 fuel' c
            = main_Back unsigned_literal 4300 5 c)).
Proof.
have bound : size (stdin (Console [:: text "1"; text "1"; text "2 4"; text "q"] [::])) < 5.
  by [].
by split; [exact: bound | exact: (main_Back_ends unsigned_literal 4300 bound)].
Defined.
